(** * server9.c: epoll readiness loop, ring queues and sender threads

    A shallow embedding of [src/chapter05/server9.c]: the bounded string
    concatenation [mystrlcat], the per-shard ring queue [struct queue], one
    dispatch of the [accept_loop] body and one iteration of [send_thread],
    first as whole turns and then as the moves of the two threads between
    the points where the mutex is taken and released. System calls are
    answered by an explicit oracle; an access outside an array is
    undefined behaviour and is modelled by [None]. *)

From Stdlib Require Import ZArith Ascii String List Lia.
From stdpp Require Import base option list gmap.

(** ** C strings over fixed arrays *)

Module CStr.

Definition char := ascii.

Definition NUL : char := "000"%char.
Definition CR : char := "013"%char.
Definition LF : char := "010"%char.

Definition is_nul (c : char) : bool := Ascii.eqb c NUL.

(** The characters of the C string stored at the start of the array [b]:
    everything before the first NUL. *)
Fixpoint cstr (b : list char) : list char :=
  match b with
  | [] => []
  | c :: b' => if is_nul c then [] else c :: cstr b'
  end.

(** [strlen]: the offset of the first NUL; reading past the array is
    undefined. *)
Fixpoint strlen (b : list char) : option nat :=
  match b with
  | [] => None
  | c :: b' => if is_nul c then Some 0 else S <$> strlen b'
  end.

Fixpoint memchr (c : char) (set : list char) : bool :=
  match set with
  | [] => false
  | x :: set' => Ascii.eqb c x || memchr c set'
  end.

(** [strpbrk s accept]: offset of the first character of the string [s]
    that belongs to [accept], [Some None] for the NULL result. *)
Fixpoint strpbrk_from (i : nat) (s : list char) (accept : list char)
  : option (option nat) :=
  match s with
  | [] => None
  | c :: s' =>
      if is_nul c then Some None
      else if memchr c accept then Some (Some i)
      else strpbrk_from (S i) s' accept
  end.

Definition strpbrk (s accept : list char) : option (option nat) :=
  strpbrk_from 0 s accept.

(** [size_t] is 64 bits wide. *)
Definition SIZE_MAX1 : Z := (2 ^ 64)%Z.
Definition size_t (z : Z) : Z := (z mod SIZE_MAX1)%Z.

(** First loop of [mystrlcat]:
    [for (pd = dst, lest = size; *pd != '\0' && lest != 0; pd++, lest--)].
    The test reads [*pd] before it looks at [lest]. *)
Fixpoint scan_dst (dst : list char) (pd lest : nat) : option nat :=
  match dst !! pd with
  | None => None
  | Some c =>
      if is_nul c then Some pd
      else match lest with
           | 0 => Some pd
           | S lest' => scan_dst dst (S pd) lest'
           end
  end.

(** Second loop:
    [for (ps = src; *ps != '\0' && pd < pde; pd++, ps++) *pd = *ps;]
    [fuel] bounds the iterations; [mystrlcat] passes [pde - pd]. *)
Fixpoint copy_src (fuel : nat) (dst src : list char) (pd ps pde : nat)
  : option (list char * nat * nat) :=
  match src !! ps with
  | None => None
  | Some c =>
      if negb (is_nul c) && (pd <? pde) then
        match fuel with
        | 0 => None
        | S fuel' =>
            if pd <? length dst
            then copy_src fuel' (<[pd := c]> dst) src (S pd) (S ps) pde
            else None
        end
      else Some (dst, pd, ps)
  end.

(** Third loop: [for (; pd <= pde; pd++) *pd = '\0';] *)
Fixpoint fill_nul (fuel : nat) (dst : list char) (pd pde : nat)
  : option (list char) :=
  if pd <=? pde then
    match fuel with
    | 0 => None
    | S fuel' =>
        if pd <? length dst
        then fill_nul fuel' (<[pd := NUL]> dst) (S pd) pde
        else None
    end
  else Some dst.

(** Fourth loop: [while ( *ps++ ) ;] returns the final [ps]. *)
Fixpoint skip_src (fuel : nat) (src : list char) (ps : nat) : option nat :=
  match src !! ps with
  | None => None
  | Some c =>
      if is_nul c then Some (S ps)
      else match fuel with
           | 0 => None
           | S fuel' => skip_src fuel' src (S ps)
           end
  end.

(** [mystrlcat dst src size]: the new contents of the array [dst] and the
    returned [size_t]. [dst] and [src] are distinct arrays. *)
Definition mystrlcat (dst src : list char) (size : nat)
  : option (list char * Z) :=
  pd ← scan_dst dst 0 size;
  let dlen := pd in
  if size - dlen =? 0 then
    n ← strlen src;
    Some (dst, size_t (Z.of_nat dlen + Z.of_nat n))
  else
    let pde := size - 1 in
    '(dst1, pd1, ps1) ← copy_src (pde - pd) dst src pd 0 pde;
    dst2 ← fill_nul (S pde - pd1) dst1 pd1 pde;
    ps2 ← skip_src (length src) src ps1;
    Some (dst2, size_t (Z.of_nat dlen + Z.of_nat (ps2 - 0 - 1))).

End CStr.

Import CStr.

Local Open Scope Z_scope.

(** ** Arrays indexed by a C integer *)

Definition nthZ {A} (l : list A) (i : Z) : option A :=
  if i <? 0 then None else l !! Z.to_nat i.

Definition storeZ {A} (l : list A) (i : Z) (x : A) : option (list A) :=
  if (0 <=? i) && (i <? Z.of_nat (length l))
  then Some (<[Z.to_nat i := x]> l)
  else None.

(** ** The ring queues *)

Definition MAXQUEUESZ : Z := 4096.
Definition MAXSENDER : Z := 2.
Definition MAX_CHILD : Z := 20.

(** [sizeof(buf)] for [char buf[512]]. *)
Definition BUFSZ : nat := 512.

Definition QUEUE_NEXT (i_ : Z) : Z := Z.rem (i_ + 1) MAXQUEUESZ.

Record queue_data := QueueData {
  acc : Z;
  buf : list char;
  len : Z
}.

Record queue := Queue {
  front : Z;
  last : Z;
  data : list queue_data
}.

(** Objects with static storage start zeroed. *)
Definition zero_data : queue_data :=
  {| acc := 0; buf := replicate BUFSZ NUL; len := 0 |}.

Definition zero_queue : queue :=
  {| front := 0; last := 0;
     data := replicate (Z.to_nat MAXQUEUESZ) zero_data |}.

(** ** System calls and their answers *)

Definition errno := Z.
Definition EINTR : errno := 4.

(** What one pass over a ready descriptor is told by the kernel:
    the value of [accept], the [errno] of a failed call, the bytes pending
    on the connection ([None] when [recv] fails with -1, the empty list at
    end of file), and whether an [epoll_ctl] on a suitable descriptor
    succeeds. *)
Record oracle := Oracle {
  accept_ret : Z;
  sys_errno : errno;
  recv_pending : option (list char);
  ctl_ok : bool
}.

(** [events[i]]: the ready descriptor and the answers for its pass. *)
Record epoll_event := Event {
  data_fd : Z;
  answers : oracle
}.

(** The value of [epoll_wait]: -1, 0, or [nfds] filled events. *)
Inductive epoll_wait_ret :=
| WaitError
| WaitTimeout
| WaitReady (events : list epoll_event).

Inductive message :=
| MsgChildCount (count : Z)
| MsgAccept
| MsgConnectionFull
| MsgRecvEOF (fd : Z)
| MsgChild (acc : Z) (text : list char).

(** Observable actions, in the order they are performed. *)
Inductive action :=
| Perror (what : string)
| Fprintf (m : message)
| Close (fd : Z)
| CloseEpoll
| Send (fd : Z) (bytes : list char).

(** [recv(fd, buf, size, 0)]: at most [size] pending bytes are copied to
    the start of [buf]. *)
Definition recv (pending : option (list char)) (b : list char) (size : nat)
  : list char * Z :=
  match pending with
  | None => (b, -1)
  | Some bytes =>
      let got := take size bytes in
      (got ++ drop (length got) b, Z.of_nat (length got))
  end.

(** [epoll_ctl(epollfd, EPOLL_CTL_ADD, fd, &ev)] on the interest list:
    fails on a descriptor already present, or when the oracle says so. *)
Definition epoll_ctl_add (fd : Z) (ok : bool) (interest : gset Z)
  : option (gset Z) :=
  if decide (fd ∈ interest) then None
  else if ok then Some ({[fd]} ∪ interest) else None.

(** [epoll_ctl(epollfd, EPOLL_CTL_DEL, fd, &ev)]: fails on a descriptor
    that is absent, or when the oracle says so. *)
Definition epoll_ctl_del (fd : Z) (ok : bool) (interest : gset Z)
  : option (gset Z) :=
  if decide (fd ∈ interest) then
    if ok then Some (interest ∖ {[fd]}) else None
  else None.

(** ** The process state *)

Record world := World {
  g_queue : list queue;
  interest : gset Z;       (* descriptors registered with epollfd *)
  count : Z;               (* accept_loop's local [count] *)
  looping : bool;          (* accept_loop has not returned *)
  trace : list action      (* oldest first *)
}.

Definition set_queues (qs : list queue) (w : world) : world :=
  {| g_queue := qs; interest := interest w; count := count w;
     looping := looping w; trace := trace w |}.

Definition emit (a : action) (w : world) : world :=
  {| g_queue := g_queue w; interest := interest w; count := count w;
     looping := looping w; trace := trace w ++ [a] |}.

Definition set_interest (s : gset Z) (c : Z) (w : world) : world :=
  {| g_queue := g_queue w; interest := s; count := c;
     looping := looping w; trace := trace w |}.

Definition loop_return (w : world) : world :=
  {| g_queue := g_queue w; interest := interest w; count := count w;
     looping := false; trace := trace w |}.

(** State on entry to the [for (;;)] of [accept_loop soc]: the queues are
    zeroed, [soc] is registered and [count = 0]. *)
Definition init_world (soc : Z) : world :=
  {| g_queue := replicate (Z.to_nat MAXSENDER) zero_queue;
     interest := {[soc]}; count := 0; looping := true; trace := [] |}.

(** ** accept_loop *)

(** The branch [events[i].data.fd == soc]. *)
Definition on_listen (o : oracle) (w : world) : option world :=
  let acc := accept_ret o in
  if acc =? -1 then
    Some (if negb (sys_errno o =? EINTR) then emit (Perror "accept") w else w)
  else
    let w := emit (Fprintf MsgAccept) w in
    if count w + 1 >=? MAX_CHILD then
      Some (emit (Close acc) (emit (Fprintf MsgConnectionFull) w))
    else
      match epoll_ctl_add acc (ctl_ok o) (interest w) with
      | None =>
          Some (loop_return
                  (emit CloseEpoll
                     (emit (Close acc) (emit (Perror "epoll_ctl") w))))
      | Some s => Some (set_interest s (count w + 1) w)
      end.

(** The cases [-1] (after its [perror]) and [0] of the [switch] on the
    result of [recv]. *)
Definition teardown (fd : Z) (o : oracle) (w : world) : world :=
  let w1 := emit (Fprintf (MsgRecvEOF fd)) w in
  match epoll_ctl_del fd (ctl_ok o) (interest w1) with
  | None => loop_return (emit CloseEpoll (emit (Perror "epoll_ctl") w1))
  | Some s => set_interest s (count w1 - 1) (emit (Close fd) w1)
  end.

(** The branch for a ready connection socket, first half, done without
    the mutex: [data[last].acc = fd; data[last].len = recv(...)] with
    [qi = fd % MAXSENDER]. *)
Definition conn_recv (fd : Z) (o : oracle) (w : world) : option world :=
  let qi := Z.rem fd MAXSENDER in
  q ← nthZ (g_queue w) qi;
  slot ← nthZ (data q) (last q);
  let '(b, n) := recv (recv_pending o) (buf slot) BUFSZ in
  slots ← storeZ (data q) (last q) {| acc := fd; buf := b; len := n |};
  qs ← storeZ (g_queue w) qi
        {| front := front q; last := last q; data := slots |};
  Some (set_queues qs w).

(** Second half: [switch (g_queue[qi].data[g_queue[qi].last].len)]. The
    default case advances [last] under the mutex and signals. *)
Definition conn_switch (fd : Z) (o : oracle) (w : world) : option world :=
  let qi := Z.rem fd MAXSENDER in
  q ← nthZ (g_queue w) qi;
  slot ← nthZ (data q) (last q);
  if len slot =? -1 then Some (teardown fd o (emit (Perror "recv") w))
  else if len slot =? 0 then Some (teardown fd o w)
  else
    qs ← storeZ (g_queue w) qi
          {| front := front q; last := QUEUE_NEXT (last q); data := data q |};
    Some (set_queues qs w).

Definition on_conn (fd : Z) (o : oracle) (w : world) : option world :=
  w1 ← conn_recv fd o w; conn_switch fd o w1.

(** One pass of [for (i = 0; i < nfds; i++)]. *)
Definition dispatch (soc : Z) (ev : epoll_event) (w : world) : option world :=
  if data_fd ev =? soc then on_listen (answers ev) w
  else on_conn (data_fd ev) (answers ev) w.

(** The inner [for]: a [return] inside it leaves the function. *)
Fixpoint dispatch_all (soc : Z) (evs : list epoll_event) (w : world)
  : option world :=
  match evs with
  | [] => Some w
  | ev :: evs' =>
      if looping w then w' ← dispatch soc ev w; dispatch_all soc evs' w'
      else Some w
  end.

(** One turn of the outer [for (;;)]. *)
Definition accept_loop_turn (soc : Z) (r : epoll_wait_ret) (w : world)
  : option world :=
  if looping w then
    let w1 := emit (Fprintf (MsgChildCount (count w))) w in
    match r with
    | WaitError => Some (emit (Perror "epoll_wait") w1)
    | WaitTimeout => Some w1
    | WaitReady evs => dispatch_all soc evs w1
    end
  else Some w.

Fixpoint accept_loop (soc : Z) (rs : list epoll_wait_ret) (w : world)
  : option world :=
  match rs with
  | [] => Some w
  | r :: rs' => w' ← accept_loop_turn soc r w; accept_loop soc rs' w'
  end.

(** ** send_thread *)

(** The string literal [":OK\r\n"]. *)
Definition OK_CRLF : list char := [":"; "O"; "K"; CR; LF; NUL]%char.

(** The work on the popped element [e]: terminate, cut at the first CR or
    LF, log, append the suffix, send. [send_ret] is the value of [send]. *)
Definition respond (e : queue_data) (send_ret : Z)
  : option (queue_data * list action) :=
  b1 ← storeZ (buf e) (len e) NUL;
  ptr ← strpbrk b1 [CR; LF];
  let b2 := match ptr with Some k => <[k := NUL]> b1 | None => b1 end in
  let logged := Fprintf (MsgChild (acc e) (cstr b2)) in
  '(b3, _) ← mystrlcat b2 OK_CRLF BUFSZ;
  n ← strlen b3;
  let e' := {| acc := acc e; buf := b3; len := Z.of_nat n |} in
  let sent := Send (acc e) (take n b3) in
  Some (e', if send_ret =? -1 then [logged; sent; Perror "send"]
            else [logged; sent]).

(** [send_thread qi], under the mutex: pop the index at [front], or wait
    on the condition variable ([None]) when the queue is empty. *)
Definition worker_pop (qi : Z) (w : world) : option (option Z * world) :=
  q ← nthZ (g_queue w) qi;
  if negb (last q =? front q) then
    let i := front q in
    qs ← storeZ (g_queue w) qi
          {| front := QUEUE_NEXT (front q); last := last q; data := data q |};
    Some (Some i, set_queues qs w)
  else Some (None, w).

(** [send_thread qi], after the mutex is released: work on element [i]. *)
Definition worker_respond (qi i : Z) (send_ret : Z) (w : world)
  : option world :=
  q ← nthZ (g_queue w) qi;
  e ← nthZ (data q) i;
  '(e', acts) ← respond e send_ret;
  slots ← storeZ (data q) i e';
  qs ← storeZ (g_queue w) qi
        {| front := front q; last := last q; data := slots |};
  Some {| g_queue := qs; interest := interest w; count := count w;
          looping := looping w; trace := trace w ++ acts |}.

(** One turn of the [for (;;)] of [send_thread qi]. *)
Definition send_thread_turn (qi : Z) (send_ret : Z) (w : world)
  : option world :=
  '(popped, w1) ← worker_pop qi w;
  match popped with
  | Some i => worker_respond qi i send_ret w1
  | None => Some w1
  end.

(** The bytes passed to [send] on descriptor [fd], oldest first. *)
Fixpoint sent_on (fd : Z) (t : list action) : list (list char) :=
  match t with
  | [] => []
  | Send fd' bytes :: t' =>
      if fd' =? fd then bytes :: sent_on fd t' else sent_on fd t'
  | _ :: t' => sent_on fd t'
  end.

(** ** Interleavings *)

(** Whole turns of the loop and of the sender threads, in any order. A
    [WorkerTurn] is a turn of [send_thread] that is not preempted between
    its pop and its work on the element, and a [LoopTurn] a turn of
    [accept_loop] during which no sender runs; the schedules that cut the
    turns where the code releases the mutex are the [moves] of [machine],
    further down. *)
Inductive step :=
| LoopTurn (r : epoll_wait_ret)
| WorkerTurn (qi : Z) (send_ret : Z).

Definition run_step (soc : Z) (st : step) (w : world) : option world :=
  match st with
  | LoopTurn r => accept_loop_turn soc r w
  | WorkerTurn qi send_ret => send_thread_turn qi send_ret w
  end.

Fixpoint run (soc : Z) (sts : list step) (w : world) : option world :=
  match sts with
  | [] => Some w
  | st :: sts' => w' ← run_step soc st w; run soc sts' w'
  end.

(** ** Vocabulary of the statements *)

(** A run of characters none of which is NUL. *)
Definition nonul (s : list char) : Prop := Forall (λ c, is_nul c = false) s.

(** What [mystrlcat] is meant to leave in the first [size] bytes of [dst]:
    [size - 1] characters of the two strings at most, then NUL up to offset
    [size - 1]. *)
Definition strlcat_result (d s : list char) (size : nat) : list char :=
  let kept := take (size - 1) (d ++ s) in
  kept ++ replicate (size - length kept) NUL.

(** What [send_thread] keeps of the received bytes: the characters before
    the first NUL, CR or LF. *)
Fixpoint line_of (bytes : list char) : list char :=
  match bytes with
  | [] => []
  | c :: t =>
      if is_nul c || memchr c [CR; LF] then [] else c :: line_of t
  end.

(** [strpbrk] followed by [*ptr = '\0']. *)
Definition cut_line (b : list char) : option (list char) :=
  ptr ← strpbrk b [CR; LF];
  Some (match ptr with Some k => <[k := NUL]> b | None => b end).

(** The characters of the literal [":OK\r\n"]. *)
Definition OK_suffix : list char := [":"; "O"; "K"; CR; LF]%char.

(** The response as the wire protocol words it: the received bytes, then
    [":OK"], then CR LF. *)
Definition protocol_response (received : list char) : list char :=
  received ++ OK_suffix.

(** The element [recv] leaves in a slot whose buffer was [b0]. *)
Definition received_into (fd : Z) (bytes b0 : list char) : queue_data :=
  {| acc := fd; buf := (recv (Some bytes) b0 BUFSZ).1;
     len := (recv (Some bytes) b0 BUFSZ).2 |}.

Definition wf_queue (q : queue) : Prop :=
  0 <= front q < MAXQUEUESZ ∧ 0 <= last q < MAXQUEUESZ
  ∧ length (data q) = Z.to_nat MAXQUEUESZ.

Definition wf_world (w : world) : Prop :=
  length (g_queue w) = Z.to_nat MAXSENDER ∧ Forall wf_queue (g_queue w).

(** The registered connections: the interest list without [soc]. *)
Definition connections (soc : Z) (w : world) : gset Z :=
  interest w ∖ {[soc]}.

Definition admission_inv (soc : Z) (w : world) : Prop :=
  soc ∈ interest w
  ∧ count w = Z.of_nat (size (connections soc w))
  ∧ count w <= MAX_CHILD - 1.

(** Registered, and the counter incremented. *)
Definition admitted (acc : Z) (w w' : world) : Prop :=
  acc ∈ interest w' ∧ count w' = count w + 1.

(** The value [recv] returns for the oracle's answer. *)
Definition read_result (o : oracle) : Z :=
  match recv_pending o with
  | None => -1
  | Some bytes => Z.of_nat (length (take BUFSZ bytes))
  end.

(** Teardown of [fd] between [w] and [w']: deregistered, the counter
    decremented, closed last. *)
Definition torn_down (fd : Z) (w w' : world) : Prop :=
  interest w' = interest w ∖ {[fd]}
  ∧ count w' = count w - 1
  ∧ ∃ pre, trace w' = trace w ++ pre ++ [Close fd].

(** Every registration, the counter and the trace are as they were. *)
Definition untouched (w w' : world) : Prop :=
  interest w' = interest w ∧ count w' = count w ∧ trace w' = trace w.

Definition slot_at (qi i : Z) (w : world) : option queue_data :=
  q ← nthZ (g_queue w) qi; nthZ (data q) i.

(** The bytes [recv] stored in an element. *)
Definition payload (e : queue_data) : list char :=
  take (Z.to_nat (len e)) (buf e).

Definition pointers (qi : Z) (w : world) : option (Z * Z) :=
  q ← nthZ (g_queue w) qi; Some (front q, last q).

Definition defined {A} (o : option A) : bool :=
  match o with Some _ => true | None => false end.

(** ** The ring as a queue *)

(** What the loop does to the queue of a connection when [recv] returned
    data: the element is stored at [last], and [last] advances. *)
Definition enqueue (e : queue_data) (q : queue) : queue :=
  {| front := front q; last := QUEUE_NEXT (last q);
     data := <[Z.to_nat (last q) := e]> (data q) |}.

(** What the sender does to its queue when it pops. *)
Definition dequeue (q : queue) : queue :=
  {| front := QUEUE_NEXT (front q); last := last q; data := data q |}.

(** The number of elements the sender will still pop. *)
Definition occupancy (q : queue) : Z := (last q - front q) mod MAXQUEUESZ.

(** The elements met from index [i] on, [n] of them, in ring order. *)
Fixpoint slots_from (d : list queue_data) (i : Z) (n : nat)
  : list queue_data :=
  match n with
  | O => []
  | S n' =>
      match nthZ d i with
      | Some e => e :: slots_from d (QUEUE_NEXT i) n'
      | None => []
      end
  end.

(** The elements the sender will pop, in the order it pops them. *)
Definition pending (q : queue) : list queue_data :=
  slots_from (data q) (front q) (Z.to_nat (occupancy q)).

(** Operations on one shard: the loop enqueues, the sender tries to pop. *)
Inductive ring_op :=
| Enq (e : queue_data)
| Deq.

(** The ring under a sequence of operations, with the elements popped. *)
Fixpoint ring_run (ops : list ring_op) (q : queue)
  : queue * list queue_data :=
  match ops with
  | [] => (q, [])
  | Enq e :: ops' => ring_run ops' (enqueue e q)
  | Deq :: ops' =>
      if negb (last q =? front q) then
        match nthZ (data q) (front q) with
        | Some e => let '(q', out) := ring_run ops' (dequeue q) in (q', e :: out)
        | None => (q, [])
        end
      else ring_run ops' q
  end.

(** The reference: an unbounded first-in first-out list. *)
Fixpoint fifo_run (ops : list ring_op) (l : list queue_data)
  : list queue_data * list queue_data :=
  match ops with
  | [] => (l, [])
  | Enq e :: ops' => fifo_run ops' (l ++ [e])
  | Deq :: ops' =>
      match l with
      | e :: l' => let '(l'', out) := fifo_run ops' l' in (l'', e :: out)
      | [] => fifo_run ops' l
      end
  end.

(** No element is enqueued while [MAXQUEUESZ - 1] are waiting. *)
Fixpoint never_full (ops : list ring_op) (waiting : Z) : Prop :=
  match ops with
  | [] => True
  | Enq _ :: ops' => waiting < MAXQUEUESZ - 1 ∧ never_full ops' (waiting + 1)
  | Deq :: ops' => never_full ops' (Z.max 0 (waiting - 1))
  end.

(** ** Scenarios *)

(** [accept] returns [acc] and the registration succeeds. *)
Definition incoming (soc acc : Z) : epoll_event :=
  Event soc {| accept_ret := acc; sys_errno := 0; recv_pending := None;
               ctl_ok := true |}.

(** [accept] returns [acc] and the registration that follows fails. *)
Definition unregistrable (soc acc : Z) : epoll_event :=
  Event soc {| accept_ret := acc; sys_errno := 0; recv_pending := None;
               ctl_ok := false |}.

(** [text] followed by [ending] is pending on [fd]. *)
Definition readable (fd : Z) (text : string) (ending : list char)
  : epoll_event :=
  Event fd {| accept_ret := 0; sys_errno := 0;
              recv_pending := Some (list_ascii_of_string text ++ ending);
              ctl_ok := true |}.

(** An interrupted [recv]: -1 with [errno = EINTR]. *)
Definition interrupted (fd : Z) : epoll_event :=
  Event fd {| accept_ret := 0; sys_errno := EINTR; recv_pending := None;
              ctl_ok := true |}.

Definition arrives (soc acc : Z) : step :=
  LoopTurn (WaitReady [incoming soc acc]).

Definition reads (fd : Z) (text : string) (ending : list char) : step :=
  LoopTurn (WaitReady [readable fd text ending]).

(** The state of [accept_loop 3] once connection 4 is registered. *)
Definition one_connection : world :=
  set_interest ({[4]} ∪ {[3]}) (0 + 1)
    (emit (Fprintf MsgAccept)
       (emit (Fprintf (MsgChildCount 0)) (init_world 3))).

(** Nineteen connections, descriptors 4 to 22, accepted one per turn. *)
Definition nineteen_arrivals : list step :=
  (λ a, arrives 3 a) <$> seqZ 4 19.

(** Connection 4 is registered and its request ["hello\r\n"] is queued. *)
Definition hello_queued : world :=
  default (init_world 3)
    (run 3 [arrives 3 4; reads 4 "hello" [CR; LF]] (init_world 3)).

Definition hello_send_failed : world :=
  default hello_queued (worker_respond 0 0 (-1) hello_queued).

(** A segment of exactly [sizeof(buf)] bytes. *)
Definition full_segment : list char := replicate BUFSZ "a"%char.

(** One request, then 4095 more on the same connection, none consumed. *)
Definition ring_filled : list step :=
  arrives 3 4 :: reads 4 "first" [] :: replicate 4095 (reads 4 "x" []).

(** Arithmetic modulo the constant ring size. *)
Ltac ring_lia :=
  unfold MAXQUEUESZ in *; Z.to_euclidean_division_equations; lia.

(** ** Vocabulary of the further properties *)

(** The answer [send_thread] gives to a stored payload. *)
Definition answer (request : list char) : list char :=
  take (BUFSZ - 1) (line_of request ++ OK_suffix).

(** The request an event brings on connection [fd], if any: what [recv]
    copies of the pending bytes. *)
Definition request_of (fd : Z) (ev : epoll_event) : option (list char) :=
  if data_fd ev =? fd then
    match recv_pending (answers ev) with
    | Some (c :: t) => Some (take BUFSZ (c :: t))
    | _ => None
    end
  else None.

(** An element of shard [qi] as [accept_loop] enqueues them. *)
Definition good_entry (qi : Z) (e : queue_data) : Prop :=
  Z.rem (acc e) MAXSENDER = qi
  ∧ 0 < len e <= Z.of_nat BUFSZ
  ∧ length (buf e) = BUFSZ.

(** The answers still owed to [fd] by the queue [q]. *)
Definition owed (fd : Z) (q : queue) : list (list char) :=
  (λ e, answer (payload e)) <$> filter (λ e, acc e = fd) (pending q).

(** A well-formed state in which 4095 elements wait in the queue of
    shard 0. *)
Definition brim_world : world :=
  {| g_queue := [ {| front := 1; last := 0;
                     data := replicate (Z.to_nat MAXQUEUESZ) zero_data |};
                  zero_queue ];
     interest := {[4]} ∪ {[3]}; count := 1; looping := true; trace := [] |}.

Definition brim_queue : queue :=
  {| front := 1; last := 0;
     data := replicate (Z.to_nat MAXQUEUESZ) zero_data |}.

(** End of file on a connection. *)
Definition hangup (fd : Z) : oracle :=
  {| accept_ret := 0; sys_errno := 0; recv_pending := Some [];
     ctl_ok := true |}.

(** Every ready descriptor is the listening socket or is non-negative. *)
Definition plausible (soc : Z) (r : epoll_wait_ret) : Prop :=
  match r with
  | WaitReady evs => Forall (λ ev, data_fd ev = soc ∨ 0 <= data_fd ev) evs
  | _ => True
  end.

Definition hello_answered : world :=
  default hello_queued (send_thread_turn 0 10 hello_queued).

(** The actions that end a descriptor. *)
Definition closes (a : action) : bool :=
  match a with
  | Close _ | CloseEpoll => true
  | _ => false
  end.



(** ** The two threads at the grain of their critical sections *)

(** Where [accept_loop] stands: before the events [evs] still to pass in
    the inner [for] (none: at [epoll_wait]), or, inside the pass of [ev],
    between the [recv] into [data[last]] and the [switch] on its [len]. *)
Inductive loop_pc :=
| Between (evs : list epoll_event)
| AtSwitch (ev : epoll_event) (evs : list epoll_event).

(** The state of the whole program: the shared memory, the point
    [accept_loop] has reached, and for each [send_thread] that has popped
    and not yet answered, its local [i]. A move takes one thread from one
    of these points to the next; moves of the two threads touch the same
    slot only when [last] has come round to an index a sender holds.
    [handled] lists the events whose pass is complete; the code does not
    read it. *)
Record machine := Machine {
  shared : world;
  loop_at : loop_pc;
  held : gmap Z Z;
  handled : list epoll_event
}.

Definition init_machine (soc : Z) : machine :=
  {| shared := init_world soc; loop_at := Between []; held := ∅;
     handled := [] |}.

(** [accept_loop] runs up to its next point; [r] is what [epoll_wait]
    returns if this move calls it. *)
Definition loop_move (soc : Z) (r : epoll_wait_ret) (s : machine)
  : option machine :=
  let w := shared s in
  if looping w then
    match loop_at s with
    | Between [] =>
        let w1 := emit (Fprintf (MsgChildCount (count w))) w in
        match r with
        | WaitError =>
            Some (Machine (emit (Perror "epoll_wait") w1) (Between [])
                    (held s) (handled s))
        | WaitTimeout => Some (Machine w1 (Between []) (held s) (handled s))
        | WaitReady evs => Some (Machine w1 (Between evs) (held s) (handled s))
        end
    | Between (ev :: evs) =>
        if data_fd ev =? soc then
          w' ← on_listen (answers ev) w;
          Some (Machine w' (Between evs) (held s) (handled s ++ [ev]))
        else
          w' ← conn_recv (data_fd ev) (answers ev) w;
          Some (Machine w' (AtSwitch ev evs) (held s) (handled s))
    | AtSwitch ev evs =>
        w' ← conn_switch (data_fd ev) (answers ev) w;
        Some (Machine w' (Between evs) (held s) (handled s ++ [ev]))
    end
  else Some s.

(** [send_thread qi] runs its next section: the pop under the mutex, or,
    when it holds an index, the work on that element; [send_ret] is what
    [send] returns if this move calls it. *)
Definition sender_move (qi : Z) (send_ret : Z) (s : machine)
  : option machine :=
  match held s !! qi with
  | None =>
      '(popped, w') ← worker_pop qi (shared s);
      Some (Machine w' (loop_at s)
              (match popped with
               | Some i => <[qi := i]> (held s)
               | None => held s
               end)
              (handled s))
  | Some i =>
      w' ← worker_respond qi i send_ret (shared s);
      Some (Machine w' (loop_at s) (delete qi (held s)) (handled s))
  end.

Inductive move :=
| LoopMove (r : epoll_wait_ret)
| SenderMove (qi : Z) (send_ret : Z).

Definition move_step (soc : Z) (m : move) (s : machine) : option machine :=
  match m with
  | LoopMove r => loop_move soc r s
  | SenderMove qi send_ret => sender_move qi send_ret s
  end.

Fixpoint moves (soc : Z) (ms : list move) (s : machine) : option machine :=
  match ms with
  | [] => Some s
  | m :: ms' => s' ← move_step soc m s; moves soc ms' s'
  end.

(** The events [accept_loop] has taken from [epoll_wait] and not yet
    passed. *)
Definition ahead (pc : loop_pc) : list epoll_event :=
  match pc with
  | Between evs => evs
  | AtSwitch ev evs => ev :: evs
  end.

(** What [accept_loop] stores in the slot at [last] for the answers [o],
    over a buffer that held [b0]. *)
Definition stored (fd : Z) (o : oracle) (b0 : list char) : queue_data :=
  {| acc := fd; buf := (recv (recv_pending o) b0 BUFSZ).1;
     len := (recv (recv_pending o) b0 BUFSZ).2 |}.

Definition holds (h : option Z) : Z :=
  match h with Some _ => 1 | None => 0 end.

(** A queue as [n] handled events can have left it, [h] being the index
    its sender holds: the ring has not come round, and the waiting and
    the held elements are reads of at most [b] bytes. *)
Definition queue_inv (b : Z) (n : nat) (h : option Z) (qi : Z) (q : queue)
  : Prop :=
  wf_queue q
  ∧ Forall (λ e, length (buf e) = BUFSZ) (data q)
  ∧ occupancy q + holds h <= Z.of_nat n
  ∧ Forall (λ e, good_entry qi e ∧ len e <= b) (pending q)
  ∧ ∀ i, h = Some i →
      0 <= i < MAXQUEUESZ ∧ QUEUE_NEXT i = front q
      ∧ ∃ e, nthZ (data q) i = Some e ∧ good_entry qi e ∧ len e <= b.

Definition machine_inv (b : Z) (soc : Z) (s : machine) : Prop :=
  length (g_queue (shared s)) = Z.to_nat MAXSENDER
  ∧ (∀ qi q, nthZ (g_queue (shared s)) qi = Some q →
       queue_inv b (length (handled s)) (held s !! qi) qi q)
  ∧ (∀ qi, is_Some (held s !! qi) → 0 <= qi < MAXSENDER)
  ∧ Forall (λ ev, data_fd ev ≠ soc → read_result (answers ev) <= b)
      (ahead (loop_at s))
  ∧ match loop_at s with
    | AtSwitch ev evs =>
        data_fd ev ≠ soc
        ∧ ∃ q b0,
            nthZ (g_queue (shared s)) (Z.rem (data_fd ev) MAXSENDER) = Some q
            ∧ length b0 = BUFSZ
            ∧ nthZ (data q) (last q)
              = Some (stored (data_fd ev) (answers ev) b0)
    | Between _ => True
    end.

(** The events the answers of [epoll_wait] in [ms] bring. *)
Fixpoint supplied (ms : list move) : list epoll_event :=
  match ms with
  | [] => []
  | LoopMove (WaitReady evs) :: ms' => evs ++ supplied ms'
  | _ :: ms' => supplied ms'
  end.

(** The descriptors and queue numbers of a move are those the program
    can meet. *)
Definition move_in_range (soc : Z) (m : move) : Prop :=
  match m with
  | LoopMove r => plausible soc r
  | SenderMove qi _ => 0 <= qi < MAXSENDER
  end.

(** The read the event announces returns fewer than [BUFSZ] bytes. *)
Definition short_read (soc : Z) (ev : epoll_event) : Prop :=
  data_fd ev ≠ soc → read_result (answers ev) <= Z.of_nat BUFSZ - 1.

(** The answer owed to [fd] by the element its shard's sender holds. *)
Definition held_owed (fd : Z) (s : machine) : list (list char) :=
  match held s !! Z.rem fd MAXSENDER with
  | Some i =>
      match slot_at (Z.rem fd MAXSENDER) i (shared s) with
      | Some e => if decide (acc e = fd) then [answer (payload e)] else []
      | None => []
      end
  | None => []
  end.

(** What has been sent on a descriptor, then what the sender holds for
    it, then what waits for it, are the answers to the requests read on
    it, in the order they were read. *)
Definition order_inv (soc : Z) (s : machine) : Prop :=
  ∀ fd q, 0 <= fd → fd ≠ soc →
    nthZ (g_queue (shared s)) (Z.rem fd MAXSENDER) = Some q →
    sent_on fd (trace (shared s)) ++ held_owed fd s ++ owed fd q
    = answer <$> omap (request_of fd) (handled s).

(** No element that carries the number [fd] waits in the queue of its
    shard or is held by the sender of the shard. *)
Definition nothing_owed (fd : Z) (s : machine) : Prop :=
  held_owed fd s = []
  ∧ ∀ q, nthZ (g_queue (shared s)) (Z.rem fd MAXSENDER) = Some q →
         owed fd q = [].

(** The moves of [accept_loop] through a turn in which [epoll_wait]
    returns the one event [ev]: the wait, then the pass of [ev]. *)
Definition loop_pass (soc : Z) (ev : epoll_event) : list move :=
  LoopMove (WaitReady [ev])
  :: (if data_fd ev =? soc then [LoopMove WaitTimeout]
      else [LoopMove WaitTimeout; LoopMove WaitTimeout]).

(** Connections 4 and 6 are accepted and 4 sends a request; the sender
    of shard 0 pops it and is preempted; 4095 requests of connection 6
    bring [last] round to the popped slot; a [recv] on connection 4
    fails. Every read returns fewer than [BUFSZ] bytes. *)
Definition preempted_sender : list move :=
  loop_pass 3 (incoming 3 4) ++ loop_pass 3 (incoming 3 6)
  ++ loop_pass 3 (readable 4 "one" [])
  ++ [SenderMove 0 10]
  ++ mjoin (replicate 4095 (loop_pass 3 (readable 6 "x" [])))
  ++ loop_pass 3 (interrupted 4).

(** Connection 4 is accepted, sends a request that is answered, and
    closes: an earlier user of the descriptor number 4. *)
Definition first_user : list move :=
  loop_pass 3 (incoming 3 4) ++ loop_pass 3 (readable 4 "one" [CR; LF])
  ++ [SenderMove 0 10; SenderMove 0 10]
  ++ loop_pass 3 (Event 4 (hangup 4)).

(** The next connection is accepted as descriptor 4 and sends two
    requests; the sender is preempted while it holds the first one, and
    resumes after the second has been read. *)
Definition second_user : list move :=
  loop_pass 3 (incoming 3 4) ++ loop_pass 3 (readable 4 "two" [CR; LF])
  ++ [SenderMove 0 10]
  ++ loop_pass 3 (readable 4 "three" [CR; LF])
  ++ [SenderMove 0 10].

Definition first_user_gone : machine :=
  default (init_machine 3) (moves 3 first_user (init_machine 3)).

Definition second_user_served : machine :=
  default first_user_gone (moves 3 second_user first_user_gone).

(** ** server_socket *)

(** The values of the calls [server_socket] makes, in the order it makes
    them. *)
Record setup_oracle := SetupOracle {
  getaddrinfo_ret : Z;
  getnameinfo_ret : Z;
  socket_ret : Z;
  setsockopt_ret : Z;
  bind_ret : Z;
  listen_ret : Z
}.

Inductive setup_action :=
| SetupStderr (what : string)
| SetupPerror (what : string)
| SetupClose (fd : Z)
| Freeaddrinfo.

(** [server_socket(portnm)]: the value returned and what was done on the
    way. *)
Definition server_socket (o : setup_oracle) : Z * list setup_action :=
  if negb (getaddrinfo_ret o =? 0) then (-1, [SetupStderr "getaddrinfo"])
  else if negb (getnameinfo_ret o =? 0) then
    (-1, [SetupStderr "getnameinfo"; Freeaddrinfo])
  else
    let soc := socket_ret o in
    if soc =? -1 then
      (-1, [SetupStderr "port"; SetupPerror "socket"; Freeaddrinfo])
    else if setsockopt_ret o =? -1 then
      (-1, [SetupStderr "port"; SetupPerror "setsockopt"; SetupClose soc;
            Freeaddrinfo])
    else if bind_ret o =? -1 then
      (-1, [SetupStderr "port"; SetupPerror "bind"; SetupClose soc;
            Freeaddrinfo])
    else if listen_ret o =? -1 then
      (-1, [SetupStderr "port"; SetupPerror "listen"; SetupClose soc;
            Freeaddrinfo])
    else (soc, [SetupStderr "port"; Freeaddrinfo]).

(** Every call of [server_socket] succeeds. *)
Definition setup_ok (o : setup_oracle) : Prop :=
  getaddrinfo_ret o = 0 ∧ getnameinfo_ret o = 0 ∧ socket_ret o ≠ -1
  ∧ setsockopt_ret o ≠ -1 ∧ bind_ret o ≠ -1 ∧ listen_ret o ≠ -1.

(** [socket] was reached and gave a descriptor. *)
Definition socket_made (o : setup_oracle) : Prop :=
  getaddrinfo_ret o = 0 ∧ getnameinfo_ret o = 0 ∧ socket_ret o ≠ -1.

(** The descriptors closed, in order. *)
Fixpoint setup_closed (t : list setup_action) : list Z :=
  match t with
  | [] => []
  | SetupClose fd :: t' => fd :: setup_closed t'
  | _ :: t' => setup_closed t'
  end.

(** The number of calls of [freeaddrinfo]. *)
Fixpoint setup_freed (t : list setup_action) : nat :=
  match t with
  | [] => 0
  | Freeaddrinfo :: t' => S (setup_freed t')
  | _ :: t' => setup_freed t'
  end.

(** ** The telnet client that follows server9 in the file *)

Module Telnet.

(** [IAC] and [WONT] of [<arpa/telnet.h>]. *)
Definition IAC : Z := 255.
Definition WONT : Z := 252.

(** What one [recv(g_soc, &c, 1, 0)] gives: a byte, end of file (0), or
    an error (-1). *)
Inductive recv1 :=
| Got (byte : Z)
| Eof
| Err.

(** The value of a signed [char] that holds the byte [b]. *)
Definition char_of_byte (b : Z) : Z := if b <? 128 then b else b - 256.

(** The byte an [int] argument of [%c] or of [fputc] is written as. *)
Definition byte_of_int (c : Z) : Z := c mod 256.

(** [recv] into [c]: the value returned and the new [c]. *)
Definition recv_char (r : recv1) (c : Z) : Z * Z :=
  match r with
  | Got b => (1, char_of_byte b)
  | Eof => (0, c)
  | Err => (-1, c)
  end.

Inductive telnet_action :=
| TelPerror (what : string)
| TelSend (bytes : list Z)
| TelPutc (byte : Z).

(** [recv_data()]: [c0] is the indeterminate initial value of [c]; [r1],
    [r2], [r3] answer the calls of [recv] and [send_ret] the call of
    [send]. *)
Definition recv_data (c0 : Z) (r1 r2 r3 : recv1) (send_ret : Z)
  : Z * list telnet_action :=
  let '(n1, c) := recv_char r1 c0 in
  if n1 <=? 0 then (-1, [])
  else if Z.land c 255 =? IAC then
    let '(n2, c) := recv_char r2 c in
    if n2 =? -1 then (-1, [TelPerror "recv"])
    else
      let '(n3, c) := recv_char r3 c in
      if n3 =? -1 then (-1, [TelPerror "recv"])
      else
        let reply :=
          TelSend [byte_of_int IAC; byte_of_int WONT; byte_of_int c] in
        if send_ret =? -1 then (-1, [reply; TelPerror "send"])
        else (0, [reply])
  else (0, [TelPutc (byte_of_int (Z.land c 255))]).

Definition is_byte (b : Z) : Prop := 0 <= b < 256.

(** The answer [r] of a [recv] is 0, -1, or one byte. *)
Definition recv1_ok (r : recv1) : Prop :=
  match r with Got b => is_byte b | _ => True end.

(** The byte in [c] after the three reads of a command. *)
Definition option_byte (r2 r3 : recv1) : Z :=
  match r3 with
  | Got opt => opt
  | _ => match r2 with Got cmd => cmd | _ => IAC end
  end.

(** The values of the calls [client_socket] makes. *)
Record connect_oracle := ConnectOracle {
  c_getaddrinfo_ret : Z;
  c_getnameinfo_ret : Z;
  c_socket_ret : Z;
  connect_ret : Z
}.

(** [client_socket(hostnm, portnm)]. *)
Definition client_socket (o : connect_oracle) : Z * list setup_action :=
  if negb (c_getaddrinfo_ret o =? 0) then (-1, [SetupStderr "getaddrinfo"])
  else if negb (c_getnameinfo_ret o =? 0) then
    (-1, [SetupStderr "getnameinfo"; Freeaddrinfo])
  else
    let soc := c_socket_ret o in
    if soc =? -1 then
      (-1, [SetupStderr "addr"; SetupStderr "port"; SetupPerror "socket";
            Freeaddrinfo])
    else if connect_ret o =? -1 then
      (-1, [SetupStderr "addr"; SetupStderr "port"; SetupPerror "connect";
            SetupClose soc; Freeaddrinfo])
    else (soc, [SetupStderr "addr"; SetupStderr "port"; Freeaddrinfo]).

End Telnet.

Import Telnet.

(** * Proofs *)

(** ** C strings *)

(** ** C strings *)

Section CStrFacts.

Local Open Scope nat_scope.

Lemma is_nul_NUL : is_nul NUL = true.
Proof. reflexivity. Qed.

Lemma is_nul_true c : is_nul c = true ↔ c = NUL.
Proof. unfold is_nul. apply Ascii.eqb_eq. Qed.

Lemma nonul_cstr b : nonul (cstr b).
Proof.
  induction b as [|c b IH]; simpl; [constructor|].
  destruct (is_nul c) eqn:E; constructor; auto.
Qed.

Lemma cstr_app_nul s r : nonul s → cstr (s ++ NUL :: r) = s.
Proof.
  induction 1 as [|c s Hc _ IH]; simpl; [reflexivity|].
  rewrite Hc. f_equal. exact IH.
Qed.

Lemma strlen_app_nul s r : nonul s → strlen (s ++ NUL :: r) = Some (length s).
Proof.
  induction 1 as [|c s Hc _ IH]; simpl; [reflexivity|].
  rewrite Hc, IH. reflexivity.
Qed.

(** An array on which [strlen] is defined splits at its terminator. *)
Lemma strlen_split b n :
  strlen b = Some n → ∃ r, b = cstr b ++ NUL :: r ∧ length (cstr b) = n.
Proof.
  revert n. induction b as [|c b IH]; intros n; simpl; [discriminate|].
  destruct (is_nul c) eqn:E.
  - intros [= <-]. apply is_nul_true in E as ->. eexists; split; reflexivity.
  - destruct (strlen b) as [k|]; [|discriminate].
    intros [= <-]. destruct (IH k eq_refl) as (r & Hb & Hl).
    exists r. simpl. split; [f_equal; exact Hb | f_equal; exact Hl].
Qed.

Lemma nonul_take n s : nonul s → nonul (take n s).
Proof. apply Forall_take. Qed.

Lemma scan_dst_spec d : ∀ pre r lest,
  nonul d → length d ≤ lest →
  scan_dst (pre ++ d ++ NUL :: r) (length pre) lest
  = Some (length pre + length d).
Proof.
  induction d as [|c d IH]; intros pre r lest Hd Hle; simpl in *.
  - destruct lest; simpl; rewrite list_lookup_middle by reflexivity;
      simpl; f_equal; lia.
  - inversion Hd as [|? ? Hc Hd']; subst.
    destruct lest as [|lest]; [lia|]. simpl.
    rewrite list_lookup_middle by reflexivity. rewrite Hc.
    replace (pre ++ c :: d ++ NUL :: r) with ((pre ++ [c]) ++ d ++ NUL :: r)
      by (rewrite <- app_assoc; reflexivity).
    replace (S (length pre)) with (length (pre ++ [c]))
      by (rewrite length_app; simpl; lia).
    rewrite IH by (auto; lia). rewrite length_app. simpl. f_equal. lia.
Qed.

Lemma copy_src_spec t : ∀ fuel pre rest s0 r pde,
  nonul t →
  pde < length (pre ++ rest) →
  pde - length pre ≤ fuel →
  copy_src fuel (pre ++ rest) (s0 ++ t ++ NUL :: r) (length pre) (length s0) pde
  = Some (pre ++ take (pde - length pre) t
              ++ drop (min (length t) (pde - length pre)) rest,
          length pre + min (length t) (pde - length pre),
          length s0 + min (length t) (pde - length pre)).
Proof.
  induction t as [|c t IH]; intros fuel pre rest s0 r pde Ht Hpde Hfuel.
  - destruct fuel; simpl; rewrite list_lookup_middle by reflexivity; simpl;
      rewrite take_nil; simpl; repeat f_equal; lia.
  - inversion Ht as [|? ? Hc Ht']; subst.
    assert (Hsrc : (s0 ++ (c :: t) ++ NUL :: r) !! length s0 = Some c)
      by (apply list_lookup_middle; reflexivity).
    destruct (Nat.ltb_spec (length pre) pde) as [Hlt|Hge].
    + destruct fuel as [|fuel]; [lia|].
      simpl. simpl in Hsrc. rewrite Hsrc, Hc. simpl.
      destruct (Nat.ltb_spec (length pre) pde) as [_|?]; [|lia].
      rewrite length_app in Hpde.
      destruct rest as [|x rest]; [simpl in Hpde; lia|].
      destruct (Nat.ltb_spec (length pre) (length (pre ++ x :: rest)))
        as [_|Hbad]; [|rewrite length_app in Hbad; simpl in Hbad; lia].
      replace (<[length pre := c]> (pre ++ x :: rest))
        with ((pre ++ [c]) ++ rest).
      2:{ rewrite <- (Nat.add_0_r (length pre)) at 1.
          rewrite insert_app_r. simpl. rewrite <- app_assoc. reflexivity. }
      replace (s0 ++ c :: t ++ NUL :: r) with ((s0 ++ [c]) ++ t ++ NUL :: r)
        by (rewrite <- app_assoc; reflexivity).
      replace (S (length pre)) with (length (pre ++ [c]))
        by (rewrite length_app; simpl; lia).
      replace (S (length s0)) with (length (s0 ++ [c]))
        by (rewrite length_app; simpl; lia).
      rewrite IH; auto.
      2:{ rewrite !length_app in *. simpl in *. lia. }
      2:{ rewrite length_app. simpl. lia. }
      rewrite !length_app. simpl.
      replace (pde - length pre) with (S (pde - (length pre + 1))) by lia.
      simpl. rewrite <- !app_assoc. simpl.
      f_equal. f_equal; [f_equal|]; lia.
    + replace (pde - length pre) with 0 by lia.
      rewrite Nat.min_0_r, !Nat.add_0_r.
      destruct fuel; simpl; simpl in Hsrc; rewrite Hsrc, Hc; simpl;
        (destruct (Nat.ltb_spec (length pre) pde) as [?|_]; [lia|]);
        reflexivity.
Qed.

Lemma fill_nul_spec k : ∀ fuel pre rest pde,
  k = S pde - length pre →
  length pre ≤ S pde →
  pde < length (pre ++ rest) →
  k ≤ fuel →
  fill_nul fuel (pre ++ rest) (length pre) pde
  = Some (pre ++ replicate k NUL ++ drop k rest).
Proof.
  induction k as [|k IH]; intros fuel pre rest pde Hk Hpre Hpde Hfuel.
  - assert (length pre = S pde) as E by lia.
    destruct fuel; simpl;
      (destruct (Nat.leb_spec (length pre) pde) as [?|_]; [lia|]);
      reflexivity.
  - destruct fuel as [|fuel]; [lia|]. simpl.
    destruct (Nat.leb_spec (length pre) pde) as [_|?]; [|lia].
    rewrite length_app in Hpde.
    destruct rest as [|x rest]; [simpl in Hpde; lia|].
    destruct (Nat.ltb_spec (length pre) (length (pre ++ x :: rest)))
      as [_|Hbad]; [|rewrite length_app in Hbad; simpl in Hbad; lia].
    replace (<[length pre := NUL]> (pre ++ x :: rest))
      with ((pre ++ [NUL]) ++ rest).
    2:{ rewrite <- (Nat.add_0_r (length pre)) at 1.
        rewrite insert_app_r. simpl. rewrite <- app_assoc. reflexivity. }
    replace (S (length pre)) with (length (pre ++ [NUL]))
      by (rewrite length_app; simpl; lia).
    rewrite (IH fuel (pre ++ [NUL]) rest pde).
    + rewrite <- app_assoc. reflexivity.
    + rewrite length_app. simpl. lia.
    + rewrite length_app. simpl. lia.
    + rewrite !length_app. simpl in *. lia.
    + lia.
Qed.

Lemma skip_src_spec t : ∀ fuel s0 r,
  nonul t → length t ≤ fuel →
  skip_src fuel (s0 ++ t ++ NUL :: r) (length s0)
  = Some (S (length s0 + length t)).
Proof.
  induction t as [|c t IH]; intros fuel s0 r Ht Hfuel.
  - destruct fuel; simpl; rewrite list_lookup_middle by reflexivity; simpl;
      f_equal; lia.
  - inversion Ht as [|? ? Hc Ht']; subst.
    destruct fuel as [|fuel]; [simpl in Hfuel; lia|].
    simpl. rewrite list_lookup_middle by reflexivity. rewrite Hc.
    replace (s0 ++ c :: t ++ NUL :: r) with ((s0 ++ [c]) ++ t ++ NUL :: r)
      by (rewrite <- app_assoc; reflexivity).
    replace (S (length s0)) with (length (s0 ++ [c]))
      by (rewrite length_app; simpl; lia).
    rewrite IH; auto.
    + rewrite length_app. simpl. f_equal. lia.
    + simpl in Hfuel. lia.
Qed.

End CStrFacts.

Section Strlcat.
Local Open Scope nat_scope.

Lemma mystrlcat_app d r s r' size :
  nonul d → nonul s →
  length d < size → size ≤ length (d ++ NUL :: r) →
  mystrlcat (d ++ NUL :: r) (s ++ NUL :: r') size
  = Some (strlcat_result d s size ++ drop size (d ++ NUL :: r),
          size_t (Z.of_nat (length d) + Z.of_nat (length s))).
Proof.
  intros Hd Hs Hlt Hsize. unfold mystrlcat.
  pose proof (scan_dst_spec d [] r size Hd ltac:(lia)) as Hscan.
  simpl in Hscan. rewrite Hscan. simpl.
  destruct (Nat.eqb_spec (size - length d) 0) as [?|_]; [lia|].
  set (pde := size - 1).
  pose proof (copy_src_spec s (pde - length d) d (NUL :: r) [] r' pde Hs) as Hcopy.
  simpl in Hcopy. rewrite Hcopy by (subst pde; lia). clear Hcopy. simpl.
  set (m := length s `min` (pde - length d)).
  assert (Hlen : length (d ++ take (pde - length d) s) = length d + m).
  { rewrite length_app, length_take. subst m. lia. }
  rewrite (app_assoc d), <- Hlen.
  rewrite (fill_nul_spec _ _ _ _ _ eq_refl).
  2:{ rewrite Hlen. subst m pde. lia. }
  2:{ rewrite length_app, Hlen, length_drop. simpl. rewrite length_app in Hsize.
      simpl in Hsize. subst m pde. lia. }
  2:{ reflexivity. }
  rewrite Hlen. simpl.
  pose proof (skip_src_spec (drop m s) (length (s ++ NUL :: r')) (take m s) r'
                (Forall_drop _ _ _ Hs)) as Hskip.
  rewrite app_assoc, take_drop in Hskip.
  rewrite length_take, length_drop in Hskip.
  replace (length s `min` length s) with (length s) in Hskip by lia.
  assert (Hm : m `min` length s = m) by (subst m; lia).
  rewrite Hm in Hskip. rewrite Hskip.
  2:{ rewrite length_app. lia. }
  simpl. f_equal. f_equal.
  - unfold strlcat_result. fold pde.
    rewrite take_app, (take_ge d) by (subst pde; lia).
    rewrite <- !app_assoc. f_equal. f_equal.
    rewrite drop_drop, length_app, length_take.
    rewrite (drop_app_ge d) by lia.
    f_equal; [f_equal|f_equal]; subst m pde; lia.
  - f_equal. f_equal. f_equal. lia.
Qed.

End Strlcat.

Section LineFacts.
Local Open Scope nat_scope.

Lemma strlcat_result_length d s size :
  0 < size → length (strlcat_result d s size) = size.
Proof.
  intros Hsz. unfold strlcat_result.
  rewrite length_app, length_replicate, length_take. lia.
Qed.

Lemma strlcat_result_split d s size :
  0 < size →
  ∃ k, strlcat_result d s size
       = take (size - 1) (d ++ s) ++ NUL :: replicate k NUL.
Proof.
  intros Hsz. unfold strlcat_result.
  pose proof (length_take (d ++ s) (size - 1)) as Hl.
  destruct (size - length (take (size - 1) (d ++ s))) as [|k] eqn:E; [lia|].
  exists k. reflexivity.
Qed.

Lemma nonul_line_of bytes : nonul (line_of bytes).
Proof.
  induction bytes as [|c t IH]; simpl; [constructor|].
  destruct (is_nul c) eqn:E; simpl; [constructor|].
  destruct (Ascii.eqb c CR || (Ascii.eqb c LF || false)); constructor; auto.
Qed.

Lemma length_line_of bytes : length (line_of bytes) ≤ length bytes.
Proof.
  induction bytes as [|c t IH]; simpl; [lia|].
  destruct (is_nul c || _); simpl; lia.
Qed.

Lemma strpbrk_from_line bytes : ∀ i rest,
  (strpbrk_from i (bytes ++ NUL :: rest) [CR; LF] = Some None
   ∧ ∃ r2, bytes ++ NUL :: rest = line_of bytes ++ NUL :: r2)
  ∨ (strpbrk_from i (bytes ++ NUL :: rest) [CR; LF]
       = Some (Some (i + length (line_of bytes)))
     ∧ ∃ c r2, bytes ++ NUL :: rest = line_of bytes ++ c :: r2).
Proof.
  induction bytes as [|c t IH]; intros i rest; simpl.
  - left. split; [reflexivity|]. exists rest. reflexivity.
  - destruct (is_nul c) eqn:E; simpl.
    + left. split; [reflexivity|]. apply is_nul_true in E as ->.
      eexists. reflexivity.
    + destruct (Ascii.eqb c CR || (Ascii.eqb c LF || false)) eqn:Em.
      * right. split; [f_equal; f_equal; simpl; lia|]. eauto.
      * destruct (IH (S i) rest) as [[-> [r2 Hr]]|[-> (c' & r2 & Hr)]].
        -- left. split; [reflexivity|]. exists r2. simpl. f_equal. exact Hr.
        -- right. split; [f_equal; f_equal; simpl; lia|].
           exists c', r2. simpl. f_equal. exact Hr.
Qed.

Lemma cut_line_spec bytes rest :
  ∃ r2, cut_line (bytes ++ NUL :: rest) = Some (line_of bytes ++ NUL :: r2)
        ∧ length (line_of bytes ++ NUL :: r2) = length (bytes ++ NUL :: rest).
Proof.
  unfold cut_line, strpbrk.
  destruct (strpbrk_from_line bytes 0 rest) as [[-> [r2 Hr]]|[-> (c & r2 & Hr)]];
    simpl; exists r2.
  - rewrite Hr. auto.
  - rewrite Hr. split.
    + f_equal. rewrite <- (Nat.add_0_r (length (line_of bytes))) at 1.
      rewrite insert_app_r. reflexivity.
    + rewrite !length_app. reflexivity.
Qed.

End LineFacts.

Section RespondSpec.
Local Open Scope Z_scope.

Lemma storeZ_nat {A} (l : list A) (n : nat) (x : A) :
  (n < length l)%nat → storeZ l (Z.of_nat n) x = Some (<[n := x]> l).
Proof.
  intros Hn. unfold storeZ.
  destruct (Z.leb_spec 0 (Z.of_nat n)); [|lia].
  destruct (Z.ltb_spec (Z.of_nat n) (Z.of_nat (length l))); [|lia].
  simpl. rewrite Nat2Z.id. reflexivity.
Qed.

Lemma nthZ_nat {A} (l : list A) (n : nat) : nthZ l (Z.of_nat n) = l !! n.
Proof.
  unfold nthZ. destruct (Z.ltb_spec (Z.of_nat n) 0); [lia|].
  rewrite Nat2Z.id. reflexivity.
Qed.

Lemma insert_middle {A} (pre : list A) x y rest :
  <[length pre := y]> (pre ++ x :: rest) = pre ++ y :: rest.
Proof.
  rewrite <- (Nat.add_0_r (length pre)). rewrite insert_app_r. reflexivity.
Qed.

(** [respond] on an element whose first [length bytes] characters are
    [bytes] and whose [len] says so. *)
Lemma respond_spec fd bytes tail send_ret :
  (length bytes + length tail = BUFSZ)%nat → tail ≠ [] →
  ∃ e',
    respond {| acc := fd; buf := bytes ++ tail;
               len := Z.of_nat (length bytes) |} send_ret
    = Some (e',
            Fprintf (MsgChild fd (line_of bytes))
              :: Send fd (take (BUFSZ - 1) (line_of bytes ++ OK_suffix))
              :: (if send_ret =? -1 then [Perror "send"] else []))
    ∧ acc e' = fd ∧ length (buf e') = BUFSZ.
Proof.
  intros Hlen Htail. destruct tail as [|x rest]; [congruence|]. clear Htail.
  simpl in Hlen. unfold respond. cbn [acc buf len].
  rewrite storeZ_nat by (rewrite length_app; simpl; lia).
  cbn [mbind option_bind].
  rewrite insert_middle.
  destruct (cut_line_spec bytes rest) as (r2 & Hcut & Hl2).
  unfold cut_line in Hcut.
  destruct (strpbrk (bytes ++ NUL :: rest) [CR; LF]) as [ptr|];
    [|discriminate].
  cbn [mbind option_bind] in Hcut |- *. injection Hcut as ->.
  rewrite cstr_app_nul by apply nonul_line_of.
  pose proof (length_line_of bytes) as Hline.
  rewrite !length_app in Hl2. simpl in Hl2.
  change OK_CRLF with (OK_suffix ++ NUL :: []).
  rewrite mystrlcat_app.
  2:{ apply nonul_line_of. }
  2:{ repeat constructor. }
  2:{ unfold BUFSZ in *. lia. }
  2:{ rewrite length_app. simpl. unfold BUFSZ in *. lia. }
  cbn [mbind option_bind].
  rewrite drop_ge by (rewrite length_app; simpl; unfold BUFSZ in *; lia).
  rewrite app_nil_r.
  destruct (strlcat_result_split (line_of bytes) OK_suffix BUFSZ) as [k Hk];
    [unfold BUFSZ; lia|].
  rewrite Hk.
  rewrite strlen_app_nul
    by (apply nonul_take, Forall_app; split;
        [apply nonul_line_of | repeat constructor]).
  cbn [mbind option_bind].
  rewrite take_app_length.
  eexists. split; [|split].
  - f_equal. f_equal. destruct (send_ret =? -1); reflexivity.
  - reflexivity.
  - cbn [buf]. rewrite <- Hk. apply strlcat_result_length. unfold BUFSZ. lia.
Qed.

End RespondSpec.

(** ** The state and its invariants *)

Section WorldFacts.

Lemma storeZ_Some {A} (l : list A) i x :
  0 <= i < Z.of_nat (length l) →
  storeZ l i x = Some (<[Z.to_nat i := x]> l).
Proof.
  intros [H0 H1]. unfold storeZ.
  destruct (Z.leb_spec 0 i); [|lia].
  destruct (Z.ltb_spec i (Z.of_nat (length l))); [|lia]. reflexivity.
Qed.

Lemma nthZ_Some {A} (l : list A) i :
  0 <= i < Z.of_nat (length l) → ∃ x, nthZ l i = Some x.
Proof.
  intros [H0 H1]. unfold nthZ. destruct (Z.ltb_spec i 0); [lia|].
  apply lookup_lt_is_Some. lia.
Qed.

Lemma nthZ_insert_eq {A} (l : list A) i x :
  0 <= i < Z.of_nat (length l) → nthZ (<[Z.to_nat i := x]> l) i = Some x.
Proof.
  intros [H0 H1]. unfold nthZ. destruct (Z.ltb_spec i 0); [lia|].
  apply list_lookup_insert_eq. lia.
Qed.

Lemma nthZ_wf (l : list queue) i q :
  Forall wf_queue l → nthZ l i = Some q → wf_queue q.
Proof.
  intros Hl. unfold nthZ. destruct (i <? 0); [discriminate|].
  intros Hq. eapply Forall_lookup_1; eauto.
Qed.

Lemma shard_range fd : 0 <= fd → 0 <= Z.rem fd MAXSENDER < MAXSENDER.
Proof. intros. apply Z.rem_bound_pos; unfold MAXSENDER; lia. Qed.

Lemma QUEUE_NEXT_range i :
  0 <= i < MAXQUEUESZ → 0 <= QUEUE_NEXT i < MAXQUEUESZ.
Proof.
  intros. unfold QUEUE_NEXT. apply Z.rem_bound_pos; unfold MAXQUEUESZ in *; lia.
Qed.

Lemma wf_init soc : wf_world (init_world soc).
Proof.
  split; [reflexivity|].
  change (Forall wf_queue (replicate (Z.to_nat MAXSENDER) zero_queue)).
  apply Forall_replicate. unfold wf_queue, zero_queue. cbn [front last data].
  rewrite length_replicate. unfold MAXQUEUESZ. lia.
Qed.

(** The whole effect of the connection branch on a well-formed state. *)
Lemma on_conn_spec fd o w :
  wf_world w → 0 <= Z.rem fd MAXSENDER →
  ∃ q slot,
    nthZ (g_queue w) (Z.rem fd MAXSENDER) = Some q
    ∧ nthZ (data q) (last q) = Some slot
    ∧ on_conn fd o w =
      Some (let '(b, n) := recv (recv_pending o) (buf slot) BUFSZ in
            let slots := <[Z.to_nat (last q) :=
                             {| acc := fd; buf := b; len := n |}]> (data q) in
            let put l :=
              set_queues
                (<[Z.to_nat (Z.rem fd MAXSENDER) :=
                     {| front := front q; last := l; data := slots |}]>
                   (g_queue w)) w in
            if n =? -1 then teardown fd o (emit (Perror "recv") (put (last q)))
            else if n =? 0 then teardown fd o (put (last q))
            else put (QUEUE_NEXT (last q))).
Proof.
  intros [Hlen Hqs] Hfd.
  assert (Hqi' : 0 <= Z.rem fd MAXSENDER < Z.of_nat (length (g_queue w))).
  { rewrite Hlen. pose proof (Z.rem_bound_abs fd MAXSENDER).
    unfold MAXSENDER in *. lia. }
  destruct (nthZ_Some _ _ Hqi') as [q Hq].
  pose proof (nthZ_wf _ _ _ Hqs Hq) as (Hf & Hl & Hd).
  assert (Hl' : 0 <= last q < Z.of_nat (length (data q)))
    by (rewrite Hd; unfold MAXQUEUESZ in *; lia).
  destruct (nthZ_Some _ _ Hl') as [slot Hslot].
  exists q, slot. split; [exact Hq|]. split; [exact Hslot|].
  unfold on_conn, conn_recv. rewrite Hq. cbn [mbind option_bind].
  rewrite Hslot. cbn [mbind option_bind].
  destruct (recv (recv_pending o) (buf slot) BUFSZ) as [b n].
  rewrite (storeZ_Some (data q)) by exact Hl'. cbn [mbind option_bind].
  rewrite (storeZ_Some (g_queue w)) by exact Hqi'. cbn [mbind option_bind].
  unfold conn_switch. cbn [g_queue set_queues].
  rewrite nthZ_insert_eq by exact Hqi'. cbn [mbind option_bind data last front].
  rewrite nthZ_insert_eq by exact Hl'. cbn [mbind option_bind len].
  destruct (n =? -1); [reflexivity|]. destruct (n =? 0); [reflexivity|].
  rewrite storeZ_Some by (rewrite length_insert; exact Hqi').
  cbn [mbind option_bind]. rewrite list_insert_insert_eq. reflexivity.
Qed.

End WorldFacts.

Section Frames.

(** What each piece of the loop leaves alone. *)

Lemma teardown_queues fd o w : g_queue (teardown fd o w) = g_queue w.
Proof.
  unfold teardown. destruct (epoll_ctl_del _ _ _); reflexivity.
Qed.

Lemma wf_world_queues w w' :
  g_queue w' = g_queue w → wf_world w → wf_world w'.
Proof. unfold wf_world. intros ->. auto. Qed.

Lemma wf_world_insert w qi q :
  wf_world w → wf_queue q →
  wf_world (set_queues (<[qi := q]> (g_queue w)) w).
Proof.
  intros [Hlen Hqs] Hq. split; cbn [g_queue set_queues].
  - rewrite length_insert. exact Hlen.
  - apply Forall_insert; assumption.
Qed.

Lemma on_listen_queues o w w' :
  on_listen o w = Some w' → g_queue w' = g_queue w.
Proof.
  unfold on_listen. intros H.
  repeat (case_match; simplify_eq); reflexivity.
Qed.

Lemma on_conn_wf fd o w w' :
  wf_world w → on_conn fd o w = Some w' → wf_world w'.
Proof.
  intros Hwf H.
  destruct (Z.ltb_spec (Z.rem fd MAXSENDER) 0) as [Hneg|Hfd].
  { unfold on_conn, conn_recv, nthZ in H.
    destruct (Z.ltb_spec (Z.rem fd MAXSENDER) 0); [discriminate|lia]. }
  destruct (on_conn_spec fd o w Hwf Hfd) as (q & slot & Hq & Hslot & Hspec).
  rewrite Hspec in H. clear Hspec. injection H as <-.
  destruct Hwf as [Hlen Hqs].
  pose proof (nthZ_wf _ _ _ Hqs Hq) as (Hf & Hl & Hd).
  destruct (recv _ _ _) as [b n]. cbv zeta.
  assert (Hput : ∀ l, 0 <= l < MAXQUEUESZ →
    wf_world (set_queues
      (<[Z.to_nat (Z.rem fd MAXSENDER) :=
           {| front := front q; last := l;
              data := <[Z.to_nat (last q) :=
                          {| acc := fd; buf := b; len := n |}]> (data q) |}]>
         (g_queue w)) w)).
  { intros l Hl'. apply wf_world_insert; [split; assumption|].
    repeat split; cbn [front last data]; try lia.
    rewrite length_insert. exact Hd. }
  destruct (n =? -1); [|destruct (n =? 0)].
  - eapply wf_world_queues; [apply teardown_queues|]. apply (Hput _ Hl).
  - eapply wf_world_queues; [apply teardown_queues|]. apply (Hput _ Hl).
  - apply Hput, QUEUE_NEXT_range, Hl.
Qed.

Lemma worker_respond_frame qi i n w w' :
  worker_respond qi i n w = Some w' →
  interest w' = interest w ∧ count w' = count w ∧ looping w' = looping w.
Proof.
  unfold worker_respond. intros H.
  repeat (apply bind_Some in H as (? & ? & H)).
  repeat case_match. repeat (apply bind_Some in H as (? & ? & H)).
  simplify_eq. auto.
Qed.

Lemma worker_pop_frame qi w popped w' :
  worker_pop qi w = Some (popped, w') →
  interest w' = interest w ∧ count w' = count w ∧ looping w' = looping w
  ∧ trace w' = trace w.
Proof.
  unfold worker_pop. intros H.
  apply bind_Some in H as (q & Hq & H).
  destruct (negb _).
  - apply bind_Some in H as (? & ? & H). simplify_eq. auto.
  - simplify_eq. auto.
Qed.

Lemma send_thread_turn_frame qi n w w' :
  send_thread_turn qi n w = Some w' →
  interest w' = interest w ∧ count w' = count w ∧ looping w' = looping w.
Proof.
  unfold send_thread_turn. intros H.
  apply bind_Some in H as ([popped w1] & Hpop & H).
  apply worker_pop_frame in Hpop as (Hi & Hc & Hl & _).
  destruct popped as [i|].
  - apply worker_respond_frame in H as (-> & -> & ->). auto.
  - simplify_eq. auto.
Qed.

End Frames.

Section SendResult.

(** The result of [send] decides nothing but the final [perror]. *)
Lemma respond_send_ret e e' acts :
  respond e (-1) = Some (e', acts) →
  ∃ text bytes,
    acts = [Fprintf (MsgChild (acc e) text); Send (acc e) bytes; Perror "send"]
    ∧ ∀ n, respond e n
           = Some (e', if n =? -1 then acts
                       else [Fprintf (MsgChild (acc e) text); Send (acc e) bytes]).
Proof.
  unfold respond. intros H.
  apply bind_Some in H as (b1 & Hb1 & H). rewrite Hb1.
  cbn [mbind option_bind].
  apply bind_Some in H as (ptr & Hptr & H). rewrite Hptr.
  cbn [mbind option_bind].
  apply bind_Some in H as ([b3 r] & Hcat & H). rewrite Hcat.
  cbn [mbind option_bind].
  apply bind_Some in H as (k & Hk & H). rewrite Hk.
  cbn [mbind option_bind] in *. simplify_eq.
  do 2 eexists. split; [reflexivity|].
  intros n. destruct (n =? -1); reflexivity.
Qed.

End SendResult.

Section Admission.

Variable soc : Z.

Lemma admission_inv_frame w w' :
  interest w' = interest w → count w' = count w →
  admission_inv soc w → admission_inv soc w'.
Proof.
  unfold admission_inv, connections. intros -> ->. auto.
Qed.

Lemma admission_inv_init : admission_inv soc (init_world soc).
Proof.
  unfold admission_inv, connections. cbn [interest count init_world].
  split; [set_solver|]. split; [|unfold MAX_CHILD; lia].
  replace ({[soc]} ∖ {[soc]} : gset Z) with (∅ : gset Z) by set_solver.
  rewrite size_empty. reflexivity.
Qed.

Lemma admission_inv_add acc w :
  acc ∉ interest w → count w + 1 < MAX_CHILD →
  admission_inv soc w →
  admission_inv soc (set_interest ({[acc]} ∪ interest w) (count w + 1) w).
Proof.
  unfold admission_inv, connections. cbn [interest count set_interest].
  intros Hacc Hroom (Hsoc & Hcount & Hmax).
  split; [set_solver|]. split; [|lia].
  replace (({[acc]} ∪ interest w) ∖ {[soc]})
    with ({[acc]} ∪ (interest w ∖ {[soc]}) : gset Z) by set_solver.
  rewrite size_union by set_solver. rewrite size_singleton. lia.
Qed.

Lemma admission_inv_del fd w :
  fd ≠ soc → fd ∈ interest w →
  admission_inv soc w →
  admission_inv soc (set_interest (interest w ∖ {[fd]}) (count w - 1) w).
Proof.
  unfold admission_inv, connections. cbn [interest count set_interest].
  intros Hne Hfd (Hsoc & Hcount & Hmax).
  split; [set_solver|].
  replace ((interest w ∖ {[fd]}) ∖ {[soc]})
    with ((interest w ∖ {[soc]}) ∖ {[fd]} : gset Z) by set_solver.
  rewrite size_difference by set_solver. rewrite size_singleton.
  assert (size (interest w ∖ {[soc]}) ≠ 0%nat).
  { apply size_non_empty_iff. set_solver. }
  split; lia.
Qed.

Lemma teardown_inv fd o w :
  fd ≠ soc → admission_inv soc w → admission_inv soc (teardown fd o w).
Proof.
  intros Hne Hinv. unfold teardown, epoll_ctl_del.
  cbn [interest emit count].
  destruct (decide (fd ∈ interest w)) as [Hin|Hout];
    [destruct (ctl_ok o)|]; try (revert Hinv; apply admission_inv_frame; reflexivity).
  eapply admission_inv_frame;
    [| |apply (admission_inv_del fd w Hne Hin Hinv)]; reflexivity.
Qed.

Lemma on_listen_inv o w w' :
  admission_inv soc w → on_listen o w = Some w' → admission_inv soc w'.
Proof.
  intros Hinv. unfold on_listen, epoll_ctl_add.
  destruct (accept_ret o =? -1).
  { intros [= <-]. destruct (negb _); [|exact Hinv].
    revert Hinv. apply admission_inv_frame; reflexivity. }
  cbn [count interest emit].
  destruct (Z.geb_spec (count w + 1) MAX_CHILD) as [Hfull|Hroom].
  { intros [= <-]. revert Hinv. apply admission_inv_frame; reflexivity. }
  destruct (decide (accept_ret o ∈ interest w)) as [Hin|Hout];
    [|destruct (ctl_ok o)]; intros [= <-];
    try (revert Hinv; apply admission_inv_frame; reflexivity).
  eapply admission_inv_frame;
    [| |apply (admission_inv_add (accept_ret o) w Hout Hroom Hinv)];
    reflexivity.
Qed.

Lemma on_conn_inv fd o w w' :
  fd ≠ soc → admission_inv soc w → on_conn fd o w = Some w' →
  admission_inv soc w'.
Proof.
  intros Hne Hinv. unfold on_conn, conn_recv, conn_switch. intros H.
  apply bind_Some in H as (w1 & H1 & H).
  assert (Hinv1 : admission_inv soc w1).
  { repeat (apply bind_Some in H1 as (? & ? & H1)).
    destruct (recv _ _ _) as [b n].
    repeat (apply bind_Some in H1 as (? & ? & H1)).
    simplify_eq. revert Hinv. apply admission_inv_frame; reflexivity. }
  clear H1 Hinv.
  repeat (apply bind_Some in H as (? & ? & H)).
  destruct (len _ =? -1); [|destruct (len _ =? 0)].
  - simplify_eq. apply teardown_inv; [assumption|].
    revert Hinv1. apply admission_inv_frame; reflexivity.
  - simplify_eq. apply teardown_inv; assumption.
  - apply bind_Some in H as (? & ? & H). simplify_eq.
    revert Hinv1. apply admission_inv_frame; reflexivity.
Qed.

Lemma dispatch_inv ev w w' :
  admission_inv soc w → dispatch soc ev w = Some w' → admission_inv soc w'.
Proof.
  intros Hinv. unfold dispatch.
  destruct (Z.eqb_spec (data_fd ev) soc) as [_|Hne].
  - apply on_listen_inv. exact Hinv.
  - apply on_conn_inv; assumption.
Qed.

Lemma dispatch_all_inv evs : ∀ w w',
  admission_inv soc w → dispatch_all soc evs w = Some w' →
  admission_inv soc w'.
Proof.
  induction evs as [|ev evs IH]; intros w w' Hinv; simpl.
  - intros [= <-]. exact Hinv.
  - destruct (looping w); [|intros [= <-]; exact Hinv].
    intros H. apply bind_Some in H as (w1 & H1 & H).
    eapply IH; [|exact H]. eapply dispatch_inv; eauto.
Qed.

Lemma accept_loop_turn_inv r w w' :
  admission_inv soc w → accept_loop_turn soc r w = Some w' →
  admission_inv soc w'.
Proof.
  intros Hinv. unfold accept_loop_turn.
  destruct (looping w); [|intros [= <-]; exact Hinv].
  destruct r as [| |evs].
  - intros [= <-]. revert Hinv. apply admission_inv_frame; reflexivity.
  - intros [= <-]. revert Hinv. apply admission_inv_frame; reflexivity.
  - apply dispatch_all_inv. revert Hinv. apply admission_inv_frame; reflexivity.
Qed.

Lemma run_inv sts : ∀ w w',
  admission_inv soc w → run soc sts w = Some w' → admission_inv soc w'.
Proof.
  induction sts as [|st sts IH]; intros w w' Hinv; simpl.
  - intros [= <-]. exact Hinv.
  - intros H. apply bind_Some in H as (w1 & H1 & H).
    eapply IH; [|exact H]. destruct st as [r|qi n]; simpl in H1.
    + eapply accept_loop_turn_inv; eauto.
    + apply send_thread_turn_frame in H1 as (Hi & Hc & _).
      revert Hinv. apply admission_inv_frame; assumption.
Qed.

End Admission.

(** ** The ring below capacity *)

Section Ring.

Lemma QUEUE_NEXT_mod i : 0 <= i → QUEUE_NEXT i = (i + 1) mod MAXQUEUESZ.
Proof.
  intros Hi. unfold QUEUE_NEXT. apply Z.rem_mod_nonneg; unfold MAXQUEUESZ; lia.
Qed.

Lemma slots_from_S d i n :
  slots_from d i (S n)
  = match nthZ d i with
    | Some e => e :: slots_from d (QUEUE_NEXT i) n
    | None => []
    end.
Proof. reflexivity. Qed.

Lemma slots_from_insert d l e : ∀ n i,
  length d = Z.to_nat MAXQUEUESZ →
  0 <= i < MAXQUEUESZ → 0 <= l < MAXQUEUESZ →
  (l - i) mod MAXQUEUESZ = Z.of_nat n →
  slots_from (<[Z.to_nat l := e]> d) i (S n) = slots_from d i n ++ [e].
Proof.
  induction n as [|n IH]; intros i Hd Hi Hl Hocc.
  - assert (i = l) as -> by ring_lia.
    cbn [slots_from]. rewrite nthZ_insert_eq by (rewrite Hd; lia).
    reflexivity.
  - assert (i ≠ l) by ring_lia.
    rewrite (slots_from_S _ i (S n)), (slots_from_S d i n).
    assert (Hnth : nthZ (<[Z.to_nat l := e]> d) i = nthZ d i).
    { unfold nthZ. destruct (i <? 0); [reflexivity|].
      apply list_lookup_insert_ne. lia. }
    rewrite Hnth.
    destruct (nthZ_Some d i ltac:(rewrite Hd; lia)) as [x ->].
    rewrite IH; [reflexivity|assumption| | assumption|].
    + apply QUEUE_NEXT_range, Hi.
    + rewrite QUEUE_NEXT_mod by lia. ring_lia.
Qed.


(** While fewer than [MAXQUEUESZ - 1] elements wait, the ring is a FIFO:
    [enqueue] appends. *)
Lemma pending_enqueue e q :
  wf_queue q → occupancy q < MAXQUEUESZ - 1 →
  pending (enqueue e q) = pending q ++ [e].
Proof.
  intros (Hf & Hl & Hd) Hocc. unfold pending, occupancy in *.
  cbn [enqueue front last data].
  rewrite QUEUE_NEXT_mod by lia.
  replace (Z.to_nat (((last q + 1) mod MAXQUEUESZ - front q) mod MAXQUEUESZ))
    with (S (Z.to_nat ((last q - front q) mod MAXQUEUESZ)))
    by ring_lia.
  apply slots_from_insert; try assumption.
  ring_lia.
Qed.

(** With [MAXQUEUESZ - 1] elements waiting, [enqueue] brings [last] onto
    [front]: nothing is left for the sender. *)
Lemma pending_enqueue_full e q :
  wf_queue q → occupancy q = MAXQUEUESZ - 1 →
  last (enqueue e q) = front (enqueue e q) ∧ pending (enqueue e q) = [].
Proof.
  intros (Hf & Hl & Hd) Hocc. unfold pending, occupancy in *.
  cbn [enqueue front last data]. rewrite QUEUE_NEXT_mod by lia.
  assert (E : (last q + 1) mod MAXQUEUESZ = front q)
    by ring_lia.
  rewrite E. split; [reflexivity|].
  rewrite Z.sub_diag. reflexivity.
Qed.

(** The sender pops the head of [pending]. *)
Lemma pending_dequeue q :
  wf_queue q → last q ≠ front q →
  ∃ e, nthZ (data q) (front q) = Some e ∧ pending q = e :: pending (dequeue q).
Proof.
  intros (Hf & Hl & Hd) Hne. unfold pending, occupancy.
  cbn [dequeue front last data].
  destruct (nthZ_Some (data q) (front q) ltac:(rewrite Hd; lia)) as [e He].
  exists e. split; [exact He|].
  rewrite QUEUE_NEXT_mod by lia.
  replace (Z.to_nat ((last q - front q) mod MAXQUEUESZ))
    with (S (Z.to_nat ((last q - (front q + 1) mod MAXQUEUESZ) mod MAXQUEUESZ)))
    by ring_lia.
  cbn [slots_from]. rewrite He. rewrite QUEUE_NEXT_mod by lia. reflexivity.
Qed.

End Ring.

Section Refinement.

Lemma wf_enqueue e q : wf_queue q → wf_queue (enqueue e q).
Proof.
  intros (Hf & Hl & Hd). repeat split; cbn [enqueue front last data]; try lia.
  - apply QUEUE_NEXT_range, Hl.
  - apply QUEUE_NEXT_range, Hl.
  - rewrite length_insert. exact Hd.
Qed.

Lemma wf_dequeue q : wf_queue q → wf_queue (dequeue q).
Proof.
  intros (Hf & Hl & Hd). repeat split; cbn [dequeue front last data]; try lia.
  - apply QUEUE_NEXT_range, Hf.
  - apply QUEUE_NEXT_range, Hf.
Qed.

Lemma occupancy_enqueue e q :
  wf_queue q → occupancy q < MAXQUEUESZ - 1 →
  occupancy (enqueue e q) = occupancy q + 1.
Proof.
  intros (Hf & Hl & Hd) Hocc. unfold occupancy in *.
  cbn [enqueue front last]. rewrite QUEUE_NEXT_mod by lia. ring_lia.
Qed.

Lemma occupancy_dequeue q :
  wf_queue q → last q ≠ front q →
  occupancy (dequeue q) = occupancy q - 1 ∧ 0 < occupancy q.
Proof.
  intros (Hf & Hl & Hd) Hne. unfold occupancy in *.
  cbn [dequeue front last]. rewrite QUEUE_NEXT_mod by lia. ring_lia.
Qed.

Lemma occupancy_empty q :
  wf_queue q → last q = front q → occupancy q = 0 ∧ pending q = [].
Proof.
  intros _ E. unfold pending, occupancy. rewrite E, Z.sub_diag. auto.
Qed.

(** Below capacity the ring and the list give the same elements in the same
    order, and leave the same elements waiting. *)
Lemma ring_refines_fifo ops : ∀ q,
  wf_queue q → never_full ops (occupancy q) →
  (ring_run ops q).2 = (fifo_run ops (pending q)).2
  ∧ pending (ring_run ops q).1 = (fifo_run ops (pending q)).1.
Proof.
  induction ops as [|[e|] ops IH]; intros q Hwf Hnf; cbn [ring_run fifo_run].
  - auto.
  - destruct Hnf as [Hroom Hnf].
    rewrite <- (pending_enqueue e q Hwf Hroom).
    apply IH; [apply wf_enqueue, Hwf|].
    rewrite occupancy_enqueue by assumption. exact Hnf.
  - cbn [never_full] in Hnf.
    destruct (Z.eqb_spec (last q) (front q)) as [E|Hne]; cbn [negb].
    + destruct (occupancy_empty q Hwf E) as [Ho Hp]. rewrite Hp.
      rewrite <- Hp. apply IH; [exact Hwf|].
      rewrite Ho in *. exact Hnf.
    + destruct (pending_dequeue q Hwf Hne) as (e & He & Hp).
      destruct (occupancy_dequeue q Hwf Hne) as [Ho Hpos].
      rewrite He, Hp.
      destruct (IH (dequeue q) (wf_dequeue q Hwf)) as [IH1 IH2].
      { rewrite Ho. replace (occupancy q - 1) with (Z.max 0 (occupancy q - 1))
          by lia. exact Hnf. }
      destruct (ring_run ops (dequeue q)) as [q' out].
      destruct (fifo_run ops (pending (dequeue q))) as [l'' out'].
      cbn [fst snd] in *. split; [f_equal; exact IH1 | exact IH2].
Qed.

End Refinement.

Section RingInCode.

Lemma nthZ_Some_inv {A} (l : list A) i x :
  nthZ l i = Some x → 0 <= i < Z.of_nat (length l).
Proof.
  unfold nthZ. destruct (Z.ltb_spec i 0) as [?|Hi]; [discriminate|].
  intros Hx. apply lookup_lt_Some in Hx. lia.
Qed.

(** A read that returns data is [enqueue] on the queue of the shard. *)
Lemma on_conn_enqueue fd o w bytes :
  wf_world w → 0 <= Z.rem fd MAXSENDER →
  recv_pending o = Some bytes → bytes ≠ [] →
  ∃ q slot,
    nthZ (g_queue w) (Z.rem fd MAXSENDER) = Some q
    ∧ nthZ (data q) (last q) = Some slot
    ∧ on_conn fd o w
      = Some (set_queues
                (<[Z.to_nat (Z.rem fd MAXSENDER) :=
                     enqueue (received_into fd bytes (buf slot)) q]>
                   (g_queue w)) w).
Proof.
  intros Hwf Hfd Hrecv Hbytes.
  destruct (on_conn_spec fd o w Hwf Hfd) as (q & slot & Hq & Hslot & ->).
  exists q, slot. split; [exact Hq|]. split; [exact Hslot|].
  rewrite Hrecv. unfold received_into, enqueue.
  destruct (recv (Some bytes) (buf slot) BUFSZ) as [b n] eqn:E.
  assert (Hn : 0 < n).
  { unfold recv in E. injection E as _ <-. destruct bytes; [congruence|].
    unfold BUFSZ. cbn [take length]. lia. }
  cbv zeta. cbn [fst snd].
  destruct (Z.eqb_spec n (-1)); [lia|]. destruct (Z.eqb_spec n 0); [lia|].
  reflexivity.
Qed.

(** The pop of the sender is [dequeue], at the index [front]. *)
Lemma worker_pop_dequeue qi w q :
  nthZ (g_queue w) qi = Some q → last q ≠ front q →
  worker_pop qi w
  = Some (Some (front q),
          set_queues (<[Z.to_nat qi := dequeue q]> (g_queue w)) w).
Proof.
  intros Hq Hne. unfold worker_pop. rewrite Hq. cbn [mbind option_bind].
  destruct (Z.eqb_spec (last q) (front q)); [contradiction|]. cbn [negb].
  rewrite storeZ_Some by (eapply nthZ_Some_inv; exact Hq). reflexivity.
Qed.

Lemma worker_pop_empty qi w q :
  nthZ (g_queue w) qi = Some q → last q = front q →
  worker_pop qi w = Some (None, w).
Proof.
  intros Hq E. unfold worker_pop. rewrite Hq. cbn [mbind option_bind].
  rewrite E, Z.eqb_refl. reflexivity.
Qed.

End RingInCode.

Section Reachable.

Lemma storeZ_inv {A} (l : list A) i x l' :
  storeZ l i x = Some l' → l' = <[Z.to_nat i := x]> l.
Proof.
  unfold storeZ. destruct (_ && _); [|discriminate]. intros [= <-]. reflexivity.
Qed.

Lemma worker_pop_wf qi w popped w' :
  wf_world w → worker_pop qi w = Some (popped, w') → wf_world w'.
Proof.
  intros Hwf H. unfold worker_pop in H.
  apply bind_Some in H as (q & Hq & H).
  pose proof (nthZ_wf _ _ _ (proj2 Hwf) Hq) as Hwq.
  destruct (negb _).
  - apply bind_Some in H as (qs & Hqs & H). injection H as _ <-.
    apply storeZ_inv in Hqs as ->.
    apply wf_world_insert; [exact Hwf|]. apply (wf_dequeue q Hwq).
  - injection H as _ <-. exact Hwf.
Qed.

Lemma worker_respond_wf qi i n w w' :
  wf_world w → worker_respond qi i n w = Some w' → wf_world w'.
Proof.
  intros Hwf H. unfold worker_respond in H.
  apply bind_Some in H as (q & Hq & H).
  pose proof (nthZ_wf _ _ _ (proj2 Hwf) Hq) as (Hf & Hl & Hd).
  apply bind_Some in H as (e & He & H).
  apply bind_Some in H as ([e' acts] & Hr & H).
  apply bind_Some in H as (slots & Hslots & H).
  apply bind_Some in H as (qs & Hqs & H). injection H as <-.
  apply storeZ_inv in Hslots as ->. apply storeZ_inv in Hqs as ->.
  destruct Hwf as [Hlen Hall]. split; cbn [g_queue].
  - rewrite length_insert. exact Hlen.
  - apply Forall_insert; [exact Hall|].
    repeat split; cbn [front last data]; try lia.
    rewrite length_insert. exact Hd.
Qed.

Lemma send_thread_turn_wf qi n w w' :
  wf_world w → send_thread_turn qi n w = Some w' → wf_world w'.
Proof.
  intros Hwf H. unfold send_thread_turn in H.
  apply bind_Some in H as ([popped w1] & Hpop & H).
  apply worker_pop_wf in Hpop; [|exact Hwf].
  destruct popped as [i|].
  - eapply worker_respond_wf; eauto.
  - injection H as <-. exact Hpop.
Qed.

Lemma dispatch_wf soc ev w w' :
  wf_world w → dispatch soc ev w = Some w' → wf_world w'.
Proof.
  intros Hwf. unfold dispatch. destruct (data_fd ev =? soc).
  - intros H. apply on_listen_queues in H.
    eapply wf_world_queues; eauto.
  - apply on_conn_wf, Hwf.
Qed.

Lemma dispatch_all_wf soc evs : ∀ w w',
  wf_world w → dispatch_all soc evs w = Some w' → wf_world w'.
Proof.
  induction evs as [|ev evs IH]; intros w w' Hwf; cbn [dispatch_all].
  - intros [= <-]. exact Hwf.
  - destruct (looping w); [|intros [= <-]; exact Hwf].
    intros H. apply bind_Some in H as (w1 & H1 & H).
    eapply IH; [|exact H]. eapply dispatch_wf; eauto.
Qed.

Lemma accept_loop_turn_wf soc r w w' :
  wf_world w → accept_loop_turn soc r w = Some w' → wf_world w'.
Proof.
  intros Hwf. unfold accept_loop_turn.
  destruct (looping w); [|intros [= <-]; exact Hwf].
  destruct r as [| |evs].
  - intros [= <-]. exact Hwf.
  - intros [= <-]. exact Hwf.
  - apply dispatch_all_wf. exact Hwf.
Qed.

Lemma run_wf soc sts : ∀ w w',
  wf_world w → run soc sts w = Some w' → wf_world w'.
Proof.
  induction sts as [|st sts IH]; intros w w' Hwf; cbn [run].
  - intros [= <-]. exact Hwf.
  - intros H. apply bind_Some in H as (w1 & H1 & H).
    eapply IH; [|exact H]. destruct st as [r|qi n]; cbn [run_step] in H1.
    + eapply accept_loop_turn_wf; eauto.
    + eapply send_thread_turn_wf; eauto.
Qed.

(** Every state the process reaches is well formed. *)
Lemma reachable_wf soc sts w :
  run soc sts (init_world soc) = Some w → wf_world w.
Proof. apply run_wf, wf_init. Qed.

End Reachable.

Section Passes.

Lemma one_connection_reached :
  run 3 [arrives 3 4] (init_world 3) = Some one_connection.
Proof. reflexivity. Qed.

Lemma wf_one_connection : wf_world one_connection.
Proof. apply (wf_world_queues (init_world 3)); [reflexivity | apply wf_init]. Qed.

(** The pass over the listening socket once [accept] has succeeded. *)
Lemma listen_pass soc o w :
  accept_ret o ≠ -1 →
  let w1 := emit (Fprintf MsgAccept) w in
  (count w + 1 < MAX_CHILD →
   accept_ret o ∉ interest w → ctl_ok o = true →
   dispatch soc (Event soc o) w
   = Some (set_interest ({[accept_ret o]} ∪ interest w) (count w + 1) w1))
  ∧ (MAX_CHILD <= count w + 1 →
     dispatch soc (Event soc o) w
     = Some (emit (Close (accept_ret o)) (emit (Fprintf MsgConnectionFull) w1)))
  ∧ (count w + 1 < MAX_CHILD →
     accept_ret o ∈ interest w ∨ ctl_ok o = false →
     dispatch soc (Event soc o) w
     = Some (loop_return
               (emit CloseEpoll
                  (emit (Close (accept_ret o))
                     (emit (Perror "epoll_ctl") w1))))).
Proof.
  intros Hacc w1. subst w1. unfold dispatch. cbn [data_fd answers].
  rewrite Z.eqb_refl. unfold on_listen, epoll_ctl_add.
  destruct (Z.eqb_spec (accept_ret o) (-1)) as [?|_]; [contradiction|].
  cbn [count interest emit].
  destruct (Z.geb_spec (count w + 1) MAX_CHILD) as [Hfull|Hroom].
  - split; [lia|]. split; [reflexivity|lia].
  - split; [|split; [lia|]].
    + intros _ Hfresh Hok.
      destruct (decide (accept_ret o ∈ interest w)); [contradiction|].
      rewrite Hok. reflexivity.
    + intros _ [Hin|Hko].
      * destruct (decide (accept_ret o ∈ interest w)); [reflexivity|contradiction].
      * destruct (decide (accept_ret o ∈ interest w)); [reflexivity|].
        rewrite Hko. reflexivity.
Qed.

(** Teardown on a registered connection whose [recv] returned 0 or -1. *)
Lemma teardown_registered fd o w :
  fd ∈ interest w → ctl_ok o = true →
  interest (teardown fd o w) = interest w ∖ {[fd]}
  ∧ count (teardown fd o w) = count w - 1
  ∧ trace (teardown fd o w) = trace w ++ [Fprintf (MsgRecvEOF fd); Close fd]
  ∧ looping (teardown fd o w) = looping w.
Proof.
  intros Hin Hok. unfold teardown, epoll_ctl_del. cbn [interest emit].
  destruct (decide (fd ∈ interest w)); [|contradiction].
  rewrite Hok. cbn. rewrite <- app_assoc. auto.
Qed.

Lemma read_result_recv o b :
  (recv (recv_pending o) b BUFSZ).2 = read_result o.
Proof. unfold recv, read_result. destruct (recv_pending o); reflexivity. Qed.

Lemma read_result_min o : -1 <= read_result o.
Proof. unfold read_result. destruct (recv_pending o); lia. Qed.

Lemma conn_pass soc fd o w :
  wf_world w → 0 <= fd → fd ≠ soc → fd ∈ interest w → ctl_ok o = true →
  ∃ w', dispatch soc (Event fd o) w = Some w'
        ∧ (torn_down fd w w' ↔ read_result o = 0 ∨ read_result o = -1)
        ∧ (0 < read_result o → untouched w w').
Proof.
  intros Hwf Hfd Hne Hin Hok. unfold dispatch. cbn [data_fd answers].
  destruct (Z.eqb_spec fd soc) as [?|_]; [contradiction|].
  destruct (on_conn_spec fd o w Hwf (proj1 (shard_range fd Hfd)))
    as (q & slot & _ & _ & ->).
  pose proof (read_result_recv o (buf slot)) as Hn.
  pose proof (read_result_min o) as Hmin.
  destruct (recv (recv_pending o) (buf slot) BUFSZ) as [b n].
  cbn [snd] in Hn. subst n. cbv zeta.
  eexists. split; [reflexivity|].
  destruct (Z.eqb_spec (read_result o) (-1)) as [E1|N1];
    [|destruct (Z.eqb_spec (read_result o) 0) as [E0|N0]].
  - match goal with |- context [teardown fd o ?w0] =>
      destruct (teardown_registered fd o w0 Hin Hok) as (Hi & Hc & Ht & _) end.
    split; [split; [auto|intros _]|intros; lia].
    split; [exact Hi|]. split; [exact Hc|].
    exists [Perror "recv"; Fprintf (MsgRecvEOF fd)]. rewrite Ht.
    cbn [trace emit set_queues]. rewrite <- !app_assoc. reflexivity.
  - match goal with |- context [teardown fd o ?w0] =>
      destruct (teardown_registered fd o w0 Hin Hok) as (Hi & Hc & Ht & _) end.
    split; [split; [auto|intros _]|intros; lia].
    split; [exact Hi|]. split; [exact Hc|].
    exists [Fprintf (MsgRecvEOF fd)]. rewrite Ht. reflexivity.
  - split; [split|].
    + intros (_ & Hc & _). cbn [count set_queues] in Hc. lia.
    + lia.
    + intros _. repeat split.
Qed.

Lemma stopped_loop soc : ∀ rs w,
  looping w = false → accept_loop soc rs w = Some w.
Proof.
  induction rs as [|r rs IH]; intros w Hw; simpl; [reflexivity|].
  unfold accept_loop_turn. rewrite Hw. simpl. apply IH, Hw.
Qed.

Lemma default_defined {A} (o : option A) d :
  defined o = true → o = Some (default d o).
Proof. destruct o; [reflexivity|discriminate]. Qed.

Lemma recv_short bytes b0 :
  (length bytes < BUFSZ)%nat → length b0 = BUFSZ →
  recv (Some bytes) b0 BUFSZ
  = (bytes ++ drop (length bytes) b0, Z.of_nat (length bytes))
  ∧ drop (length bytes) b0 ≠ []
  ∧ (length bytes + length (drop (length bytes) b0) = BUFSZ)%nat.
Proof.
  intros Hb H0. unfold recv. rewrite take_ge by lia. split; [reflexivity|].
  split.
  - intros E. apply (f_equal length) in E. rewrite length_drop in E.
    simpl in E. lia.
  - rewrite length_drop. lia.
Qed.

Lemma respond_received fd bytes b0 send_ret :
  length b0 = BUFSZ → (length bytes < BUFSZ)%nat →
  ∃ e', respond (received_into fd bytes b0) send_ret
        = Some (e',
                Fprintf (MsgChild fd (line_of bytes))
                  :: Send fd (take (BUFSZ - 1) (line_of bytes ++ OK_suffix))
                  :: (if send_ret =? -1 then [Perror "send"] else [])).
Proof.
  intros H0 Hb. unfold received_into.
  destruct (recv_short bytes b0 Hb H0) as (-> & Htail & Hlen).
  cbn [fst snd].
  destruct (respond_spec fd bytes _ send_ret Hlen Htail) as (e' & -> & _).
  eauto.
Qed.

End Passes.

(** * The claims *)

Section Claims.

(** C1 fails on the code. After 4096 reads with no turn of the sender,
    [last] has wrapped onto [front]: the queue looks empty while slot 0
    still holds the unconsumed first request. The next read is stored over
    it, and the sender then answers that one only. *)
Theorem ring_overflow_overwrites :
  (w ← run 3 ring_filled (init_world 3);
   w' ← run 3 [reads 4 "late" []] w;
   w'' ← run 3 [WorkerTurn 0 10; WorkerTurn 0 10] w';
   Some (payload <$> slot_at 0 0 w, pointers 0 w, sent_on 4 (trace w),
         payload <$> slot_at 0 0 w', pointers 0 w',
         sent_on 4 (trace w''), pointers 0 w''))
  = Some (Some (list_ascii_of_string "first"), Some (0, 0), [],
          Some (list_ascii_of_string "late"), Some (0, 1),
          [list_ascii_of_string "late:OK" ++ [CR; LF]], Some (1, 1)).
Proof. vm_compute. reflexivity. Qed.

(** What the guard [count + 1 >= MAX_CHILD] does. In every reachable
    state the registered connections are [count] many and at most
    [MAX_CHILD - 1]; an accepted connection found with
    [count + 1 < MAX_CHILD] is registered (when the registry takes it) and
    counted, and one found with [MAX_CHILD <= count + 1] is closed at once,
    unregistered and uncounted. *)
Lemma admission_bound soc sts w o :
  run soc sts (init_world soc) = Some w →
  (Z.of_nat (size (connections soc w)) = count w ∧ count w <= MAX_CHILD - 1)
  ∧ (accept_ret o ≠ -1 → count w + 1 < MAX_CHILD →
     accept_ret o ∉ interest w → ctl_ok o = true →
     dispatch soc (Event soc o) w
     = Some (set_interest ({[accept_ret o]} ∪ interest w) (count w + 1)
               (emit (Fprintf MsgAccept) w)))
  ∧ (accept_ret o ≠ -1 → MAX_CHILD <= count w + 1 →
     dispatch soc (Event soc o) w
     = Some (emit (Close (accept_ret o))
               (emit (Fprintf MsgConnectionFull)
                  (emit (Fprintf MsgAccept) w)))).
Proof.
  intros Hrun.
  pose proof (run_inv soc sts _ _ (admission_inv_init soc) Hrun)
    as (_ & Hcount & Hmax).
  split; [split; [symmetry; exact Hcount | exact Hmax]|].
  split.
  - intros Hacc. apply (listen_pass soc o w Hacc).
  - intros Hacc. apply (listen_pass soc o w Hacc).
Qed.

(** [admission_bound] after one arrival, for a second one. *)
Lemma admission_bound_witness :
  run 3 [arrives 3 4] (init_world 3) = Some one_connection
  ∧ (Z.of_nat (size (connections 3 one_connection)) = count one_connection
     ∧ count one_connection <= MAX_CHILD - 1)
  ∧ (accept_ret (answers (incoming 3 5)) ≠ -1 →
     count one_connection + 1 < MAX_CHILD →
     accept_ret (answers (incoming 3 5)) ∉ interest one_connection →
     ctl_ok (answers (incoming 3 5)) = true →
     dispatch 3 (Event 3 (answers (incoming 3 5))) one_connection
     = Some (set_interest ({[accept_ret (answers (incoming 3 5))]}
                             ∪ interest one_connection)
               (count one_connection + 1)
               (emit (Fprintf MsgAccept) one_connection)))
  ∧ (accept_ret (answers (incoming 3 5)) ≠ -1 →
     MAX_CHILD <= count one_connection + 1 →
     dispatch 3 (Event 3 (answers (incoming 3 5))) one_connection
     = Some (emit (Close (accept_ret (answers (incoming 3 5))))
               (emit (Fprintf MsgConnectionFull)
                  (emit (Fprintf MsgAccept) one_connection)))).
Proof.
  split; [reflexivity|].
  apply (admission_bound 3 [arrives 3 4] one_connection (answers (incoming 3 5))).
  reflexivity.
Defined.

(** C2 fails on the code. Nineteen connections, descriptors 4 to 22, are
    registered and none is closed: the counter is 19, below [MAX_CHILD],
    the capacity the comments of [MAX_CHILD], [count] and [events] give.
    The twentieth connection, descriptor 23, is then closed at once,
    unregistered and uncounted, although the registry would take it: the
    guard is [count + 1 >= MAX_CHILD]. *)
Theorem admission_refuses_twentieth :
  ∃ w, run 3 nineteen_arrivals (init_world 3) = Some w
       ∧ count w = 19
       ∧ size (connections 3 w) = 19%nat
       ∧ (23 ∉ interest w)
       ∧ ctl_ok (answers (incoming 3 23)) = true
       ∧ count w < MAX_CHILD
       ∧ dispatch 3 (incoming 3 23) w
         = Some (emit (Close 23)
                   (emit (Fprintf MsgConnectionFull)
                      (emit (Fprintf MsgAccept) w))).
Proof.
  assert (Hc : (λ w, (count w, bool_decide (23 ∈ interest w)))
               <$> run 3 nineteen_arrivals (init_world 3)
               = Some (19, false))
    by (vm_compute; reflexivity).
  destruct (run 3 nineteen_arrivals (init_world 3)) as [w|] eqn:Hrun;
    [|discriminate].
  injection Hc as Hc Hin.
  pose proof (run_inv 3 nineteen_arrivals _ _ (admission_inv_init 3) Hrun)
    as (_ & Hcount & _).
  exists w. split; [reflexivity|]. split; [exact Hc|].
  split; [rewrite Hc in Hcount; lia|].
  split; [apply bool_decide_eq_false in Hin; exact Hin|].
  split; [reflexivity|]. split; [rewrite Hc; unfold MAX_CHILD; lia|].
  destruct (listen_pass 3 (answers (incoming 3 23)) w ltac:(discriminate))
    as (_ & Hfull & _).
  apply Hfull. rewrite Hc. unfold MAX_CHILD. lia.
Qed.

(** C3, as the code has it. For a request of fewer than 512 bytes the
    transmitted response is the received bytes up to the first NUL, CR or
    LF, followed by [":OK"] CR LF, the whole cut to 511 bytes; the cut made
    for the log is made in the buffer that is sent. *)
Theorem response_is_line_then_ok fd bytes b0 send_ret :
  length b0 = BUFSZ → (length bytes < BUFSZ)%nat →
  ∃ e', respond (received_into fd bytes b0) send_ret
        = Some (e',
                Fprintf (MsgChild fd (line_of bytes))
                  :: Send fd (take (BUFSZ - 1) (line_of bytes ++ OK_suffix))
                  :: (if send_ret =? -1 then [Perror "send"] else [])).
Proof. apply respond_received. Qed.

(** [response_is_line_then_ok] at the request ["a b\r\n"]. *)
Lemma response_is_line_then_ok_witness :
  length (replicate BUFSZ NUL) = BUFSZ
  ∧ (length (list_ascii_of_string "a b" ++ [CR; LF]) < BUFSZ)%nat
  ∧ ∃ e', respond (received_into 4 (list_ascii_of_string "a b" ++ [CR; LF])
                     (replicate BUFSZ NUL)) 8
          = Some (e',
                  Fprintf (MsgChild 4 (line_of (list_ascii_of_string "a b"
                                                  ++ [CR; LF])))
                    :: Send 4 (take (BUFSZ - 1)
                                 (line_of (list_ascii_of_string "a b"
                                             ++ [CR; LF]) ++ OK_suffix))
                    :: (if 8 =? -1 then [Perror "send"] else [])).
Proof.
  split; [reflexivity|]. split; [vm_compute; lia|].
  apply (response_is_line_then_ok 4 (list_ascii_of_string "a b" ++ [CR; LF])
           (replicate BUFSZ NUL) 8); [reflexivity | vm_compute; lia].
Defined.

(** C3 as stated fails: for ["hello\r\n"] the bytes sent are
    ["hello:OK\r\n"], not the received bytes followed by the suffix. *)
Lemma response_keeps_no_terminator :
  ∃ e' sent,
    respond (received_into 4 (list_ascii_of_string "hello" ++ [CR; LF])
               (replicate BUFSZ NUL)) 10
    = Some (e', [Fprintf (MsgChild 4 (list_ascii_of_string "hello"));
                 Send 4 sent])
    ∧ sent = list_ascii_of_string "hello" ++ OK_suffix
    ∧ sent ≠ protocol_response (list_ascii_of_string "hello" ++ [CR; LF]).
Proof.
  destruct (respond_received 4 (list_ascii_of_string "hello" ++ [CR; LF])
              (replicate BUFSZ NUL) 10 eq_refl ltac:(vm_compute; lia))
    as (e' & He').
  exists e', (list_ascii_of_string "hello" ++ OK_suffix).
  split; [exact He'|]. split; [reflexivity|]. discriminate.
Qed.

(** C4, as the code has it. A pass over a registered connection tears it
    down (deregisters, decrements the counter, closes) exactly when [recv]
    returned 0 or -1, whatever [errno] says, and leaves registrations,
    counter and trace alone when it returned data. *)
Theorem teardown_on_eof_or_error soc fd o w :
  wf_world w → 0 <= fd → fd ≠ soc → fd ∈ interest w → ctl_ok o = true →
  ∃ w', dispatch soc (Event fd o) w = Some w'
        ∧ (torn_down fd w w' ↔ read_result o = 0 ∨ read_result o = -1)
        ∧ (0 < read_result o → untouched w w').
Proof. apply conn_pass. Qed.

(** [teardown_on_eof_or_error] for a request on connection 4. *)
Lemma teardown_on_eof_or_error_witness :
  wf_world one_connection ∧ 0 <= 4 ∧ 4 ≠ 3 ∧ 4 ∈ interest one_connection
  ∧ ctl_ok (answers (readable 4 "hello" [CR; LF])) = true
  ∧ ∃ w', dispatch 3 (readable 4 "hello" [CR; LF]) one_connection = Some w'
        ∧ (torn_down 4 one_connection w'
           ↔ read_result (answers (readable 4 "hello" [CR; LF])) = 0
             ∨ read_result (answers (readable 4 "hello" [CR; LF])) = -1)
        ∧ (0 < read_result (answers (readable 4 "hello" [CR; LF])) →
           untouched one_connection w').
Proof.
  assert (Hin : 4 ∈ interest one_connection) by (vm_compute; set_solver).
  split; [apply wf_one_connection|]. split; [lia|]. split; [lia|].
  split; [exact Hin|]. split; [reflexivity|].
  apply (teardown_on_eof_or_error 3 4 (answers (readable 4 "hello" [CR; LF]))
           one_connection wf_one_connection);
    [lia | lia | exact Hin | reflexivity].
Defined.

(** C4 as stated fails: a [recv] interrupted by a signal ([EINTR]) is not
    retried, the connection is torn down. *)
Lemma interrupted_read_torn_down :
  ∃ w', dispatch 3 (interrupted 4) one_connection = Some w'
        ∧ torn_down 4 one_connection w'.
Proof.
  assert (Hin : 4 ∈ interest one_connection) by (vm_compute; set_solver).
  destruct (conn_pass 3 4 (answers (interrupted 4)) one_connection
              wf_one_connection ltac:(lia) ltac:(lia) Hin eq_refl)
    as (w' & Hw' & Htorn & _).
  exists w'. split; [exact Hw'|]. apply Htorn. right. reflexivity.
Qed.

(** C5 fails on the code. A segment of 512 bytes is queued with
    [len = 512 = sizeof(buf)]; the store [buf[len] = '\0'] of the sender
    thread is then outside the array. *)
Theorem terminator_store_out_of_bounds :
  (w ← run 3 [arrives 3 4; LoopTurn (WaitReady
                 [Event 4 {| accept_ret := 0; sys_errno := 0;
                             recv_pending := Some full_segment;
                             ctl_ok := true |}])] (init_world 3);
   e ← slot_at 0 0 w;
   Some (pointers 0 w, len e, length (buf e),
         defined (storeZ (buf e) (len e) NUL),
         defined (send_thread_turn 0 10 w)))
  = Some (Some (0, 1), 512, 512%nat, false, false).
Proof. vm_compute. reflexivity. Qed.

(** C6, as the code has it. When the registration of an accepted
    connection fails, the connection is closed, the epoll descriptor is
    closed and [accept_loop] returns: no later readiness is served. The
    counter, the registrations and the queues are left as they were. *)
Theorem registration_failure_stops_loop soc o w :
  accept_ret o ≠ -1 → count w + 1 < MAX_CHILD →
  accept_ret o ∈ interest w ∨ ctl_ok o = false →
  ∃ w', dispatch soc (Event soc o) w = Some w'
        ∧ trace w' = trace w ++ [Fprintf MsgAccept; Perror "epoll_ctl";
                                 Close (accept_ret o); CloseEpoll]
        ∧ looping w' = false
        ∧ interest w' = interest w ∧ count w' = count w
        ∧ g_queue w' = g_queue w
        ∧ ∀ rs, accept_loop soc rs w' = Some w'.
Proof.
  intros Hacc Hroom Hfail.
  destruct (listen_pass soc o w Hacc) as (_ & _ & Hstop).
  eexists. split; [apply Hstop; assumption|].
  cbn [trace loop_return emit looping interest count g_queue].
  rewrite <- !app_assoc. repeat split.
  intros rs. apply stopped_loop. reflexivity.
Qed.

(** [registration_failure_stops_loop] for the first connection. *)
Lemma registration_failure_stops_loop_witness :
  accept_ret (answers (unregistrable 3 4)) ≠ -1
  ∧ count (init_world 3) + 1 < MAX_CHILD
  ∧ (accept_ret (answers (unregistrable 3 4)) ∈ interest (init_world 3)
     ∨ ctl_ok (answers (unregistrable 3 4)) = false)
  ∧ ∃ w', dispatch 3 (Event 3 (answers (unregistrable 3 4))) (init_world 3)
          = Some w'
        ∧ trace w' = trace (init_world 3)
                     ++ [Fprintf MsgAccept; Perror "epoll_ctl";
                         Close (accept_ret (answers (unregistrable 3 4)));
                         CloseEpoll]
        ∧ looping w' = false
        ∧ interest w' = interest (init_world 3)
        ∧ count w' = count (init_world 3)
        ∧ g_queue w' = g_queue (init_world 3)
        ∧ ∀ rs, accept_loop 3 rs w' = Some w'.
Proof.
  split; [discriminate|]. split; [reflexivity|]. split; [right; reflexivity|].
  apply (registration_failure_stops_loop 3 (answers (unregistrable 3 4))
           (init_world 3));
    [discriminate | reflexivity | right; reflexivity].
Defined.

(** C6 as stated fails: after a failed registration the loop has returned
    and a later connection is not served. *)
Lemma registration_failure_ends_loop :
  ∃ w', dispatch 3 (unregistrable 3 4) (init_world 3) = Some w'
        ∧ looping w' = false
        ∧ accept_loop 3 [WaitReady [incoming 3 5]] w' = Some w'.
Proof.
  destruct (listen_pass 3 (answers (unregistrable 3 4)) (init_world 3)
              ltac:(discriminate)) as (_ & _ & Hstop).
  eexists. split; [apply Hstop; [reflexivity | right; reflexivity]|].
  split; reflexivity.
Qed.

(** C8 fails on the code. The sender pops index 0 (request ["one"]) and
    releases the mutex; 4094 reads of another connection of the shard bring
    [last] round to 0; [recv] stores the request ["new"] of connection 4 in
    slot 0 before [last] moves. The sender then answers ["new"] in place of
    ["one"], and ["two"] after it. *)
Theorem response_order_broken :
  (w1 ← run 3 [arrives 3 4; arrives 3 6; reads 4 "one" []; reads 4 "two" []]
         (init_world 3);
   '(popped, w2) ← worker_pop 0 w1;
   i ← popped;
   w3 ← run 3 (replicate 4094 (reads 6 "x" [])) w2;
   w4 ← conn_recv 4 (answers (readable 4 "new" [])) w3;
   w5 ← worker_respond 0 i 10 w4;
   w6 ← send_thread_turn 0 10 w5;
   w7 ← conn_switch 4 (answers (readable 4 "new" [])) w6;
   Some (i, pointers 0 w2, pointers 0 w3, sent_on 4 (trace w7),
         pointers 0 w7))
  = Some (0, Some (1, 2), Some (1, 0),
          [list_ascii_of_string "new:OK" ++ [CR; LF];
           list_ascii_of_string "two:OK" ++ [CR; LF]],
          Some (2, 1)).
Proof. vm_compute. reflexivity. Qed.

(** C9. When [send] fails, the sender thread reports it with [perror] and
    does nothing else: nothing is closed or deregistered, the counter is
    unchanged, and the queues are what they are after any other result of
    [send]. *)
Theorem send_failure_no_teardown qi i w w' :
  worker_respond qi i (-1) w = Some w' →
  (∃ fd text bytes,
     trace w' = trace w ++ [Fprintf (MsgChild fd text); Send fd bytes;
                            Perror "send"])
  ∧ interest w' = interest w ∧ count w' = count w ∧ looping w' = looping w
  ∧ ∀ n, ∃ w_n, worker_respond qi i n w = Some w_n ∧ g_queue w_n = g_queue w'.
Proof.
  intros H. pose proof (worker_respond_frame _ _ _ _ _ H) as (Hi & Hc & Hl).
  unfold worker_respond in *.
  apply bind_Some in H as (q & Hq & H). rewrite Hq. cbn [mbind option_bind].
  apply bind_Some in H as (e & He & H). rewrite He. cbn [mbind option_bind].
  apply bind_Some in H as ([e' acts] & Hr & H).
  destruct (respond_send_ret _ _ _ Hr) as (text & bytes & -> & Hany).
  apply bind_Some in H as (slots & Hslots & H).
  apply bind_Some in H as (qs & Hqs & H). injection H as <-.
  split; [cbn [trace]; eauto|]. split; [exact Hi|]. split; [exact Hc|].
  split; [exact Hl|].
  intros n. rewrite Hany. cbn [mbind option_bind].
  rewrite Hslots. cbn [mbind option_bind]. rewrite Hqs. cbn [mbind option_bind].
  eexists. split; reflexivity.
Qed.

(** [send_failure_no_teardown] for the queued request ["hello\r\n"]. *)
Lemma send_failure_no_teardown_witness :
  worker_respond 0 0 (-1) hello_queued = Some hello_send_failed
  ∧ (∃ fd text bytes,
       trace hello_send_failed
       = trace hello_queued ++ [Fprintf (MsgChild fd text); Send fd bytes;
                                Perror "send"])
  ∧ interest hello_send_failed = interest hello_queued
  ∧ count hello_send_failed = count hello_queued
  ∧ looping hello_send_failed = looping hello_queued
  ∧ ∀ n, ∃ w_n, worker_respond 0 0 n hello_queued = Some w_n
                ∧ g_queue w_n = g_queue hello_send_failed.
Proof.
  assert (H : worker_respond 0 0 (-1) hello_queued = Some hello_send_failed)
    by (apply default_defined; vm_compute; reflexivity).
  split; [exact H|].
  apply (send_failure_no_teardown 0 0 hello_queued hello_send_failed H).
Defined.

End Claims.

Section StringClaims.

Local Open Scope nat_scope.

(** C10. For a destination that is NUL-terminated within its first [size]
    bytes and a NUL-terminated source, [mystrlcat dst src size] writes only
    within [dst[0 .. size-1]], leaves [dst] NUL-terminated within [size]
    bytes, makes the string in [dst] the old one followed by [src], cut to
    [size - 1] characters, and returns the length of the old string plus
    the length of [src] (which a [size_t] holds). *)
Theorem mystrlcat_correct dst src size dl sl :
  strlen dst = Some dl → dl < size → size ≤ length dst →
  strlen src = Some sl →
  (Z.of_nat dl + Z.of_nat sl < SIZE_MAX1)%Z →
  ∃ dst',
    mystrlcat dst src size = Some (dst', (Z.of_nat dl + Z.of_nat sl)%Z)
    ∧ length dst' = length dst
    ∧ drop size dst' = drop size dst
    ∧ cstr dst' = take (size - 1) (cstr dst ++ cstr src)
    ∧ ∃ k, strlen dst' = Some k ∧ k < size.
Proof.
  intros Hd Hlt Hsize Hs Hfit.
  destruct (strlen_split _ _ Hd) as (r & Edst & Ed).
  destruct (strlen_split _ _ Hs) as (r' & Esrc & Es).
  pose proof (nonul_cstr dst) as Nd. pose proof (nonul_cstr src) as Ns.
  set (d := cstr dst) in *. set (s := cstr src) in *.
  assert (Hsz : 0 < size) by lia.
  exists (strlcat_result d s size ++ drop size dst). split; [|split; [|split; [|split]]].
  - rewrite Edst at 1. rewrite Esrc at 1.
    rewrite mystrlcat_app; auto; try (rewrite <- Edst; lia); try lia.
    rewrite <- Edst, Ed, Es. unfold size_t.
    rewrite Z.mod_small by lia. reflexivity.
  - rewrite length_app, strlcat_result_length, length_drop by lia. lia.
  - rewrite drop_app_length'; [reflexivity|].
    rewrite strlcat_result_length; lia.
  - destruct (strlcat_result_split d s size Hsz) as [k ->].
    rewrite <- app_assoc. simpl. apply cstr_app_nul, nonul_take.
    apply Forall_app; auto.
  - destruct (strlcat_result_split d s size Hsz) as [k ->].
    rewrite <- app_assoc. simpl. eexists. split.
    + apply strlen_app_nul, nonul_take, Forall_app; auto.
    + rewrite length_take. lia.
Qed.

(** [mystrlcat_correct] at ["a"] and ["bc"] with [size = 3]. *)
Lemma mystrlcat_correct_witness :
  strlen ["a"; NUL; "z"; "z"]%char = Some 1
  ∧ 1 < 3 ∧ 3 <= length ["a"; NUL; "z"; "z"]%char
  ∧ strlen ["b"; "c"; NUL]%char = Some 2
  ∧ (Z.of_nat 1 + Z.of_nat 2 < SIZE_MAX1)%Z
  ∧ ∃ dst',
      mystrlcat ["a"; NUL; "z"; "z"]%char ["b"; "c"; NUL]%char 3
      = Some (dst', (Z.of_nat 1 + Z.of_nat 2)%Z)
      ∧ length dst' = length ["a"; NUL; "z"; "z"]%char
      ∧ drop 3 dst' = drop 3 ["a"; NUL; "z"; "z"]%char
      ∧ cstr dst' = take (3 - 1) (cstr ["a"; NUL; "z"; "z"]%char
                                    ++ cstr ["b"; "c"; NUL]%char)
      ∧ ∃ k, strlen dst' = Some k ∧ k < 3.
Proof.
  split; [reflexivity|]. split; [lia|]. split; [simpl; lia|].
  split; [reflexivity|]. split; [reflexivity|].
  apply (mystrlcat_correct ["a"; NUL; "z"; "z"]%char ["b"; "c"; NUL]%char 3 1 2);
    [reflexivity | lia | simpl; lia | reflexivity | reflexivity].
Defined.

End StringClaims.

(** * Further properties *)

(** ** mystrlcat *)

Section StrlcatEdges.

Local Open Scope nat_scope.

Lemma scan_dst_full dst : ∀ lest pd,
  nonul (take lest (drop pd dst)) → pd + lest < length dst →
  scan_dst dst pd lest = Some (pd + lest).
Proof.
  induction lest as [|lest IH]; intros pd Hn Hlen.
  - destruct (lookup_lt_is_Some_2 dst pd ltac:(lia)) as [c Hc].
    simpl. rewrite Hc. destruct (is_nul c); f_equal; lia.
  - destruct (lookup_lt_is_Some_2 dst pd ltac:(lia)) as [c Hc].
    simpl. rewrite Hc.
    rewrite (drop_S _ _ _ Hc) in Hn. simpl in Hn.
    inversion Hn as [|? ? Hnc Hn']; subst. rewrite Hnc.
    rewrite IH by (auto; lia). f_equal. lia.
Qed.

Lemma scan_dst_overrun dst : ∀ lest pd,
  nonul (drop pd dst) → length dst = pd + lest →
  scan_dst dst pd lest = None.
Proof.
  induction lest as [|lest IH]; intros pd Hn Hlen.
  - simpl. rewrite lookup_ge_None_2 by lia. reflexivity.
  - destruct (lookup_lt_is_Some_2 dst pd ltac:(lia)) as [c Hc].
    simpl. rewrite Hc.
    rewrite (drop_S _ _ _ Hc) in Hn.
    inversion Hn as [|? ? Hnc Hn']; subst. rewrite Hnc.
    apply IH; [exact Hn' | lia].
Qed.

(** [mystrlcat] on terminated strings, in one equation. *)
Lemma mystrlcat_strings dst src size dl sl :
  strlen dst = Some dl → dl < size → size ≤ length dst →
  strlen src = Some sl →
  mystrlcat dst src size
  = Some (strlcat_result (cstr dst) (cstr src) size ++ drop size dst,
          size_t (Z.of_nat dl + Z.of_nat sl))
  ∧ length (cstr dst) = dl ∧ length (cstr src) = sl.
Proof.
  intros Hd Hlt Hsize Hs.
  destruct (strlen_split _ _ Hd) as (r & Edst & Ed).
  destruct (strlen_split _ _ Hs) as (r' & Esrc & Es).
  split; [|auto].
  rewrite Edst at 1. rewrite Esrc at 1.
  rewrite mystrlcat_app; try apply nonul_cstr; try lia.
  - rewrite <- Edst, Ed, Es. reflexivity.
  - rewrite <- Edst. lia.
Qed.

Lemma take_take_app {A} (l k : list A) n :
  take n (take n l ++ k) = take n (l ++ k).
Proof.
  rewrite !take_app, take_take, Nat.min_id, length_take.
  f_equal. destruct (Nat.le_gt_cases n (length l)).
  - replace (n - n `min` length l) with 0 by lia.
    replace (n - length l) with 0 by lia. reflexivity.
  - f_equal. lia.
Qed.

Lemma strlcat_result_cstr d s size rest :
  nonul d → nonul s → 0 < size →
  cstr (strlcat_result d s size ++ rest) = take (size - 1) (d ++ s)
  ∧ strlen (strlcat_result d s size ++ rest)
    = Some (length (take (size - 1) (d ++ s))).
Proof.
  intros Hd Hs Hsz.
  destruct (strlcat_result_split d s size Hsz) as [k ->].
  rewrite <- app_assoc. simpl.
  assert (nonul (take (size - 1) (d ++ s)))
    by (apply nonul_take, Forall_app; auto).
  split; [apply cstr_app_nul | apply strlen_app_nul]; assumption.
Qed.

(** X1 ([mystrlcat], lines 337-345). When none of the first [size] bytes
    of [dst] is NUL, [mystrlcat] writes nothing: the buffer is returned as
    it was, and the value returned is [size] plus the length of [src]. (The
    buffer is longer than [size]: the scan reads [dst[size]].) *)
Theorem mystrlcat_full_dst dst src size sl :
  nonul (take size dst) → size < length dst → strlen src = Some sl →
  mystrlcat dst src size
  = Some (dst, size_t (Z.of_nat size + Z.of_nat sl)).
Proof.
  intros Hn Hlen Hs. unfold mystrlcat.
  rewrite (scan_dst_full dst size 0) by (rewrite ?drop_0; auto; lia).
  cbn [mbind option_bind]. rewrite Nat.add_0_l, Nat.sub_diag. simpl.
  rewrite Hs. reflexivity.
Qed.

Lemma mystrlcat_full_dst_witness :
  nonul (take 2 ["a"; "b"; "c"; NUL]%char)
  ∧ 2 < length ["a"; "b"; "c"; NUL]%char
  ∧ strlen ["x"; "y"; "z"; NUL]%char = Some 3
  ∧ mystrlcat ["a"; "b"; "c"; NUL]%char ["x"; "y"; "z"; NUL]%char 2
    = Some (["a"; "b"; "c"; NUL]%char, size_t (Z.of_nat 2 + Z.of_nat 3)).
Proof.
  assert (H : nonul (take 2 ["a"; "b"; "c"; NUL]%char))
    by (repeat constructor).
  split; [exact H|]. split; [simpl; lia|]. split; [reflexivity|].
  apply (mystrlcat_full_dst ["a"; "b"; "c"; NUL]%char
           ["x"; "y"; "z"; NUL]%char 2 3 H); [simpl; lia | reflexivity].
Defined.

(** X2 ([mystrlcat], line 337). The scan of [dst] tests [*pd] before
    [lest]: called with [size] equal to the length of a buffer that holds
    no NUL, [mystrlcat] reads one byte past the end of the buffer. *)
Theorem mystrlcat_unterminated_overrun dst src :
  nonul dst → mystrlcat dst src (length dst) = None.
Proof.
  intros Hn. unfold mystrlcat.
  rewrite (scan_dst_overrun dst (length dst) 0) by (rewrite ?drop_0; auto).
  reflexivity.
Qed.

Lemma mystrlcat_unterminated_overrun_witness :
  nonul ["a"; "b"]%char
  ∧ mystrlcat ["a"; "b"]%char ["x"; NUL]%char (length ["a"; "b"]%char) = None.
Proof.
  assert (H : nonul ["a"; "b"]%char) by (repeat constructor).
  split; [exact H|].
  apply (mystrlcat_unterminated_overrun ["a"; "b"]%char ["x"; NUL]%char H).
Defined.

(** X3 ([mystrlcat]). The returned value tells truncation, as for
    strlcat: for a terminated [dst] shorter than [size], the value returned
    is below [size] exactly when the string left in [dst] is the whole
    concatenation of the two strings. *)
Theorem mystrlcat_truncation_signal dst src size dl sl :
  strlen dst = Some dl → dl < size → size ≤ length dst →
  strlen src = Some sl →
  (Z.of_nat dl + Z.of_nat sl < SIZE_MAX1)%Z →
  ∃ dst' ret,
    mystrlcat dst src size = Some (dst', ret)
    ∧ ((ret < Z.of_nat size)%Z ↔ cstr dst' = cstr dst ++ cstr src).
Proof.
  intros Hd Hlt Hsize Hs Hfit.
  destruct (mystrlcat_strings dst src size dl sl Hd Hlt Hsize Hs)
    as (-> & Ed & Es).
  do 2 eexists. split; [reflexivity|].
  destruct (strlcat_result_cstr (cstr dst) (cstr src) size (drop size dst)
              (nonul_cstr dst) (nonul_cstr src) ltac:(lia)) as [-> _].
  unfold size_t. rewrite Z.mod_small by lia. split.
  - intros Hret. apply take_ge. rewrite length_app. lia.
  - intros E. apply (f_equal length) in E.
    rewrite length_take, length_app in E. lia.
Qed.

Lemma mystrlcat_truncation_signal_witness :
  strlen ["a"; NUL; "z"; "z"]%char = Some 1
  ∧ 1 < 3 ∧ 3 ≤ length ["a"; NUL; "z"; "z"]%char
  ∧ strlen ["b"; "c"; NUL]%char = Some 2
  ∧ (Z.of_nat 1 + Z.of_nat 2 < SIZE_MAX1)%Z
  ∧ ∃ dst' ret,
      mystrlcat ["a"; NUL; "z"; "z"]%char ["b"; "c"; NUL]%char 3
      = Some (dst', ret)
      ∧ ((ret < Z.of_nat 3)%Z
         ↔ cstr dst' = cstr ["a"; NUL; "z"; "z"]%char
                       ++ cstr ["b"; "c"; NUL]%char).
Proof.
  split; [reflexivity|]. split; [lia|]. split; [simpl; lia|].
  split; [reflexivity|]. split; [reflexivity|].
  apply (mystrlcat_truncation_signal ["a"; NUL; "z"; "z"]%char
           ["b"; "c"; NUL]%char 3 1 2);
    [reflexivity | lia | simpl; lia | reflexivity | reflexivity].
Defined.

(** X4 ([mystrlcat]). Two concatenations into the same buffer leave what
    one concatenation of the two sources joined leaves: the string in the
    buffer is the first [size - 1] characters of the three strings in a
    row, and the buffers are equal byte for byte. *)
Theorem mystrlcat_twice dst src1 src2 size dl sl1 sl2 :
  strlen dst = Some dl → dl < size → size ≤ length dst →
  strlen src1 = Some sl1 → strlen src2 = Some sl2 →
  ∃ dst1 r1 dst2 r2 r12,
    mystrlcat dst src1 size = Some (dst1, r1)
    ∧ mystrlcat dst1 src2 size = Some (dst2, r2)
    ∧ cstr dst2 = take (size - 1) (cstr dst ++ cstr src1 ++ cstr src2)
    ∧ mystrlcat dst (cstr src1 ++ cstr src2 ++ [NUL]) size = Some (dst2, r12).
Proof.
  intros Hd Hlt Hsize Hs1 Hs2.
  assert (Hsz : 0 < size) by lia.
  destruct (mystrlcat_strings dst src1 size dl sl1 Hd Hlt Hsize Hs1)
    as (H1 & Ed & Es1).
  set (dst1 := strlcat_result (cstr dst) (cstr src1) size ++ drop size dst)
    in *.
  destruct (strlcat_result_cstr (cstr dst) (cstr src1) size (drop size dst)
              (nonul_cstr dst) (nonul_cstr src1) Hsz) as [Hc1 Hl1].
  fold dst1 in Hc1, Hl1.
  assert (Hlen1 : length dst1 = length dst).
  { unfold dst1. rewrite length_app, strlcat_result_length, length_drop by lia.
    lia. }
  assert (Hdrop1 : drop size dst1 = drop size dst).
  { unfold dst1. rewrite drop_app_length'; [reflexivity|].
    rewrite strlcat_result_length; lia. }
  destruct (mystrlcat_strings dst1 src2 size _ sl2 Hl1
              ltac:(rewrite length_take; lia) ltac:(lia) Hs2)
    as (H2 & _ & Es2).
  assert (Hs12 : strlen (cstr src1 ++ cstr src2 ++ [NUL])
                 = Some (length (cstr src1 ++ cstr src2))).
  { rewrite app_assoc. apply strlen_app_nul, Forall_app.
    split; apply nonul_cstr. }
  assert (Hc12 : cstr (cstr src1 ++ cstr src2 ++ [NUL])
                 = cstr src1 ++ cstr src2).
  { rewrite app_assoc. apply cstr_app_nul, Forall_app.
    split; apply nonul_cstr. }
  destruct (mystrlcat_strings dst _ size dl _ Hd Hlt Hsize Hs12)
    as (H12 & _ & _).
  rewrite Hc12 in H12.
  assert (Hbuf : strlcat_result (cstr dst1) (cstr src2) size
                 = strlcat_result (cstr dst) (cstr src1 ++ cstr src2) size).
  { unfold strlcat_result. cbv zeta. rewrite Hc1, take_take_app, app_assoc.
    reflexivity. }
  exists dst1, (size_t (Z.of_nat dl + Z.of_nat sl1)).
  eexists. eexists. eexists.
  split; [exact H1|]. split; [exact H2|]. split.
  - destruct (strlcat_result_cstr (cstr dst1) (cstr src2) size
                (drop size dst1) (nonul_cstr dst1) (nonul_cstr src2) Hsz)
      as [-> _].
    rewrite Hc1, take_take_app, app_assoc. reflexivity.
  - rewrite H12, Hbuf, Hdrop1. reflexivity.
Qed.

Lemma mystrlcat_twice_witness :
  strlen ["a"; NUL; "z"; "z"; "z"; "z"]%char = Some 1
  ∧ 1 < 5 ∧ 5 ≤ length ["a"; NUL; "z"; "z"; "z"; "z"]%char
  ∧ strlen ["b"; "c"; NUL]%char = Some 2
  ∧ strlen ["d"; "e"; NUL]%char = Some 2
  ∧ ∃ dst1 r1 dst2 r2 r12,
      mystrlcat ["a"; NUL; "z"; "z"; "z"; "z"]%char ["b"; "c"; NUL]%char 5
      = Some (dst1, r1)
      ∧ mystrlcat dst1 ["d"; "e"; NUL]%char 5 = Some (dst2, r2)
      ∧ cstr dst2
        = take (5 - 1) (cstr ["a"; NUL; "z"; "z"; "z"; "z"]%char
                          ++ cstr ["b"; "c"; NUL]%char
                          ++ cstr ["d"; "e"; NUL]%char)
      ∧ mystrlcat ["a"; NUL; "z"; "z"; "z"; "z"]%char
          (cstr ["b"; "c"; NUL]%char ++ cstr ["d"; "e"; NUL]%char ++ [NUL]) 5
        = Some (dst2, r12).
Proof.
  split; [reflexivity|]. split; [lia|]. split; [simpl; lia|].
  split; [reflexivity|]. split; [reflexivity|].
  apply (mystrlcat_twice ["a"; NUL; "z"; "z"; "z"; "z"]%char
           ["b"; "c"; NUL]%char ["d"; "e"; NUL]%char 5 1 2 2);
    [reflexivity | lia | simpl; lia | reflexivity | reflexivity].
Defined.

(** X5 ([mystrlcat], lines 356-358). After a concatenation into a
    terminated [dst] shorter than [size], every byte from the end of the
    resulting string up to offset [size - 1] is NUL, whatever the buffer
    held there before. *)
Theorem mystrlcat_zero_fills dst src size dl sl :
  strlen dst = Some dl → dl < size → size ≤ length dst →
  strlen src = Some sl →
  ∃ dst' ret n,
    mystrlcat dst src size = Some (dst', ret)
    ∧ strlen dst' = Some n
    ∧ ∀ k, n ≤ k < size → dst' !! k = Some NUL.
Proof.
  intros Hd Hlt Hsize Hs.
  destruct (mystrlcat_strings dst src size dl sl Hd Hlt Hsize Hs)
    as (-> & _ & _).
  destruct (strlcat_result_cstr (cstr dst) (cstr src) size (drop size dst)
              (nonul_cstr dst) (nonul_cstr src) ltac:(lia)) as [_ Hlen].
  do 3 eexists. split; [reflexivity|]. split; [exact Hlen|].
  intros k [Hk1 Hk2]. unfold strlcat_result. cbv zeta.
  set (kept := take (size - 1) (cstr dst ++ cstr src)) in *.
  assert (length kept ≤ size - 1) by (unfold kept; rewrite length_take; lia).
  rewrite <- app_assoc, lookup_app_r by lia.
  rewrite lookup_app_l by (rewrite length_replicate; lia).
  apply lookup_replicate_2. lia.
Qed.

Lemma mystrlcat_zero_fills_witness :
  strlen ["a"; NUL; "z"; "z"; "z"; "z"]%char = Some 1
  ∧ 1 < 5 ∧ 5 ≤ length ["a"; NUL; "z"; "z"; "z"; "z"]%char
  ∧ strlen ["b"; NUL]%char = Some 1
  ∧ ∃ dst' ret n,
      mystrlcat ["a"; NUL; "z"; "z"; "z"; "z"]%char ["b"; NUL]%char 5
      = Some (dst', ret)
      ∧ strlen dst' = Some n
      ∧ ∀ k, n ≤ k < 5 → dst' !! k = Some NUL.
Proof.
  split; [reflexivity|]. split; [lia|]. split; [simpl; lia|].
  split; [reflexivity|].
  apply (mystrlcat_zero_fills ["a"; NUL; "z"; "z"; "z"; "z"]%char
           ["b"; NUL]%char 5 1 1);
    [reflexivity | lia | simpl; lia | reflexivity].
Defined.

End StrlcatEdges.

(** ** The response of send_thread *)

Section ResponseEdges.

Lemma line_of_clean bytes :
  Forall (λ c, c ≠ NUL ∧ c ≠ CR ∧ c ≠ LF) (line_of bytes).
Proof.
  induction bytes as [|c t IH]; simpl; [constructor|].
  destruct (is_nul c) eqn:En; simpl; [constructor|].
  destruct (Ascii.eqb c CR) eqn:Ec; simpl; [constructor|].
  destruct (Ascii.eqb c LF) eqn:El; simpl; constructor; [|exact IH].
  unfold is_nul in En.
  apply Ascii.eqb_neq in En, Ec, El. auto.
Qed.

(** X6 ([send_thread], lines 405-430). When the first line of the
    received bytes and the suffix fit the buffer with its terminator, the
    bytes sent are exactly that line followed by [":OK\r\n"], the line
    logged is the line sent, and the line holds no NUL, CR or LF: the
    response is one line. *)
Theorem response_single_line fd bytes b0 send_ret :
  length b0 = BUFSZ → (length bytes < BUFSZ)%nat →
  (length (line_of bytes) + length OK_suffix < BUFSZ)%nat →
  ∃ e', respond (received_into fd bytes b0) send_ret
        = Some (e',
                Fprintf (MsgChild fd (line_of bytes))
                  :: Send fd (line_of bytes ++ [":"; "O"; "K"; CR; LF]%char)
                  :: (if send_ret =? -1 then [Perror "send"] else []))
        ∧ Forall (λ c, c ≠ NUL ∧ c ≠ CR ∧ c ≠ LF) (line_of bytes).
Proof.
  intros H0 Hb Hroom.
  destruct (respond_received fd bytes b0 send_ret H0 Hb) as (e' & He').
  exists e'. split; [|apply line_of_clean].
  rewrite He'. rewrite take_ge; [reflexivity|].
  rewrite length_app. unfold BUFSZ in *. lia.
Qed.

Lemma response_single_line_witness :
  length (replicate BUFSZ NUL) = BUFSZ
  ∧ (length (list_ascii_of_string "a b" ++ [CR; LF]) < BUFSZ)%nat
  ∧ (length (line_of (list_ascii_of_string "a b" ++ [CR; LF]))
     + length OK_suffix < BUFSZ)%nat
  ∧ ∃ e', respond (received_into 4 (list_ascii_of_string "a b" ++ [CR; LF])
                     (replicate BUFSZ NUL)) 8
          = Some (e',
                  Fprintf (MsgChild 4 (line_of (list_ascii_of_string "a b"
                                                  ++ [CR; LF])))
                    :: Send 4 (line_of (list_ascii_of_string "a b"
                                          ++ [CR; LF])
                                 ++ [":"; "O"; "K"; CR; LF]%char)
                    :: (if 8 =? -1 then [Perror "send"] else []))
          ∧ Forall (λ c, c ≠ NUL ∧ c ≠ CR ∧ c ≠ LF)
              (line_of (list_ascii_of_string "a b" ++ [CR; LF])).
Proof.
  split; [reflexivity|]. split; [vm_compute; lia|]. split; [vm_compute; lia|].
  apply (response_single_line 4 (list_ascii_of_string "a b" ++ [CR; LF])
           (replicate BUFSZ NUL) 8);
    [reflexivity | vm_compute; lia | vm_compute; lia].
Defined.

(** X7 ([send_thread], lines 419-428). When the first line of the
    received bytes and the suffix do not fit the buffer, the response is
    cut to 511 bytes and holds no line feed: the peer receives a response
    without its end of line. *)
Theorem response_long_line_unterminated fd bytes b0 send_ret :
  length b0 = BUFSZ → (length bytes < BUFSZ)%nat →
  (BUFSZ ≤ length (line_of bytes) + length OK_suffix)%nat →
  ∃ e' sent,
    respond (received_into fd bytes b0) send_ret
    = Some (e',
            Fprintf (MsgChild fd (line_of bytes))
              :: Send fd sent
              :: (if send_ret =? -1 then [Perror "send"] else []))
    ∧ length sent = (BUFSZ - 1)%nat ∧ LF ∉ sent.
Proof.
  intros H0 Hb Hlong.
  destruct (respond_received fd bytes b0 send_ret H0 Hb) as (e' & He').
  exists e', (take (BUFSZ - 1) (line_of bytes ++ OK_suffix)).
  split; [exact He'|]. split.
  - rewrite length_take, length_app. lia.
  - rewrite take_app. rewrite not_elem_of_app. split.
    + intros (i & Hi & _)%elem_of_take.
      pose proof (line_of_clean bytes) as Hc.
      rewrite Forall_forall in Hc.
      apply list_elem_of_lookup_2, Hc in Hi. tauto.
    + pose proof (length_line_of bytes) as Hl.
      assert (Hk : (BUFSZ - 1 - length (line_of bytes) ≤ 4)%nat)
        by (unfold OK_suffix in Hlong; simpl in Hlong; lia).
      intros (i & Hi & Hlt)%elem_of_take.
      do 4 (destruct i as [|i]; [discriminate|]). lia.
Qed.

Lemma response_long_line_unterminated_witness :
  length (replicate BUFSZ NUL) = BUFSZ
  ∧ (length (replicate 510 "a"%char) < BUFSZ)%nat
  ∧ (BUFSZ ≤ length (line_of (replicate 510 "a"%char)) + length OK_suffix)%nat
  ∧ ∃ e' sent,
      respond (received_into 4 (replicate 510 "a"%char)
                 (replicate BUFSZ NUL)) 8
      = Some (e',
              Fprintf (MsgChild 4 (line_of (replicate 510 "a"%char)))
                :: Send 4 sent
                :: (if 8 =? -1 then [Perror "send"] else []))
      ∧ length sent = (BUFSZ - 1)%nat ∧ LF ∉ sent.
Proof.
  split; [reflexivity|]. split; [vm_compute; lia|]. split; [vm_compute; lia|].
  apply (response_long_line_unterminated 4 (replicate 510 "a"%char)
           (replicate BUFSZ NUL) 8);
    [reflexivity | vm_compute; lia | vm_compute; lia].
Defined.

(** X8 ([send_thread], line 405). On an element whose buffer has its 512
    bytes, the work of [send_thread] stays inside the buffer exactly when
    the stored [len] is between 0 and 511: the only access that can leave
    the buffer is the store of the terminator at [buf[len]]. *)
Theorem respond_defined_iff e send_ret :
  length (buf e) = BUFSZ →
  (is_Some (respond e send_ret) ↔ 0 <= len e < Z.of_nat BUFSZ).
Proof.
  intros Hlen. split.
  - intros [r Hr]. unfold respond in Hr.
    apply bind_Some in Hr as (b1 & Hb1 & _).
    unfold storeZ in Hb1.
    destruct (Z.leb_spec 0 (len e)); [|discriminate].
    destruct (Z.ltb_spec (len e) (Z.of_nat (length (buf e)))); [|discriminate].
    lia.
  - intros [Hl0 Hl1]. destruct e as [a b l]. cbn [buf len] in *.
    rewrite <- (take_drop (Z.to_nat l) b).
    replace l with (Z.of_nat (length (take (Z.to_nat l) b))) at 3
      by (rewrite length_take; lia).
    destruct (respond_spec a (take (Z.to_nat l) b) (drop (Z.to_nat l) b)
                send_ret) as (e' & -> & _); [| |eauto].
    + rewrite length_take, length_drop. lia.
    + intros E. apply (f_equal length) in E. rewrite length_drop in E.
      simpl in E. lia.
Qed.

Lemma respond_defined_iff_witness :
  length (buf zero_data) = BUFSZ
  ∧ (is_Some (respond zero_data 8) ↔ 0 <= len zero_data < Z.of_nat BUFSZ).
Proof.
  split; [reflexivity|].
  apply (respond_defined_iff zero_data 8). reflexivity.
Defined.

End ResponseEdges.

(** ** What the ring owes to a descriptor *)

Section Fifo.

(** A store outside the [n] indices met from [i] does not change them. *)
Lemma slots_from_insert_outside d l e : ∀ n i,
  0 <= i < MAXQUEUESZ → 0 <= l < MAXQUEUESZ →
  Z.of_nat n <= (l - i) mod MAXQUEUESZ →
  slots_from (<[Z.to_nat l := e]> d) i n = slots_from d i n.
Proof.
  induction n as [|n IH]; intros i Hi Hl Hocc; [reflexivity|].
  rewrite !slots_from_S.
  assert (i ≠ l) by ring_lia.
  assert (Hnth : nthZ (<[Z.to_nat l := e]> d) i = nthZ d i).
  { unfold nthZ. destruct (i <? 0); [reflexivity|].
    apply list_lookup_insert_ne. lia. }
  rewrite Hnth. destruct (nthZ d i); [|reflexivity].
  rewrite IH; [reflexivity| |assumption|].
  - apply QUEUE_NEXT_range, Hi.
  - rewrite QUEUE_NEXT_mod by lia. ring_lia.
Qed.

(** Writing the slot at [last] without advancing leaves [pending]. *)
Lemma pending_store_last q e :
  wf_queue q →
  pending {| front := front q; last := last q;
             data := <[Z.to_nat (last q) := e]> (data q) |} = pending q.
Proof.
  intros (Hf & Hl & Hd). unfold pending, occupancy. cbn [front last data].
  apply slots_from_insert_outside; try assumption.
  rewrite Z2Nat.id; [lia|]. apply Z.mod_pos_bound. reflexivity.
Qed.


Lemma nthZ_insert_ne {A} (l : list A) i j x :
  0 <= i → i ≠ j → nthZ (<[Z.to_nat i := x]> l) j = nthZ l j.
Proof.
  intros Hi Hne. unfold nthZ. destruct (Z.ltb_spec j 0); [reflexivity|].
  apply list_lookup_insert_ne. lia.
Qed.

Lemma sent_on_app fd t1 t2 :
  sent_on fd (t1 ++ t2) = sent_on fd t1 ++ sent_on fd t2.
Proof.
  induction t1 as [|a t1 IH]; [reflexivity|].
  destruct a; simpl; try exact IH.
  destruct (_ =? _); simpl; rewrite IH; reflexivity.
Qed.

Lemma recv_length pending b :
  length b = BUFSZ → length (recv pending b BUFSZ).1 = BUFSZ.
Proof.
  intros Hb. unfold recv. destruct pending as [bytes|]; [|exact Hb].
  cbn [fst]. rewrite length_app, length_drop, length_take. lia.
Qed.

Lemma payload_received fd bytes b0 :
  length b0 = BUFSZ →
  payload (received_into fd bytes b0) = take BUFSZ bytes.
Proof.
  intros Hb. unfold payload, received_into, recv. cbn [fst snd len buf].
  rewrite Nat2Z.id. apply take_app_length.
Qed.

(** [respond] on any element whose terminator store is in bounds. *)
Lemma respond_payload e send_ret :
  length (buf e) = BUFSZ → 0 <= len e < Z.of_nat BUFSZ →
  ∃ e',
    respond e send_ret
    = Some (e',
            Fprintf (MsgChild (acc e) (line_of (payload e)))
              :: Send (acc e) (answer (payload e))
              :: (if send_ret =? -1 then [Perror "send"] else []))
    ∧ length (buf e') = BUFSZ.
Proof.
  intros Hlen [Hl0 Hl1]. destruct e as [a b l]. cbn [buf len acc] in *.
  unfold payload, answer. cbn [buf len].
  destruct (respond_spec a (take (Z.to_nat l) b) (drop (Z.to_nat l) b)
              send_ret) as (e' & He' & _ & Hb').
  - rewrite length_take, length_drop. lia.
  - intros E. apply (f_equal length) in E. rewrite length_drop in E.
    simpl in E. lia.
  - rewrite take_drop in He'.
    replace (Z.of_nat (length (take (Z.to_nat l) b))) with l in He'
      by (rewrite length_take; lia).
    exists e'. split; [exact He' | exact Hb'].
Qed.

Lemma on_listen_sent o w w' fd :
  on_listen o w = Some w' → sent_on fd (trace w') = sent_on fd (trace w).
Proof.
  unfold on_listen. intros H.
  repeat (case_match; simplify_eq);
    cbn [trace emit loop_return set_interest];
    rewrite ?sent_on_app; cbn [sent_on]; rewrite ?app_nil_r; reflexivity.
Qed.

Lemma teardown_sent fd' o w fd :
  sent_on fd (trace (teardown fd' o w)) = sent_on fd (trace w).
Proof.
  unfold teardown. destruct (epoll_ctl_del _ _ _);
    cbn [trace emit loop_return set_interest];
    rewrite ?sent_on_app; cbn [sent_on]; rewrite ?app_nil_r; reflexivity.
Qed.

Lemma omap_singleton {A B} (f : A → option B) x :
  omap f [x] = match f x with Some y => [y] | None => [] end.
Proof. reflexivity. Qed.

Lemma owed_cons fd e l q q' :
  pending q = e :: l → pending q' = l →
  owed fd q = (if decide (acc e = fd) then [answer (payload e)] else [])
              ++ owed fd q'.
Proof.
  intros Hq Hq'. unfold owed. rewrite Hq, Hq', filter_cons.
  destruct (decide (acc e = fd)); reflexivity.
Qed.

Lemma owed_snoc fd e q q' :
  pending q' = pending q ++ [e] →
  owed fd q' = owed fd q
               ++ (if decide (acc e = fd) then [answer (payload e)] else []).
Proof.
  intros Hq'. unfold owed. rewrite Hq', filter_app, fmap_app.
  f_equal. rewrite filter_cons, filter_nil.
  destruct (decide (acc e = fd)); reflexivity.
Qed.

Lemma request_of_other fd ev :
  data_fd ev ≠ fd → request_of fd ev = None.
Proof.
  intros Hne. unfold request_of.
  destruct (Z.eqb_spec (data_fd ev) fd); [contradiction|reflexivity].
Qed.

Lemma respond_in_bounds e send_ret r :
  respond e send_ret = Some r → 0 <= len e < Z.of_nat (length (buf e)).
Proof.
  unfold respond. intros Hr. apply bind_Some in Hr as (b1 & Hb1 & _).
  unfold storeZ in Hb1.
  destruct (Z.leb_spec 0 (len e)); [|discriminate].
  destruct (Z.ltb_spec (len e) (Z.of_nat (length (buf e)))); [|discriminate].
  lia.
Qed.

End Fifo.

(** ** The loop and the senders *)

Section LoopEdges.

Lemma length_slots_from d : ∀ n i,
  length d = Z.to_nat MAXQUEUESZ → 0 <= i < MAXQUEUESZ →
  length (slots_from d i n) = n.
Proof.
  induction n as [|n IH]; intros i Hd Hi; [reflexivity|].
  rewrite slots_from_S.
  destruct (nthZ_Some d i) as [e ->]; [rewrite Hd; lia|].
  cbn [length]. rewrite IH; [reflexivity|exact Hd|].
  apply QUEUE_NEXT_range, Hi.
Qed.

Lemma length_pending q :
  wf_queue q → length (pending q) = Z.to_nat (occupancy q).
Proof.
  intros (Hf & Hl & Hd). unfold pending. apply length_slots_from; assumption.
Qed.

(** X10 ([accept_loop], lines 272-278 and 304-314). A read that
    succeeds while [MAXQUEUESZ - 1] elements wait in the queue of the
    connection's shard leaves that queue with [last = front]: the 4095
    waiting elements are no longer seen by the sender, whatever they
    were. *)
Theorem read_at_capacity_drops_queue fd o w q bytes :
  wf_world w → 0 <= fd →
  recv_pending o = Some bytes → bytes ≠ [] →
  nthZ (g_queue w) (Z.rem fd MAXSENDER) = Some q →
  occupancy q = MAXQUEUESZ - 1 →
  ∃ w' q',
    on_conn fd o w = Some w'
    ∧ nthZ (g_queue w') (Z.rem fd MAXSENDER) = Some q'
    ∧ last q' = front q' ∧ pending q' = []
    ∧ length (pending q) = Z.to_nat (MAXQUEUESZ - 1).
Proof.
  intros Hwf Hfd Hrecv Hbytes Hq Hocc.
  pose proof (shard_range fd Hfd) as [Hqi _].
  destruct (on_conn_enqueue fd o w bytes Hwf Hqi Hrecv Hbytes)
    as (q0 & slot & Hq0 & Hslot & Hrun).
  rewrite Hq in Hq0. injection Hq0 as <-.
  pose proof (nthZ_wf _ _ _ (proj2 Hwf) Hq) as Hwq.
  destruct (pending_enqueue_full (received_into fd bytes (buf slot)) q Hwq Hocc)
    as [Hlast Hpend].
  eexists. eexists. split; [exact Hrun|]. cbn [g_queue set_queues].
  split; [apply nthZ_insert_eq, (nthZ_Some_inv _ _ _ Hq)|].
  split; [exact Hlast|]. split; [exact Hpend|].
  rewrite length_pending by exact Hwq. rewrite Hocc. reflexivity.
Qed.

Lemma wf_brim_world : wf_world brim_world.
Proof.
  split; [reflexivity|]. cbn [g_queue brim_world].
  constructor; [|constructor; [|constructor]].
  - unfold wf_queue. cbn [front last data]. rewrite length_replicate.
    unfold MAXQUEUESZ. lia.
  - unfold wf_queue, zero_queue. cbn [front last data].
    rewrite length_replicate. unfold MAXQUEUESZ. lia.
Qed.

Lemma read_at_capacity_drops_queue_witness :
  wf_world brim_world ∧ 0 <= 4
  ∧ recv_pending (answers (readable 4 "late" [])) = Some (list_ascii_of_string "late" ++ [])
  ∧ list_ascii_of_string "late" ++ [] ≠ []
  ∧ nthZ (g_queue brim_world) (Z.rem 4 MAXSENDER) = Some brim_queue
  ∧ occupancy brim_queue = MAXQUEUESZ - 1
  ∧ ∃ w' q',
      on_conn 4 (answers (readable 4 "late" [])) brim_world = Some w'
      ∧ nthZ (g_queue w') (Z.rem 4 MAXSENDER) = Some q'
      ∧ last q' = front q' ∧ pending q' = []
      ∧ length (pending brim_queue) = Z.to_nat (MAXQUEUESZ - 1).
Proof.
  split; [apply wf_brim_world|]. split; [lia|]. split; [reflexivity|].
  split; [discriminate|]. split; [reflexivity|]. split; [reflexivity|].
  apply (read_at_capacity_drops_queue 4 (answers (readable 4 "late" []))
           brim_world brim_queue (list_ascii_of_string "late" ++ []));
    [apply wf_brim_world | lia | reflexivity | discriminate
    | reflexivity | reflexivity].
Defined.

Lemma loop_turn_defined soc r w :
  wf_world w → plausible soc r → is_Some (accept_loop_turn soc r w).
Proof.
  intros Hwf Hr.
  unfold accept_loop_turn. destruct (looping w); [|eauto].
  destruct r as [| |evs]; [eauto|eauto|].
  cbn [plausible] in Hr.
  assert (Hwf0 : wf_world (emit (Fprintf (MsgChildCount (count w))) w))
    by exact Hwf.
  revert Hwf0. generalize (emit (Fprintf (MsgChildCount (count w))) w).
  induction Hr as [|ev evs Hev _ IH]; intros w0 Hwf0; cbn [dispatch_all];
    [eauto|].
  destruct (looping w0); [|eauto].
  assert (Hd : is_Some (dispatch soc ev w0)).
  { unfold dispatch. destruct (Z.eqb_spec (data_fd ev) soc) as [E|Hne].
    - unfold on_listen. repeat case_match; eauto.
    - destruct Hev as [?|Hfd]; [contradiction|].
      destruct (on_conn_spec (data_fd ev) (answers ev) w0 Hwf0
                  (proj1 (shard_range _ Hfd))) as (q & slot & _ & _ & ->).
      eauto. }
  destruct Hd as [w1 Hw1]. rewrite Hw1. cbn [mbind option_bind].
  apply IH. apply (dispatch_wf soc ev w0 w1 Hwf0 Hw1).
Qed.

(** X11 ([accept_loop]). In every state reached from the start of the
    loop by turns of the loop and of the senders, a turn of the loop whose
    ready descriptors are the listening socket or non-negative stays
    inside [g_queue] and inside the ring of the shard: no index is out of
    bounds on the side of [accept_loop]. *)
Theorem accept_loop_in_bounds soc sts w r :
  run soc sts (init_world soc) = Some w → plausible soc r →
  is_Some (accept_loop_turn soc r w).
Proof.
  intros Hrun Hr. apply loop_turn_defined; [|exact Hr].
  apply (reachable_wf soc sts w Hrun).
Qed.

Lemma accept_loop_in_bounds_witness :
  run 3 [arrives 3 4] (init_world 3) = Some one_connection
  ∧ plausible 3 (WaitReady [readable 4 "hello" [CR; LF]; incoming 3 5])
  ∧ is_Some (accept_loop_turn 3
               (WaitReady [readable 4 "hello" [CR; LF]; incoming 3 5])
               one_connection).
Proof.
  assert (Hp : plausible 3 (WaitReady [readable 4 "hello" [CR; LF];
                                        incoming 3 5])).
  { constructor; [right; cbn; lia|]. constructor; [left; reflexivity|].
    constructor. }
  split; [reflexivity|]. split; [exact Hp|].
  apply (accept_loop_in_bounds 3 [arrives 3 4] one_connection _ eq_refl Hp).
Defined.

(** X12 ([accept_loop], lines 220-258 and 281-302). Admitting a
    connection and then tearing it down on a read that returns 0 or -1
    puts the registry and the counter back where they were; in between the
    descriptor is registered and counted, and the last action is the close
    of that descriptor. *)
Theorem register_then_teardown_restores soc o1 o2 w :
  wf_world w → 0 <= accept_ret o1 → accept_ret o1 ≠ soc →
  accept_ret o1 ∉ interest w → count w + 1 < MAX_CHILD →
  ctl_ok o1 = true → ctl_ok o2 = true → read_result o2 <= 0 →
  ∃ w1 w2,
    dispatch soc (Event soc o1) w = Some w1
    ∧ dispatch soc (Event (accept_ret o1) o2) w1 = Some w2
    ∧ accept_ret o1 ∈ interest w1 ∧ count w1 = count w + 1
    ∧ interest w2 = interest w ∧ count w2 = count w
    ∧ ∃ log, trace w2 = trace w ++ log ++ [Close (accept_ret o1)].
Proof.
  intros Hwf Hacc Hsoc Hfresh Hroom Hok1 Hok2 Hres.
  destruct (listen_pass soc o1 w ltac:(lia)) as (Hadd & _ & _).
  specialize (Hadd Hroom Hfresh Hok1).
  set (w1 := set_interest ({[accept_ret o1]} ∪ interest w) (count w + 1)
               (emit (Fprintf MsgAccept) w)) in *.
  assert (Hwf1 : wf_world w1) by exact Hwf.
  assert (Hin : accept_ret o1 ∈ interest w1)
    by (cbn [interest w1 set_interest]; set_solver).
  destruct (conn_pass soc (accept_ret o1) o2 w1 Hwf1 Hacc Hsoc Hin Hok2)
    as (w2 & Hw2 & Htorn & _).
  pose proof (read_result_min o2) as Hmin.
  destruct (proj2 Htorn ltac:(lia)) as (Hi & Hc & pre & Ht).
  exists w1, w2. split; [exact Hadd|]. split; [exact Hw2|].
  split; [exact Hin|]. split; [reflexivity|].
  split; [|split].
  - rewrite Hi. cbn [interest w1 set_interest]. set_solver.
  - rewrite Hc. cbn [count w1 set_interest]. lia.
  - exists (Fprintf MsgAccept :: pre). rewrite Ht.
    cbn [trace w1 set_interest emit]. rewrite <- !app_assoc. reflexivity.
Qed.

Lemma register_then_teardown_restores_witness :
  wf_world (init_world 3) ∧ 0 <= accept_ret (answers (incoming 3 4))
  ∧ accept_ret (answers (incoming 3 4)) ≠ 3
  ∧ (accept_ret (answers (incoming 3 4)) ∉ interest (init_world 3))
  ∧ count (init_world 3) + 1 < MAX_CHILD
  ∧ ctl_ok (answers (incoming 3 4)) = true ∧ ctl_ok (hangup 4) = true
  ∧ read_result (hangup 4) <= 0
  ∧ ∃ w1 w2,
      dispatch 3 (Event 3 (answers (incoming 3 4))) (init_world 3) = Some w1
      ∧ dispatch 3 (Event (accept_ret (answers (incoming 3 4))) (hangup 4)) w1
        = Some w2
      ∧ accept_ret (answers (incoming 3 4)) ∈ interest w1
      ∧ count w1 = count (init_world 3) + 1
      ∧ interest w2 = interest (init_world 3)
      ∧ count w2 = count (init_world 3)
      ∧ ∃ log, trace w2 = trace (init_world 3) ++ log
                          ++ [Close (accept_ret (answers (incoming 3 4)))].
Proof.
  assert (Hfresh : accept_ret (answers (incoming 3 4)) ∉ interest (init_world 3))
    by (cbn; set_solver).
  split; [apply wf_init|]. split; [cbn; lia|]. split; [cbn; lia|].
  split; [exact Hfresh|]. split; [reflexivity|]. split; [reflexivity|].
  split; [reflexivity|]. split; [cbn; lia|].
  apply (register_then_teardown_restores 3 (answers (incoming 3 4)) (hangup 4)
           (init_world 3) (wf_init 3));
    [cbn; lia | cbn; lia | exact Hfresh | reflexivity | reflexivity
    | reflexivity | cbn; lia].
Defined.

(** X13 ([send_thread]). A turn of the sender of queue [qi] changes no
    other queue, changes neither the registry, the counter nor the state of
    the loop, and closes no descriptor: whatever it adds to the trace is
    log, send or perror. *)
Theorem sender_touches_own_queue_only qi n w w' :
  send_thread_turn qi n w = Some w' →
  (∀ qj, qj ≠ qi → nthZ (g_queue w') qj = nthZ (g_queue w) qj)
  ∧ interest w' = interest w ∧ count w' = count w ∧ looping w' = looping w
  ∧ ∃ acts, trace w' = trace w ++ acts
            ∧ Forall (λ a, closes a = false) acts.
Proof.
  intros H. pose proof (send_thread_turn_frame _ _ _ _ H) as (Hi & Hc & Hl).
  split; [|split; [exact Hi|split; [exact Hc|split; [exact Hl|]]]].
  - unfold send_thread_turn in H.
    apply bind_Some in H as ([popped w1] & Hpop & H).
    unfold worker_pop in Hpop.
    apply bind_Some in Hpop as (q & Hq & Hpop).
    pose proof (nthZ_Some_inv _ _ _ Hq) as Hqi.
    intros qj Hne.
    destruct (negb _).
    + apply bind_Some in Hpop as (qs & Hqs & Hpop). injection Hpop as <- <-.
      apply storeZ_inv in Hqs as ->.
      unfold worker_respond in H. cbn [g_queue set_queues] in H.
      apply bind_Some in H as (q1 & _ & H).
      apply bind_Some in H as (e & _ & H).
      apply bind_Some in H as ([e' acts] & _ & H).
      apply bind_Some in H as (slots & _ & H).
      apply bind_Some in H as (qs & Hqs & H). injection H as <-.
      apply storeZ_inv in Hqs as ->. cbn [g_queue].
      rewrite !nthZ_insert_ne by (lia || congruence). reflexivity.
    + injection Hpop as <- <-. injection H as <-. reflexivity.
  - unfold send_thread_turn in H.
    apply bind_Some in H as ([popped w1] & Hpop & H).
    apply worker_pop_frame in Hpop as (_ & _ & _ & Ht).
    destruct popped as [i|].
    + unfold worker_respond in H.
      apply bind_Some in H as (q1 & _ & H).
      apply bind_Some in H as (e & _ & H).
      apply bind_Some in H as ([e' acts] & Hr & H).
      apply bind_Some in H as (slots & _ & H).
      apply bind_Some in H as (qs & _ & H). injection H as <-.
      exists acts. cbn [trace]. rewrite Ht. split; [reflexivity|].
      unfold respond in Hr.
      apply bind_Some in Hr as (b1 & _ & Hr).
      apply bind_Some in Hr as (ptr & _ & Hr).
      apply bind_Some in Hr as ([b3 r] & _ & Hr).
      apply bind_Some in Hr as (k & _ & Hr). injection Hr as _ <-.
      destruct (n =? -1); repeat constructor.
    + injection H as <-. exists []. rewrite Ht, app_nil_r.
      split; [reflexivity|constructor].
Qed.

Lemma sender_touches_own_queue_only_witness :
  send_thread_turn 0 10 hello_queued = Some hello_answered
  ∧ (∀ qj, qj ≠ 0 →
           nthZ (g_queue hello_answered) qj = nthZ (g_queue hello_queued) qj)
  ∧ interest hello_answered = interest hello_queued
  ∧ count hello_answered = count hello_queued
  ∧ looping hello_answered = looping hello_queued
  ∧ ∃ acts, trace hello_answered = trace hello_queued ++ acts
            ∧ Forall (λ a, closes a = false) acts.
Proof.
  assert (H : send_thread_turn 0 10 hello_queued = Some hello_answered)
    by (apply default_defined; vm_compute; reflexivity).
  split; [exact H|].
  apply (sender_touches_own_queue_only 0 10 hello_queued hello_answered H).
Defined.

End LoopEdges.

(** ** Queues the sender can work on *)

Section SenderBounds.








End SenderBounds.

(** ** The round trip of one request *)

Section Drain.





Lemma sent_on_answer fd e n :
  sent_on fd (Fprintf (MsgChild (acc e) (line_of (payload e)))
                :: Send (acc e) (answer (payload e))
                :: (if n =? -1 then [Perror "send"] else []))
  = if decide (acc e = fd) then [answer (payload e)] else [].
Proof.
  cbn [sent_on]. destruct (Z.eqb_spec (acc e) fd); destruct (decide (acc e = fd));
    try contradiction; destruct (n =? -1); reflexivity.
Qed.





End Drain.

Section RoundTrip.




End RoundTrip.

(** ** The two threads between their critical sections *)

Section QueueInv.

Context (b : Z).

Lemma queue_inv_mono n n' h qi q :
  (n ≤ n')%nat → queue_inv b n h qi q → queue_inv b n' h qi q.
Proof.
  intros Hn (Hwf & Hb & Hocc & Hp & Hh).
  split; [exact Hwf|]. split; [exact Hb|]. split; [lia|]. split; assumption.
Qed.

Lemma held_not_last n i qi q :
  queue_inv b n (Some i) qi q → Z.of_nat n < MAXQUEUESZ → i ≠ last q.
Proof.
  intros ((Hf & Hl & _) & _ & Hocc & _ & Hh) Hn E.
  destruct (Hh i eq_refl) as (Hi & Hnext & _).
  rewrite QUEUE_NEXT_mod in Hnext by lia. unfold occupancy, holds in Hocc.
  subst i. ring_lia.
Qed.

(** The store of [accept_loop] in the slot at [last]. *)
Lemma queue_inv_store_last n h qi q e :
  queue_inv b n h qi q → Z.of_nat n < MAXQUEUESZ →
  length (buf e) = BUFSZ →
  queue_inv b n h qi {| front := front q; last := last q;
                        data := <[Z.to_nat (last q) := e]> (data q) |}.
Proof.
  intros Hq Hn He. pose proof Hq as (Hwf & Hb & Hocc & Hp & Hh).
  pose proof Hwf as (Hf & Hl & Hd).
  split; [|split; [|split; [|split]]].
  - split; [exact Hf|]. split; [exact Hl|]. cbn [data].
    rewrite length_insert. exact Hd.
  - cbn [data]. apply Forall_insert; assumption.
  - exact Hocc.
  - rewrite pending_store_last by exact Hwf. exact Hp.
  - intros i ->. destruct (Hh i eq_refl) as (Hi & Hnext & e0 & He0 & Hg).
    split; [exact Hi|]. split; [exact Hnext|]. exists e0. split; [|exact Hg].
    cbn [data]. rewrite nthZ_insert_ne; [exact He0|lia|].
    intros E. apply (held_not_last n i qi q Hq Hn). congruence.
Qed.

(** [last] advances over the element [e] stored there. *)
Lemma queue_inv_advance n h qi q e :
  queue_inv b n h qi q → Z.of_nat n < MAXQUEUESZ - 1 →
  nthZ (data q) (last q) = Some e → good_entry qi e → len e <= b →
  queue_inv b (S n) h qi {| front := front q; last := QUEUE_NEXT (last q);
                            data := data q |}
  ∧ pending {| front := front q; last := QUEUE_NEXT (last q);
               data := data q |} = pending q ++ [e].
Proof.
  intros Hq Hn He Hg Hle. pose proof Hq as (Hwf & Hb & Hocc & Hp & Hh).
  pose proof Hwf as (Hf & Hl & Hd).
  assert (Hroom : occupancy q < MAXQUEUESZ - 1)
    by (destruct h; cbn [holds] in Hocc; lia).
  assert (E : {| front := front q; last := QUEUE_NEXT (last q);
                 data := data q |} = enqueue e q).
  { unfold enqueue. f_equal. symmetry. apply list_insert_id.
    unfold nthZ in He. destruct (last q <? 0); [discriminate|exact He]. }
  rewrite E. pose proof (pending_enqueue e q Hwf Hroom) as Hpe.
  split; [|exact Hpe].
  split; [apply wf_enqueue, Hwf|]. split; [rewrite <- E; exact Hb|].
  split; [rewrite (occupancy_enqueue e q Hwf Hroom); lia|].
  split.
  - rewrite Hpe. apply Forall_app. split; [exact Hp|].
    constructor; [split; assumption|constructor].
  - rewrite <- E. exact Hh.
Qed.

(** The pop of [send_thread]. *)
Lemma queue_inv_pop n qi q :
  queue_inv b n None qi q → last q ≠ front q →
  ∃ e, nthZ (data q) (front q) = Some e
       ∧ pending q = e :: pending (dequeue q)
       ∧ queue_inv b n (Some (front q)) qi (dequeue q).
Proof.
  intros (Hwf & Hb & Hocc & Hp & _) Hne.
  destruct (pending_dequeue q Hwf Hne) as (e & He & Hpq).
  destruct (occupancy_dequeue q Hwf Hne) as [Ho Hpos].
  exists e. split; [exact He|]. split; [exact Hpq|].
  rewrite Hpq in Hp. apply Forall_cons in Hp as [Hge Hp].
  split; [apply wf_dequeue, Hwf|]. split; [exact Hb|].
  split; [cbn [holds] in *; lia|].
  split; [exact Hp|].
  intros i [= <-]. split; [apply Hwf|]. split; [reflexivity|].
  exists e. split; [exact He|exact Hge].
Qed.

(** The work of [send_thread] on the element it holds. *)
Lemma queue_inv_respond n i qi q e :
  queue_inv b n (Some i) qi q → length (buf e) = BUFSZ →
  queue_inv b n None qi {| front := front q; last := last q;
                           data := <[Z.to_nat i := e]> (data q) |}
  ∧ pending {| front := front q; last := last q;
               data := <[Z.to_nat i := e]> (data q) |} = pending q.
Proof.
  intros (Hwf & Hb & Hocc & Hp & Hh) He.
  pose proof Hwf as (Hf & Hl & Hd).
  destruct (Hh i eq_refl) as (Hi & Hnext & _).
  assert (Hsame : pending {| front := front q; last := last q;
                             data := <[Z.to_nat i := e]> (data q) |}
                  = pending q).
  { unfold pending, occupancy. cbn [front last data].
    apply slots_from_insert_outside; try assumption.
    rewrite Z2Nat.id by (apply Z.mod_pos_bound; reflexivity).
    rewrite QUEUE_NEXT_mod in Hnext by lia. ring_lia. }
  split; [|exact Hsame].
  split; [|split; [|split; [|split]]].
  - split; [exact Hf|]. split; [exact Hl|]. cbn [data].
    rewrite length_insert. exact Hd.
  - cbn [data]. apply Forall_insert; assumption.
  - unfold occupancy in *. cbn [front last holds] in *. lia.
  - rewrite Hsame. exact Hp.
  - intros ? [=].
Qed.

End QueueInv.

Section MachineInv.

Context (b : Z) (soc : Z).

Lemma read_result_le o : read_result o <= Z.of_nat BUFSZ.
Proof.
  unfold read_result. destruct (recv_pending o) as [bytes|]; [|unfold BUFSZ; lia].
  rewrite length_take. lia.
Qed.

Lemma stored_buf fd o b0 : length b0 = BUFSZ → length (buf (stored fd o b0)) = BUFSZ.
Proof. intros H. apply (recv_length (recv_pending o) b0 H). Qed.

Lemma stored_len fd o b0 : len (stored fd o b0) = read_result o.
Proof. apply read_result_recv. Qed.

Lemma queues_update (gq : list queue) qi0 q' n n' (hd hd' : gmap Z Z) :
  (∀ qi q, nthZ gq qi = Some q → queue_inv b n (hd !! qi) qi q) →
  (n ≤ n')%nat →
  (∀ qi, qi ≠ qi0 → hd' !! qi = hd !! qi) →
  0 <= qi0 < Z.of_nat (length gq) →
  queue_inv b n' (hd' !! qi0) qi0 q' →
  ∀ qi q, nthZ (<[Z.to_nat qi0 := q']> gq) qi = Some q →
          queue_inv b n' (hd' !! qi) qi q.
Proof.
  intros Hall Hn Hhd Hr Hq' qi q H.
  destruct (decide (qi = qi0)) as [->|Hne].
  - rewrite nthZ_insert_eq in H by exact Hr. injection H as <-. exact Hq'.
  - rewrite nthZ_insert_ne in H by (lia || congruence).
    rewrite Hhd by exact Hne. apply (queue_inv_mono b n n'); auto.
Qed.

Lemma queues_same (gq : list queue) n n' (hd : gmap Z Z) :
  (∀ qi q, nthZ gq qi = Some q → queue_inv b n (hd !! qi) qi q) →
  (n ≤ n')%nat →
  ∀ qi q, nthZ gq qi = Some q → queue_inv b n' (hd !! qi) qi q.
Proof. intros Hall Hn qi q H. apply (queue_inv_mono b n n'); auto. Qed.

Lemma machine_inv_init : machine_inv b soc (init_machine soc).
Proof.
  split; [reflexivity|]. split; [|split; [|split; [constructor|exact I]]].
  - intros qi q. unfold nthZ. destruct (qi <? 0); [discriminate|].
    cbn [g_queue init_world shared init_machine]. intros H.
    apply lookup_replicate in H as [-> _].
    cbn [held init_machine]. rewrite lookup_empty.
    split; [|split; [|split; [|split]]].
    + repeat split; cbn [front last data zero_queue]; unfold MAXQUEUESZ; lia.
    + cbn [data zero_queue]. apply Forall_replicate. cbn [buf zero_data].
      apply length_replicate.
    + reflexivity.
    + constructor.
    + intros ? [=].
  - intros qi [i Hi]. cbn [held init_machine] in Hi.
    rewrite lookup_empty in Hi. discriminate.
Qed.

Lemma loop_move_inv r s s' :
  machine_inv b soc s →
  Forall (λ ev, data_fd ev ≠ soc → read_result (answers ev) <= b)
    (supplied [LoopMove r]) →
  loop_move soc r s = Some s' →
  Z.of_nat (length (handled s')) < MAXQUEUESZ →
  machine_inv b soc s'.
Proof.
  intros Hinv Hr H Hcap. pose proof Hinv as (Hlen & Hqs & Hdom & Hahead & Hpc).
  unfold loop_move in H. destruct (looping (shared s)); [|injection H as <-; exact Hinv].
  destruct (loop_at s) as [[|ev evs]|ev evs] eqn:Hat.
  - (* epoll_wait *)
    destruct r as [| |evs]; injection H as <-;
      (split; [exact Hlen|]; split; [exact Hqs|]; split; [exact Hdom|];
       split; [|exact I]).
    + constructor.
    + constructor.
    + cbn [supplied] in Hr. rewrite app_nil_r in Hr. exact Hr.
  - destruct (Z.eqb_spec (data_fd ev) soc) as [E|Hne].
    + (* the listening socket *)
      apply bind_Some in H as (w' & Hw' & H). injection H as <-.
      unfold machine_inv; cbn [shared handled held loop_at ahead] in *.
      rewrite (on_listen_queues _ _ _ Hw').
      split; [exact Hlen|]. split; [|split; [exact Hdom|split; [|exact I]]].
      * apply (queues_same _ (length (handled s))); [exact Hqs|].
        rewrite length_app. cbn. lia.
      * apply Forall_cons in Hahead as [_ Hahead]. exact Hahead.
    + (* recv into the slot at last *)
      apply bind_Some in H as (w' & Hw' & H). injection H as <-.
      unfold machine_inv; cbn [shared handled held loop_at ahead] in *.
      unfold conn_recv in Hw'.
      apply bind_Some in Hw' as (q & Hq & Hw').
      apply bind_Some in Hw' as (slot & Hslot & Hw').
      destruct (recv (recv_pending (answers ev)) (buf slot) BUFSZ)
        as [b1 n1] eqn:Erecv.
      apply bind_Some in Hw' as (slots & Hslots & Hw').
      apply storeZ_inv in Hslots as ->.
      apply bind_Some in Hw' as (qs & Hqs' & Hw').
      apply storeZ_inv in Hqs' as ->. injection Hw' as <-.
      cbn [g_queue set_queues].
      pose proof (nthZ_Some_inv _ _ _ Hq) as Hrq.
      pose proof (Hqs _ _ Hq) as Hqinv.
      assert (Hbslot : length (buf slot) = BUFSZ).
      { destruct Hqinv as (_ & Hb & _). unfold nthZ in Hslot.
        destruct (last q <? 0); [discriminate|].
        apply (Forall_lookup_1 _ _ _ _ Hb Hslot). }
      assert (Est : {| acc := data_fd ev; buf := b1; len := n1 |}
                    = stored (data_fd ev) (answers ev) (buf slot)).
      { unfold stored. rewrite Erecv. reflexivity. }
      rewrite Est.
      split; [rewrite length_insert; exact Hlen|].
      split; [|split; [exact Hdom|split; [exact Hahead|]]].
      * apply (queues_update _ _ _ (length (handled s)) _ (held s));
          [exact Hqs|lia|reflexivity|exact Hrq|].
        apply queue_inv_store_last; [exact Hqinv|exact Hcap|].
        apply stored_buf, Hbslot.
      * split; [exact Hne|]. eexists. exists (buf slot).
        split; [apply nthZ_insert_eq, Hrq|]. split; [exact Hbslot|].
        cbn [data last]. apply nthZ_insert_eq.
        destruct Hqinv as ((_ & Hl & Hd) & _). rewrite Hd, Z2Nat.id; lia.
  - (* the switch on the stored len *)
    destruct Hpc as (Hne & q & b0 & Hq & Hb0 & Hslot).
    apply bind_Some in H as (w' & Hw' & H). injection H as <-.
    unfold machine_inv; cbn [shared handled held loop_at ahead] in *.
    apply Forall_cons in Hahead as [Hev Hahead].
    unfold conn_switch in Hw'. rewrite Hq in Hw'. cbn [mbind option_bind] in Hw'.
    rewrite Hslot in Hw'. cbn [mbind option_bind] in Hw'.
    rewrite stored_len in Hw'.
    assert (Hgrow : (length (handled s) ≤ length (handled s ++ [ev]))%nat)
      by (rewrite length_app; cbn; lia).
    destruct (Z.eqb_spec (read_result (answers ev)) (-1)) as [E1|N1];
      [|destruct (Z.eqb_spec (read_result (answers ev)) 0) as [E0|N0]].
    + injection Hw' as <-. rewrite teardown_queues. cbn [g_queue emit].
      split; [exact Hlen|]. split; [|split; [exact Hdom|split; [exact Hahead|exact I]]].
      apply (queues_same _ (length (handled s))); assumption.
    + injection Hw' as <-. rewrite teardown_queues.
      split; [exact Hlen|]. split; [|split; [exact Hdom|split; [exact Hahead|exact I]]].
      apply (queues_same _ (length (handled s))); assumption.
    + apply bind_Some in Hw' as (qs & Hqs' & Hw').
      apply storeZ_inv in Hqs' as ->. injection Hw' as <-.
      cbn [g_queue set_queues].
      pose proof (nthZ_Some_inv _ _ _ Hq) as Hrq.
      split; [rewrite length_insert; exact Hlen|].
      split; [|split; [exact Hdom|split; [exact Hahead|exact I]]].
      apply (queues_update _ _ _ (length (handled s)) _ (held s));
        [exact Hqs|exact Hgrow|reflexivity|exact Hrq|].
      rewrite length_app. cbn [length]. rewrite Nat.add_1_r.
      rewrite length_app in Hcap. cbn [length] in Hcap.
      eapply (proj1 (queue_inv_advance b _ _ _ q _ (Hqs _ _ Hq) _ Hslot _ _)).
      Unshelve.
      * lia.
      * split; [reflexivity|]. rewrite stored_len.
        pose proof (read_result_min (answers ev)).
        pose proof (read_result_le (answers ev)).
        split; [lia|]. apply stored_buf, Hb0.
      * rewrite stored_len. apply Hev, Hne.
Qed.

Lemma sender_move_inv qi n s s' :
  machine_inv b soc s →
  sender_move qi n s = Some s' →
  Z.of_nat (length (handled s')) < MAXQUEUESZ →
  machine_inv b soc s'.
Proof.
  intros Hinv H Hcap. pose proof Hinv as (Hlen & Hqs & Hdom & Hahead & Hpc).
  unfold sender_move in H. destruct (held s !! qi) as [i|] eqn:Hheld.
  - (* the work on the held element *)
    apply bind_Some in H as (w' & Hw' & H). injection H as <-.
    unfold machine_inv; cbn [shared handled held loop_at ahead] in *.
    unfold worker_respond in Hw'.
    apply bind_Some in Hw' as (q & Hq & Hw').
    apply bind_Some in Hw' as (e & He & Hw').
    apply bind_Some in Hw' as ([e' acts] & Hresp & Hw').
    apply bind_Some in Hw' as (slots & Hslots & Hw').
    apply storeZ_inv in Hslots as ->.
    apply bind_Some in Hw' as (qs & Hqs' & Hw').
    apply storeZ_inv in Hqs' as ->. injection Hw' as <-.
    cbn [g_queue].
    pose proof (nthZ_Some_inv _ _ _ Hq) as Hrq.
    pose proof (Hqs _ _ Hq) as Hqinv. rewrite Hheld in Hqinv.
    assert (Hbe : length (buf e) = BUFSZ).
    { destruct Hqinv as (_ & Hb & _). unfold nthZ in He.
      destruct (i <? 0); [discriminate|].
      apply (Forall_lookup_1 _ _ _ _ Hb He). }
    pose proof (respond_in_bounds _ _ _ Hresp) as Hin. rewrite Hbe in Hin.
    destruct (respond_payload e n Hbe Hin) as (e2 & Hr2 & Hbe2).
    rewrite Hr2 in Hresp. injection Hresp as <- <-.
    destruct (queue_inv_respond b _ i qi q e2 Hqinv Hbe2) as [Hq2 Hp2].
    split; [rewrite length_insert; exact Hlen|].
    split; [|split; [|split; [exact Hahead|]]].
    + apply (queues_update _ _ _ (length (handled s)) _ (held s));
        [exact Hqs|lia| |exact Hrq|].
      * intros qj Hne. apply lookup_delete_ne. congruence.
      * rewrite lookup_delete_eq. exact Hq2.
    + intros qj [j Hj]. apply Hdom.
      destruct (decide (qj = qi)) as [->|Hne].
      * rewrite lookup_delete_eq in Hj. discriminate.
      * rewrite lookup_delete_ne in Hj by congruence. eauto.
    + destruct (loop_at s) as [evs|ev evs]; [exact I|].
      destruct Hpc as (Hne & q0 & b0 & Hq0 & Hb0 & Hslot).
      split; [exact Hne|].
      destruct (decide (Z.rem (data_fd ev) MAXSENDER = qi)) as [E|Hother].
      * rewrite E in *. rewrite Hq in Hq0. injection Hq0 as <-.
        eexists. exists b0. split; [apply nthZ_insert_eq, Hrq|].
        split; [exact Hb0|]. cbn [data last].
        rewrite nthZ_insert_ne; [exact Hslot| |].
        -- destruct Hqinv as (_ & _ & _ & _ & Hh).
           destruct (Hh i eq_refl) as (Hi & _). lia.
        -- apply (held_not_last b _ i qi q Hqinv Hcap).
      * exists q0, b0. rewrite nthZ_insert_ne by (lia || congruence).
        auto.
  - (* the pop *)
    apply bind_Some in H as ([popped w'] & Hpop & H). injection H as <-.
    unfold machine_inv; cbn [shared handled held loop_at ahead] in *.
    pose proof Hpop as Hpop'. unfold worker_pop in Hpop'.
    apply bind_Some in Hpop' as (q & Hq & _).
    pose proof (nthZ_Some_inv _ _ _ Hq) as Hrq.
    pose proof (Hqs _ _ Hq) as Hqinv. rewrite Hheld in Hqinv.
    destruct (Z.eq_dec (last q) (front q)) as [E|Hne].
    { rewrite (worker_pop_empty qi (shared s) q Hq E) in Hpop.
      injection Hpop as <- <-. exact Hinv. }
    rewrite (worker_pop_dequeue qi (shared s) q Hq Hne) in Hpop.
    injection Hpop as <- <-. cbn [g_queue set_queues].
    destruct (queue_inv_pop b _ qi q Hqinv Hne) as (e & He & Hpq & Hq2).
    split; [rewrite length_insert; exact Hlen|].
    split; [|split; [|split; [exact Hahead|]]].
    + apply (queues_update _ _ _ (length (handled s)) _ (held s));
        [exact Hqs|lia| |exact Hrq|].
      * intros qj Hne'. apply lookup_insert_ne. congruence.
      * rewrite lookup_insert_eq. exact Hq2.
    + intros qj [j Hj].
      destruct (decide (qj = qi)) as [->|Hne'].
      * rewrite Hlen, Z2Nat.id in Hrq by (unfold MAXSENDER; lia). exact Hrq.
      * rewrite lookup_insert_ne in Hj by congruence. apply Hdom. eauto.
    + destruct (loop_at s) as [evs|ev evs]; [exact I|].
      destruct Hpc as (Hne' & q0 & b0 & Hq0 & Hb0 & Hslot).
      split; [exact Hne'|].
      destruct (decide (Z.rem (data_fd ev) MAXSENDER = qi)) as [E|Hother].
      * rewrite E in *. rewrite Hq in Hq0. injection Hq0 as <-.
        eexists. exists b0. split; [apply nthZ_insert_eq, Hrq|].
        split; [exact Hb0|exact Hslot].
      * exists q0, b0. rewrite nthZ_insert_ne by (lia || congruence).
        auto.
Qed.

End MachineInv.

Section MachineSafety.

Context (soc : Z).

Lemma machine_inv_wf b s : machine_inv b soc s → wf_world (shared s).
Proof.
  intros (Hlen & Hqs & _). split; [exact Hlen|].
  apply Forall_lookup_2. intros k q Hk.
  destruct (Hqs (Z.of_nat k) q) as [Hwf _]; [|exact Hwf].
  unfold nthZ. destruct (Z.ltb_spec (Z.of_nat k) 0); [lia|].
  rewrite Nat2Z.id. exact Hk.
Qed.

Lemma conn_recv_defined fd o w :
  wf_world w → 0 <= Z.rem fd MAXSENDER → is_Some (conn_recv fd o w).
Proof.
  intros Hwf Hfd.
  destruct (on_conn_spec fd o w Hwf Hfd) as (q & slot & Hq & Hslot & _).
  unfold conn_recv. rewrite Hq. cbn [mbind option_bind].
  rewrite Hslot. cbn [mbind option_bind].
  destruct (recv _ _ _) as [b1 n1].
  pose proof (nthZ_Some_inv _ _ _ Hq). pose proof (nthZ_Some_inv _ _ _ Hslot).
  rewrite storeZ_Some by assumption. cbn [mbind option_bind].
  rewrite storeZ_Some by assumption. eauto.
Qed.

Lemma loop_move_defined b r s :
  machine_inv b soc s →
  Forall (λ ev, data_fd ev = soc ∨ 0 <= data_fd ev) (ahead (loop_at s)) →
  is_Some (loop_move soc r s).
Proof.
  intros Hinv Hpl. pose proof (machine_inv_wf b s Hinv) as Hwf.
  destruct Hinv as (Hlen & Hqs & Hdom & Hahead & Hpc).
  unfold loop_move. destruct (looping (shared s)); [|eauto].
  destruct (loop_at s) as [[|ev evs]|ev evs].
  - destruct r; eauto.
  - destruct (Z.eqb_spec (data_fd ev) soc) as [E|Hne].
    + assert (Hl : is_Some (on_listen (answers ev) (shared s)))
        by (unfold on_listen; repeat case_match; eauto).
      destruct Hl as [w' ->]. cbn. eauto.
    + apply Forall_cons in Hpl as [[?|Hfd] _]; [contradiction|].
      destruct (conn_recv_defined (data_fd ev) (answers ev) (shared s) Hwf
                  (proj1 (shard_range _ Hfd))) as [w' ->].
      cbn. eauto.
  - destruct Hpc as (Hne & q & b0 & Hq & Hb0 & Hslot).
    unfold conn_switch. rewrite Hq. cbn [mbind option_bind].
    rewrite Hslot. cbn [mbind option_bind].
    destruct (_ =? -1); [cbn; eauto|]. destruct (_ =? 0); [cbn; eauto|].
    rewrite storeZ_Some by (apply (nthZ_Some_inv _ _ _ Hq)). cbn. eauto.
Qed.

Lemma sender_move_defined b qi n s :
  machine_inv b soc s → b < Z.of_nat BUFSZ → 0 <= qi < MAXSENDER →
  is_Some (sender_move qi n s).
Proof.
  intros Hinv Hb Hqi. destruct Hinv as (Hlen & Hqs & Hdom & Hahead & Hpc).
  assert (Hr : 0 <= qi < Z.of_nat (length (g_queue (shared s))))
    by (rewrite Hlen, Z2Nat.id; unfold MAXSENDER in *; lia).
  destruct (nthZ_Some (g_queue (shared s)) qi Hr) as [q Hq].
  pose proof (Hqs _ _ Hq) as Hqinv.
  unfold sender_move. destruct (held s !! qi) as [i|] eqn:Hheld.
  - destruct Hqinv as ((Hf & Hl & Hd) & Hbufs & _ & _ & Hh).
    destruct (Hh i eq_refl) as (Hi & _ & e & He & (_ & Hlen_e & Hbe) & Hle).
    destruct (respond_payload e n Hbe ltac:(lia)) as (e2 & Hr2 & _).
    unfold worker_respond. rewrite Hq. cbn [mbind option_bind].
    rewrite He. cbn [mbind option_bind]. rewrite Hr2. cbn [mbind option_bind].
    rewrite storeZ_Some by (rewrite Hd, Z2Nat.id; unfold MAXQUEUESZ in *; lia).
    cbn [mbind option_bind]. rewrite storeZ_Some by exact Hr. cbn. eauto.
  - destruct (Z.eq_dec (last q) (front q)) as [E|Hne].
    + rewrite (worker_pop_empty qi (shared s) q Hq E). cbn. eauto.
    + rewrite (worker_pop_dequeue qi (shared s) q Hq Hne). cbn. eauto.
Qed.

Lemma move_measure m s s' :
  move_step soc m s = Some s' →
  (length (handled s') + length (ahead (loop_at s'))
   ≤ length (handled s) + length (ahead (loop_at s)) + length (supplied [m]))%nat.
Proof.
  destruct m as [r|qi n]; cbn [move_step supplied].
  - unfold loop_move. destruct (looping (shared s)); [|intros [= <-]; lia].
    destruct (loop_at s) as [[|ev evs]|ev evs].
    + destruct r as [| |evs]; intros [= <-]; cbn [handled loop_at ahead length];
        rewrite ?length_app; cbn [length]; lia.
    + destruct (data_fd ev =? soc); intros H;
        apply bind_Some in H as (w' & _ & [= <-]);
        cbn [handled loop_at ahead length]; rewrite ?length_app;
        cbn [length]; lia.
    + intros H. apply bind_Some in H as (w' & _ & [= <-]).
      cbn [handled loop_at ahead length]. rewrite ?length_app.
      cbn [length]. lia.
  - unfold sender_move. destruct (held s !! qi).
    + intros H. apply bind_Some in H as (w' & _ & [= <-]).
      cbn [handled loop_at]. lia.
    + intros H. apply bind_Some in H as ([p w'] & _ & [= <-]).
      cbn [handled loop_at]. lia.
Qed.

Lemma move_ahead (P : epoll_event → Prop) m s s' :
  move_step soc m s = Some s' →
  Forall P (ahead (loop_at s)) → Forall P (supplied [m]) →
  Forall P (ahead (loop_at s')).
Proof.
  destruct m as [r|qi n]; cbn [move_step supplied].
  - unfold loop_move. destruct (looping (shared s)); [|intros [= <-]; auto].
    destruct (loop_at s) as [[|ev evs]|ev evs].
    + destruct r as [| |evs]; intros [= <-] _ Hr; cbn [loop_at ahead];
        [constructor|constructor|].
      rewrite app_nil_r in Hr. exact Hr.
    + destruct (data_fd ev =? soc); intros H Ha _;
        apply bind_Some in H as (w' & _ & [= <-]); cbn [loop_at ahead] in *;
        [apply Forall_cons in Ha as [_ Ha]|]; exact Ha.
    + intros H Ha _. apply bind_Some in H as (w' & _ & [= <-]).
      cbn [loop_at ahead] in *. apply Forall_cons in Ha as [_ Ha]. exact Ha.
  - unfold sender_move. destruct (held s !! qi).
    + intros H. apply bind_Some in H as (w' & _ & [= <-]). auto.
    + intros H. apply bind_Some in H as ([p w'] & _ & [= <-]). auto.
Qed.

Lemma supplied_cons m ms : supplied (m :: ms) = supplied [m] ++ supplied ms.
Proof.
  destruct m as [[| |evs]|qi n]; cbn [supplied]; try reflexivity.
  now rewrite app_nil_r.
Qed.

Lemma move_step_inv b m s s' :
  machine_inv b soc s →
  Forall (λ ev, data_fd ev ≠ soc → read_result (answers ev) <= b)
    (supplied [m]) →
  move_step soc m s = Some s' →
  Z.of_nat (length (handled s')) < MAXQUEUESZ →
  machine_inv b soc s'.
Proof.
  intros Hinv Hb H Hcap. destruct m as [r|qi n]; cbn [move_step] in H.
  - apply (loop_move_inv b soc r s s' Hinv Hb H Hcap).
  - apply (sender_move_inv b soc qi n s s' Hinv H Hcap).
Qed.

Lemma moves_defined : ∀ ms s,
  machine_inv (Z.of_nat BUFSZ - 1) soc s →
  Forall (λ ev, data_fd ev = soc ∨ 0 <= data_fd ev) (ahead (loop_at s)) →
  Forall (move_in_range soc) ms →
  Forall (short_read soc) (supplied ms) →
  Z.of_nat (length (handled s) + length (ahead (loop_at s))
            + length (supplied ms)) < MAXQUEUESZ →
  is_Some (moves soc ms s).
Proof.
  induction ms as [|m ms IH]; intros s Hinv Hpl Hr Hshort Hcap; cbn [moves];
    [eauto|].
  apply Forall_cons in Hr as [Hm Hr].
  rewrite supplied_cons in Hshort, Hcap.
  apply Forall_app in Hshort as [Hs1 Hshort]. rewrite length_app in Hcap.
  assert (Hd : is_Some (move_step soc m s)).
  { destruct m as [r|qi n]; cbn [move_step move_in_range] in *.
    - apply (loop_move_defined _ r s Hinv Hpl).
    - apply (sender_move_defined _ qi n s Hinv); [lia|exact Hm]. }
  destruct Hd as [s' Hs']. rewrite Hs'. cbn [mbind option_bind].
  pose proof (move_measure m s s' Hs') as Hmeas.
  apply IH; [| |exact Hr|exact Hshort|lia].
  - apply (move_step_inv _ m s s' Hinv Hs1 Hs'). lia.
  - apply (move_ahead _ m s s' Hs' Hpl).
    destruct m as [[| |evs]|qi n]; cbn [supplied move_in_range plausible] in *;
      try constructor.
    rewrite app_nil_r. exact Hm.
Qed.

End MachineSafety.

Section MachineOrder.

Context (soc : Z).

Lemma held_owed_frame fd s s' :
  g_queue (shared s') = g_queue (shared s) → held s' = held s →
  held_owed fd s' = held_owed fd s.
Proof. unfold held_owed, slot_at. intros -> ->. reflexivity. Qed.

Lemma owed_pending fd q q' : pending q' = pending q → owed fd q' = owed fd q.
Proof. unfold owed. intros ->. reflexivity. Qed.

Lemma order_inv_init : order_inv soc (init_machine soc).
Proof.
  intros fd q _ _. unfold nthZ. destruct (_ <? 0); [discriminate|].
  cbn [g_queue init_world shared init_machine]. intros H.
  apply lookup_replicate in H as [-> _]. reflexivity.
Qed.

Lemma request_none fd ev :
  read_result (answers ev) <= 0 → request_of fd ev = None.
Proof.
  unfold read_result, request_of. destruct (_ =? _); [|reflexivity].
  destruct (recv_pending (answers ev)) as [[|c t]|]; try reflexivity.
  rewrite length_take. cbn [length]. unfold BUFSZ. lia.
Qed.

Lemma request_some fd ev b0 :
  length b0 = BUFSZ → 0 < read_result (answers ev) →
  (if decide (data_fd ev = fd)
   then [answer (payload (stored (data_fd ev) (answers ev) b0))] else [])
  = answer <$> omap (request_of fd) [ev].
Proof.
  intros Hb0 Hpos. rewrite omap_singleton. unfold request_of, read_result in *.
  destruct (Z.eqb_spec (data_fd ev) fd) as [E|N];
    destruct (decide (data_fd ev = fd)); try contradiction; [|reflexivity].
  destruct (recv_pending (answers ev)) as [[|c t]|] eqn:Hrecv;
    [cbn in Hpos; lia| |lia].
  cbn [fmap list_fmap]. f_equal. f_equal.
  pose proof (payload_received (data_fd ev) (c :: t) b0 Hb0) as Hp.
  unfold received_into in Hp. unfold stored. rewrite Hrecv. exact Hp.
Qed.

Lemma loop_move_order b r s s' :
  machine_inv b soc s → order_inv soc s →
  loop_move soc r s = Some s' →
  Z.of_nat (length (handled s')) < MAXQUEUESZ →
  order_inv soc s'.
Proof.
  intros Hinv Hord H Hcap.
  pose proof Hinv as (Hlen & Hqs & Hdom & Hahead & Hpc).
  unfold loop_move in H.
  destruct (looping (shared s)); [|injection H as <-; exact Hord].
  destruct (loop_at s) as [[|ev evs]|ev evs] eqn:Hat.
  - (* epoll_wait *)
    assert (Hemit : ∀ a w fd, (∀ fd', sent_on fd' [a] = []) →
              sent_on fd (trace (emit a w)) = sent_on fd (trace w)).
    { intros a w fd Ha. cbn [trace emit]. rewrite sent_on_app, Ha.
      apply app_nil_r. }
    destruct r as [| |evs]; injection H as <-; intros fd q Hfd Hne Hq;
      cbn [shared handled trace] in *;
      rewrite ?Hemit by reflexivity;
      apply (Hord fd q Hfd Hne Hq).
  - destruct (Z.eqb_spec (data_fd ev) soc) as [E|Hne].
    + (* the listening socket *)
      apply bind_Some in H as (w' & Hw' & H). injection H as <-.
      intros fd q Hfd Hnsoc Hq. cbn [shared handled] in *.
      rewrite (on_listen_queues _ _ _ Hw') in Hq.
      rewrite (on_listen_sent _ _ _ fd Hw').
      rewrite (held_owed_frame fd s)
        by (first [apply (on_listen_queues _ _ _ Hw') | reflexivity]).
      rewrite omap_app, omap_singleton, request_of_other by congruence.
      rewrite app_nil_r. apply (Hord fd q Hfd Hnsoc Hq).
    + (* recv into the slot at last *)
      apply bind_Some in H as (w' & Hw' & H). injection H as <-.
      unfold conn_recv in Hw'.
      apply bind_Some in Hw' as (q0 & Hq0 & Hw').
      apply bind_Some in Hw' as (slot & Hslot & Hw').
      destruct (recv (recv_pending (answers ev)) (buf slot) BUFSZ)
        as [b1 n1] eqn:Erecv.
      apply bind_Some in Hw' as (slots & Hslots & Hw').
      apply storeZ_inv in Hslots as ->.
      apply bind_Some in Hw' as (qs & Hqs' & Hw').
      apply storeZ_inv in Hqs' as ->. injection Hw' as <-.
      pose proof (nthZ_Some_inv _ _ _ Hq0) as Hrq.
      pose proof (Hqs _ _ Hq0) as Hqinv.
      intros fd q Hfd Hnsoc Hq.
      cbn [shared handled trace set_queues g_queue] in *.
      destruct (decide (Z.rem fd MAXSENDER = Z.rem (data_fd ev) MAXSENDER))
        as [E|Hother].
      * rewrite E in Hq. rewrite nthZ_insert_eq in Hq by exact Hrq.
        injection Hq as <-. rewrite <- E in Hq0.
        rewrite (owed_pending fd q0)
          by (apply pending_store_last, Hqinv).
        rewrite <- (Hord fd q0 Hfd Hnsoc Hq0). f_equal. f_equal.
        unfold held_owed, slot_at. cbn [held shared g_queue set_queues].
        rewrite E, nthZ_insert_eq by exact Hrq. rewrite <- E, Hq0.
        cbn [mbind option_bind data].
        destruct (held s !! Z.rem fd MAXSENDER) as [i|] eqn:Hheld;
          [|reflexivity].
        rewrite E in Hheld. rewrite Hheld in Hqinv.
        rewrite nthZ_insert_ne; [reflexivity| |].
        -- destruct Hqinv as ((_ & Hl & _) & _). lia.
        -- intros E2. apply (held_not_last b _ i _ q0 Hqinv Hcap).
           congruence.
      * rewrite nthZ_insert_ne in Hq by (lia || congruence).
        rewrite <- (Hord fd q Hfd Hnsoc Hq). f_equal. f_equal.
        unfold held_owed, slot_at. cbn [held shared g_queue set_queues].
        rewrite nthZ_insert_ne by (lia || congruence). reflexivity.
  - (* the switch on the stored len *)
    destruct Hpc as (Hne & q0 & b0 & Hq0 & Hb0 & Hslot).
    apply bind_Some in H as (w' & Hw' & H). injection H as <-.
    apply Forall_cons in Hahead as [Hev Hahead].
    unfold conn_switch in Hw'. rewrite Hq0 in Hw'.
    cbn [mbind option_bind] in Hw'.
    rewrite Hslot in Hw'. cbn [mbind option_bind] in Hw'.
    rewrite stored_len in Hw'.
    intros fd q Hfd Hnsoc Hq. cbn [shared handled] in *.
    rewrite omap_app, fmap_app.
    destruct (Z.eqb_spec (read_result (answers ev)) (-1)) as [E1|N1];
      [|destruct (Z.eqb_spec (read_result (answers ev)) 0) as [E0|N0]].
    + injection Hw' as <-. rewrite teardown_queues in Hq. cbn [g_queue emit] in Hq.
      rewrite teardown_sent. cbn [trace emit]. rewrite sent_on_app.
      cbn [sent_on]. rewrite app_nil_r.
      rewrite (held_owed_frame fd s)
        by (first [exact (teardown_queues _ _ _) | reflexivity]).
      rewrite omap_singleton, request_none by lia. cbn [fmap list_fmap].
      rewrite app_nil_r. apply (Hord fd q Hfd Hnsoc Hq).
    + injection Hw' as <-. rewrite teardown_queues in Hq.
      rewrite teardown_sent.
      rewrite (held_owed_frame fd s)
        by (first [exact (teardown_queues _ _ _) | reflexivity]).
      rewrite omap_singleton, request_none by lia. cbn [fmap list_fmap].
      rewrite app_nil_r. apply (Hord fd q Hfd Hnsoc Hq).
    + apply bind_Some in Hw' as (qs & Hqs' & Hw').
      apply storeZ_inv in Hqs' as ->. injection Hw' as <-.
      cbn [g_queue set_queues trace] in *.
      pose proof (nthZ_Some_inv _ _ _ Hq0) as Hrq.
      pose proof (read_result_min (answers ev)) as Hmin.
      pose proof (read_result_le (answers ev)) as Hmax.
      rewrite length_app in Hcap. cbn [length] in Hcap.
      destruct (queue_inv_advance b (length (handled s)) _ _ q0
                  (stored (data_fd ev) (answers ev) b0) (Hqs _ _ Hq0))
        as [_ Hpend]; [lia|exact Hslot| | |].
      { split; [reflexivity|]. rewrite stored_len.
        split; [lia|]. apply stored_buf, Hb0. }
      { rewrite stored_len. apply Hev, Hne. }
      destruct (decide (Z.rem fd MAXSENDER = Z.rem (data_fd ev) MAXSENDER))
        as [E|Hother].
      * rewrite E in Hq. rewrite nthZ_insert_eq in Hq by exact Hrq.
        injection Hq as <-. rewrite <- E in Hq0.
        rewrite (owed_snoc fd _ q0 _ Hpend).
        rewrite <- (Hord fd q0 Hfd Hnsoc Hq0).
        rewrite <- (request_some fd ev b0 Hb0 ltac:(lia)).
        rewrite <- !app_assoc. f_equal. f_equal.
        unfold held_owed, slot_at. cbn [held shared g_queue set_queues].
        rewrite E, nthZ_insert_eq by exact Hrq. rewrite <- E, Hq0.
        reflexivity.
      * rewrite nthZ_insert_ne in Hq by (lia || congruence).
        rewrite omap_singleton, request_of_other.
        2:{ intros E. apply Hother. congruence. }
        cbn [fmap list_fmap]. rewrite app_nil_r.
        rewrite <- (Hord fd q Hfd Hnsoc Hq). f_equal. f_equal.
        unfold held_owed, slot_at. cbn [held shared g_queue set_queues].
        rewrite nthZ_insert_ne by (lia || congruence). reflexivity.
Qed.

Lemma sender_move_order b qi n s s' :
  machine_inv b soc s → order_inv soc s →
  sender_move qi n s = Some s' →
  order_inv soc s'.
Proof.
  intros Hinv Hord H.
  pose proof Hinv as (Hlen & Hqs & Hdom & Hahead & Hpc).
  unfold sender_move in H. destruct (held s !! qi) as [i|] eqn:Hheld.
  - (* the work on the held element *)
    apply bind_Some in H as (w' & Hw' & H). injection H as <-.
    unfold worker_respond in Hw'.
    apply bind_Some in Hw' as (q0 & Hq0 & Hw').
    apply bind_Some in Hw' as (e & He & Hw').
    apply bind_Some in Hw' as ([e' acts] & Hresp & Hw').
    apply bind_Some in Hw' as (slots & Hslots & Hw').
    apply storeZ_inv in Hslots as ->.
    apply bind_Some in Hw' as (qs & Hqs' & Hw').
    apply storeZ_inv in Hqs' as ->. injection Hw' as <-.
    pose proof (nthZ_Some_inv _ _ _ Hq0) as Hrq.
    pose proof (Hqs _ _ Hq0) as Hqinv. rewrite Hheld in Hqinv.
    assert (Hbe : length (buf e) = BUFSZ).
    { destruct Hqinv as (_ & Hb & _). unfold nthZ in He.
      destruct (i <? 0); [discriminate|].
      apply (Forall_lookup_1 _ _ _ _ Hb He). }
    pose proof (respond_in_bounds _ _ _ Hresp) as Hin. rewrite Hbe in Hin.
    destruct (respond_payload e n Hbe Hin) as (e2 & Hr2 & Hbe2).
    rewrite Hr2 in Hresp. injection Hresp as <- <-.
    destruct (queue_inv_respond b _ i qi q0 e2 Hqinv Hbe2) as [_ Hp2].
    assert (Hacc : Z.rem (acc e) MAXSENDER = qi).
    { destruct Hqinv as (_ & _ & _ & _ & Hh).
      destruct (Hh i eq_refl) as (_ & _ & e0 & He0 & (Hrem & _) & _).
      congruence. }
    intros fd q Hfd Hnsoc Hq.
    cbn [shared handled trace g_queue held] in *.
    rewrite sent_on_app, sent_on_answer.
    destruct (decide (Z.rem fd MAXSENDER = qi)) as [E|Hother].
    + clear Hacc. subst qi. rewrite nthZ_insert_eq in Hq by exact Hrq.
      injection Hq as <-.
      rewrite (owed_pending fd q0) by exact Hp2.
      rewrite <- (Hord fd q0 Hfd Hnsoc Hq0).
      rewrite <- !app_assoc. f_equal.
      unfold held_owed, slot_at. cbn [held shared g_queue].
      rewrite lookup_delete_eq, Hheld, Hq0. cbn [mbind option_bind].
      rewrite He. reflexivity.
    + rewrite nthZ_insert_ne in Hq by (lia || congruence).
      destruct (decide (acc e = fd)) as [Ea|_]; [congruence|].
      rewrite app_nil_r. rewrite <- (Hord fd q Hfd Hnsoc Hq). f_equal. f_equal.
      unfold held_owed, slot_at. cbn [held shared g_queue].
      rewrite lookup_delete_ne by congruence.
      rewrite nthZ_insert_ne by (lia || congruence). reflexivity.
  - (* the pop *)
    apply bind_Some in H as ([popped w'] & Hpop & H). injection H as <-.
    pose proof Hpop as Hpop'. unfold worker_pop in Hpop'.
    apply bind_Some in Hpop' as (q0 & Hq0 & _).
    pose proof (nthZ_Some_inv _ _ _ Hq0) as Hrq.
    pose proof (Hqs _ _ Hq0) as Hqinv. rewrite Hheld in Hqinv.
    destruct (Z.eq_dec (last q0) (front q0)) as [E|Hne].
    { rewrite (worker_pop_empty qi (shared s) q0 Hq0 E) in Hpop.
      injection Hpop as <- <-. exact Hord. }
    rewrite (worker_pop_dequeue qi (shared s) q0 Hq0 Hne) in Hpop.
    injection Hpop as <- <-.
    destruct (queue_inv_pop b _ qi q0 Hqinv Hne) as (e & He & Hpq & _).
    intros fd q Hfd Hnsoc Hq.
    cbn [shared handled trace g_queue set_queues held] in *.
    destruct (decide (Z.rem fd MAXSENDER = qi)) as [E|Hother].
    + subst qi. rewrite nthZ_insert_eq in Hq by exact Hrq.
      injection Hq as <-.
      rewrite <- (Hord fd q0 Hfd Hnsoc Hq0). f_equal.
      rewrite (owed_cons fd e _ q0 (dequeue q0) Hpq eq_refl).
      unfold held_owed, slot_at. cbn [held shared g_queue set_queues].
      rewrite Hheld, lookup_insert_eq, nthZ_insert_eq by exact Hrq.
      cbn [mbind option_bind data dequeue app]. rewrite He. reflexivity.
    + rewrite nthZ_insert_ne in Hq by (lia || congruence).
      rewrite <- (Hord fd q Hfd Hnsoc Hq). f_equal. f_equal.
      unfold held_owed, slot_at. cbn [held shared g_queue set_queues].
      rewrite lookup_insert_ne by congruence.
      rewrite nthZ_insert_ne by (lia || congruence). reflexivity.
Qed.

End MachineOrder.

Section MachineRuns.

Context (soc : Z).

Lemma on_listen_trace o w w' :
  on_listen o w = Some w' → ∃ t, trace w' = trace w ++ t.
Proof.
  unfold on_listen. intros H.
  repeat case_match; injection H as <-;
    cbn [trace emit set_interest loop_return]; rewrite <- ?app_assoc;
    eexists; try reflexivity.
  symmetry. apply app_nil_r.
Qed.

Lemma teardown_trace fd o w : ∃ t, trace (teardown fd o w) = trace w ++ t.
Proof.
  unfold teardown. case_match;
    cbn [trace emit set_interest loop_return]; rewrite <- ?app_assoc;
    eexists; reflexivity.
Qed.

Lemma move_grows m s s' :
  move_step soc m s = Some s' →
  (∃ more, handled s' = handled s ++ more)
  ∧ ∃ t, trace (shared s') = trace (shared s) ++ t.
Proof.
  assert (Hsame : ∀ s0 : machine,
            (∃ more, handled s0 = handled s0 ++ more)
            ∧ ∃ t, trace (shared s0) = trace (shared s0) ++ t).
  { intros s0. split; exists []; symmetry; apply app_nil_r. }
  destruct m as [r|qi n]; cbn [move_step].
  - unfold loop_move. destruct (looping (shared s)); [|intros [= <-]; apply Hsame].
    destruct (loop_at s) as [[|ev evs]|ev evs].
    + destruct r as [| |evs]; intros [= <-]; cbn [handled shared trace emit];
        (split; [exists []; symmetry; apply app_nil_r|]);
        rewrite <- ?app_assoc; eexists; reflexivity.
    + destruct (data_fd ev =? soc); intros H;
        apply bind_Some in H as (w' & Hw' & [= <-]); cbn [handled shared].
      * split; [eexists; reflexivity|]. apply (on_listen_trace _ _ _ Hw').
      * split; [exists []; symmetry; apply app_nil_r|].
        unfold conn_recv in Hw'.
        apply bind_Some in Hw' as (q & _ & Hw').
        apply bind_Some in Hw' as (slot & _ & Hw').
        destruct (recv _ _ _) as [b1 n1].
        apply bind_Some in Hw' as (slots & _ & Hw').
        apply bind_Some in Hw' as (qs & _ & [= <-]).
        exists []. symmetry. apply app_nil_r.
    + intros H. apply bind_Some in H as (w' & Hw' & [= <-]).
      cbn [handled shared]. split; [eexists; reflexivity|].
      unfold conn_switch in Hw'.
      apply bind_Some in Hw' as (q & _ & Hw').
      apply bind_Some in Hw' as (slot & _ & Hw').
      destruct (_ =? -1).
      { injection Hw' as <-.
        destruct (teardown_trace (data_fd ev) (answers ev)
                    (emit (Perror "recv") (shared s))) as [t ->].
        cbn [trace emit]. rewrite <- app_assoc. eexists; reflexivity. }
      destruct (_ =? 0).
      { injection Hw' as <-. apply teardown_trace. }
      apply bind_Some in Hw' as (qs & _ & [= <-]).
      exists []. symmetry. apply app_nil_r.
  - unfold sender_move. destruct (held s !! qi) as [i|].
    + intros H. apply bind_Some in H as (w' & Hw' & [= <-]).
      cbn [handled shared]. split; [exists []; symmetry; apply app_nil_r|].
      unfold worker_respond in Hw'.
      apply bind_Some in Hw' as (q & _ & Hw').
      apply bind_Some in Hw' as (e & _ & Hw').
      apply bind_Some in Hw' as ([e' acts] & _ & Hw').
      apply bind_Some in Hw' as (slots & _ & Hw').
      apply bind_Some in Hw' as (qs & _ & [= <-]).
      cbn [trace]. eexists; reflexivity.
    + intros H. apply bind_Some in H as ([p w'] & Hpop & [= <-]).
      cbn [handled shared]. split; [exists []; symmetry; apply app_nil_r|].
      apply worker_pop_frame in Hpop as (_ & _ & _ & ->).
      exists []. symmetry. apply app_nil_r.
Qed.

Lemma moves_grow : ∀ ms s s',
  moves soc ms s = Some s' →
  (∃ more, handled s' = handled s ++ more)
  ∧ ∃ t, trace (shared s') = trace (shared s) ++ t.
Proof.
  induction ms as [|m ms IH]; intros s s' H; cbn [moves] in H.
  { injection H as <-. split; exists []; symmetry; apply app_nil_r. }
  apply bind_Some in H as (s1 & H1 & H).
  destruct (move_grows m s s1 H1) as [[more1 Hh1] [t1 Ht1]].
  destruct (IH s1 s' H) as [[more Hh] [t Ht]].
  split.
  - exists (more1 ++ more). rewrite Hh, Hh1. apply eq_sym, app_assoc.
  - exists (t1 ++ t). rewrite Ht, Ht1. apply eq_sym, app_assoc.
Qed.

Lemma within_buffer ms :
  Forall (λ ev, data_fd ev ≠ soc →
                read_result (answers ev) <= Z.of_nat BUFSZ) (supplied ms).
Proof. apply Forall_forall. intros ev _ _. apply read_result_le. Qed.

Lemma moves_inv : ∀ ms s s',
  machine_inv (Z.of_nat BUFSZ) soc s → order_inv soc s →
  moves soc ms s = Some s' →
  Z.of_nat (length (handled s')) < MAXQUEUESZ →
  machine_inv (Z.of_nat BUFSZ) soc s' ∧ order_inv soc s'.
Proof.
  induction ms as [|m ms IH]; intros s s' Hinv Hord H Hcap; cbn [moves] in H.
  { injection H as <-. auto. }
  apply bind_Some in H as (s1 & H1 & H).
  destruct (moves_grow ms s1 s' H) as [[more Hmore] _].
  assert (Hcap1 : Z.of_nat (length (handled s1)) < MAXQUEUESZ).
  { rewrite Hmore, length_app in Hcap. lia. }
  apply (IH s1 s'); [| |exact H|exact Hcap].
  - apply (move_step_inv soc _ m s s1 Hinv (within_buffer [m]) H1 Hcap1).
  - destruct m as [r|qi n]; cbn [move_step] in H1.
    + apply (loop_move_order soc _ r s s1 Hinv Hord H1 Hcap1).
    + apply (sender_move_order soc _ qi n s s1 Hinv Hord H1).
Qed.

Lemma order_segment pre post s0 s fd :
  moves soc pre (init_machine soc) = Some s0 →
  moves soc post s0 = Some s →
  Z.of_nat (length (handled s)) < MAXQUEUESZ →
  0 <= fd → fd ≠ soc →
  nothing_owed fd s0 →
  ∃ sent reqs,
    sent_on fd (trace (shared s)) = sent_on fd (trace (shared s0)) ++ sent
    ∧ omap (request_of fd) (handled s)
      = omap (request_of fd) (handled s0) ++ reqs
    ∧ sent `prefix_of` (answer <$> reqs)
    ∧ (nothing_owed fd s → sent = answer <$> reqs).
Proof.
  intros Hpre Hpost Hcap Hfd Hsoc [Hheld0 Howed0].
  destruct (moves_grow post s0 s Hpost) as [[more Hmore] [t Ht]].
  assert (Hcap0 : Z.of_nat (length (handled s0)) < MAXQUEUESZ).
  { rewrite Hmore, length_app in Hcap. lia. }
  destruct (moves_inv pre _ s0 (machine_inv_init _ soc) (order_inv_init soc)
              Hpre Hcap0) as [Hinv0 Hord0].
  destruct (moves_inv post s0 s Hinv0 Hord0 Hpost Hcap) as [Hinv Hord].
  assert (Hq : ∀ s1, machine_inv (Z.of_nat BUFSZ) soc s1 →
            ∃ q, nthZ (g_queue (shared s1)) (Z.rem fd MAXSENDER) = Some q).
  { intros s1 (Hlen & _). apply nthZ_Some. rewrite Hlen, Z2Nat.id.
    - apply shard_range, Hfd.
    - unfold MAXSENDER. lia. }
  destruct (Hq s0 Hinv0) as [q0 Hq0]. destruct (Hq s Hinv) as [q Hqs].
  pose proof (Hord0 fd q0 Hfd Hsoc Hq0) as E0.
  rewrite Hheld0, (Howed0 q0 Hq0), !app_nil_r in E0.
  pose proof (Hord fd q Hfd Hsoc Hqs) as E.
  rewrite Ht, sent_on_app, Hmore, omap_app, fmap_app, <- E0 in E.
  rewrite <- app_assoc in E. apply app_inv_head in E.
  exists (sent_on fd t), (omap (request_of fd) more).
  split; [rewrite Ht; apply sent_on_app|].
  split; [rewrite Hmore; apply omap_app|].
  split.
  - rewrite <- E. eexists. reflexivity.
  - intros [Hheld Howed]. rewrite <- E, Hheld, (Howed q Hqs).
    now rewrite !app_nil_r.
Qed.

Lemma nothing_owed_init fd : nothing_owed fd (init_machine soc).
Proof.
  split; [reflexivity|]. intros q. unfold nthZ.
  destruct (_ <? 0); [discriminate|].
  cbn [g_queue init_world shared init_machine]. intros H.
  apply lookup_replicate in H as [-> _]. reflexivity.
Qed.

End MachineRuns.

Section TurnsAreMoves.

Context (soc : Z).

Lemma moves_app ms1 ms2 s :
  moves soc (ms1 ++ ms2) s = s1 ← moves soc ms1 s; moves soc ms2 s1.
Proof.
  revert s. induction ms1 as [|m ms1 IH]; intros s; [reflexivity|].
  cbn [app moves]. destruct (move_step soc m s) as [s1|]; [|reflexivity].
  cbn [mbind option_bind]. apply IH.
Qed.

Lemma conn_recv_looping fd o w w' :
  conn_recv fd o w = Some w' → looping w' = looping w.
Proof.
  unfold conn_recv. intros H.
  apply bind_Some in H as (q & _ & H).
  apply bind_Some in H as (slot & _ & H).
  destruct (recv _ _ _) as [b1 n1].
  apply bind_Some in H as (slots & _ & H).
  apply bind_Some in H as (qs & _ & [= <-]). reflexivity.
Qed.

Lemma loop_move_listen r ev evs w hd h :
  looping w = true → data_fd ev = soc →
  loop_move soc r (Machine w (Between (ev :: evs)) hd h)
  = w' ← on_listen (answers ev) w;
    Some (Machine w' (Between evs) hd (h ++ [ev])).
Proof.
  intros Hl E. unfold loop_move. cbn [shared loop_at held handled].
  rewrite Hl. destruct (Z.eqb_spec (data_fd ev) soc); [reflexivity|contradiction].
Qed.

Lemma loop_move_recv r ev evs w hd h :
  looping w = true → data_fd ev ≠ soc →
  loop_move soc r (Machine w (Between (ev :: evs)) hd h)
  = w' ← conn_recv (data_fd ev) (answers ev) w;
    Some (Machine w' (AtSwitch ev evs) hd h).
Proof.
  intros Hl E. unfold loop_move. cbn [shared loop_at held handled].
  rewrite Hl. destruct (Z.eqb_spec (data_fd ev) soc); [contradiction|reflexivity].
Qed.

Lemma loop_move_switch r ev evs w hd h :
  looping w = true →
  loop_move soc r (Machine w (AtSwitch ev evs) hd h)
  = w' ← conn_switch (data_fd ev) (answers ev) w;
    Some (Machine w' (Between evs) hd (h ++ [ev])).
Proof.
  intros Hl. unfold loop_move. cbn [shared loop_at held handled].
  rewrite Hl. reflexivity.
Qed.

Lemma loop_move_wait r w hd h :
  looping w = true →
  loop_move soc r (Machine w (Between []) hd h)
  = let w1 := emit (Fprintf (MsgChildCount (count w))) w in
    match r with
    | WaitError =>
        Some (Machine (emit (Perror "epoll_wait") w1) (Between []) hd h)
    | WaitTimeout => Some (Machine w1 (Between []) hd h)
    | WaitReady evs => Some (Machine w1 (Between evs) hd h)
    end.
Proof.
  intros Hl. unfold loop_move. cbn [shared loop_at held handled].
  rewrite Hl. reflexivity.
Qed.

Lemma sender_move_pop qi n w pc (hd : gmap Z Z) h :
  hd !! qi = None →
  sender_move qi n (Machine w pc hd h)
  = '(popped, w') ← worker_pop qi w;
    Some (Machine w' pc
            (match popped with Some i => <[qi := i]> hd | None => hd end) h).
Proof.
  intros Hh. unfold sender_move. cbn [shared loop_at held handled].
  rewrite Hh. reflexivity.
Qed.

Lemma sender_move_work qi n w pc (hd : gmap Z Z) h i :
  hd !! qi = Some i →
  sender_move qi n (Machine w pc hd h)
  = w' ← worker_respond qi i n w; Some (Machine w' pc (delete qi hd) h).
Proof.
  intros Hh. unfold sender_move. cbn [shared loop_at held handled].
  rewrite Hh. reflexivity.
Qed.

(** The inner [for] of a turn, move by move. *)
Lemma pass_as_moves : ∀ evs w w' hd h,
  dispatch_all soc evs w = Some w' →
  ∃ ms pc' h',
    moves soc ms (Machine w (Between evs) hd h) = Some (Machine w' pc' hd h')
    ∧ (looping w' = true → pc' = Between []).
Proof.
  induction evs as [|ev evs IH]; intros w w' hd h H; cbn [dispatch_all] in H.
  { injection H as <-. exists [], (Between []), h. auto. }
  destruct (looping w) eqn:Hloop.
  2:{ injection H as <-. exists [], (Between (ev :: evs)), h.
      split; [reflexivity|congruence]. }
  apply bind_Some in H as (w1 & H1 & H). unfold dispatch in H1.
  destruct (Z.eqb_spec (data_fd ev) soc) as [E|Hne].
  - destruct (IH w1 w' hd (h ++ [ev]) H) as (ms & pc' & h' & Hms & Hpc).
    exists (LoopMove WaitTimeout :: ms), pc', h'. split; [|exact Hpc].
    cbn [moves move_step]. rewrite loop_move_listen by assumption.
    rewrite H1. exact Hms.
  - unfold on_conn in H1. apply bind_Some in H1 as (w0 & H0 & H1).
    destruct (IH w1 w' hd (h ++ [ev]) H) as (ms & pc' & h' & Hms & Hpc).
    exists (LoopMove WaitTimeout :: LoopMove WaitTimeout :: ms), pc', h'.
    split; [|exact Hpc].
    cbn [moves move_step]. rewrite loop_move_recv by assumption.
    rewrite H0. cbn [mbind option_bind].
    rewrite loop_move_switch
      by (rewrite (conn_recv_looping _ _ _ _ H0); exact Hloop).
    rewrite H1. exact Hms.
Qed.

(** A run of whole turns is a run of the machine in which no sender is
    preempted between its pop and its work. *)
Lemma run_as_moves : ∀ sts w w' pc h,
  (looping w = true → pc = Between []) →
  run soc sts w = Some w' →
  ∃ ms pc' h',
    moves soc ms (Machine w pc ∅ h) = Some (Machine w' pc' ∅ h')
    ∧ (looping w' = true → pc' = Between []).
Proof.
  induction sts as [|st sts IH]; intros w w' pc h Hpc H; cbn [run] in H.
  { injection H as <-. exists [], pc, h. auto. }
  apply bind_Some in H as (w1 & H1 & H).
  assert (Hstep : ∃ ms1 pc1 h1,
            moves soc ms1 (Machine w pc ∅ h) = Some (Machine w1 pc1 ∅ h1)
            ∧ (looping w1 = true → pc1 = Between [])).
  { destruct st as [r|qi n]; cbn [run_step] in H1.
    - unfold accept_loop_turn in H1. destruct (looping w) eqn:Hloop.
      2:{ injection H1 as <-. exists [], pc, h. split; [reflexivity|congruence]. }
      rewrite (Hpc eq_refl).
      destruct r as [| |evs].
      + injection H1 as <-. exists [LoopMove WaitError], (Between []), h.
        cbn [moves move_step]. rewrite loop_move_wait by exact Hloop. auto.
      + injection H1 as <-. exists [LoopMove WaitTimeout], (Between []), h.
        cbn [moves move_step]. rewrite loop_move_wait by exact Hloop. auto.
      + destruct (pass_as_moves evs _ w1 ∅ h H1) as (ms & pc1 & h1 & Hms & Hp).
        exists (LoopMove (WaitReady evs) :: ms), pc1, h1. split; [|exact Hp].
        cbn [moves move_step]. rewrite loop_move_wait by exact Hloop.
        exact Hms.
    - pose proof (send_thread_turn_frame _ _ _ _ H1) as (_ & _ & Hl).
      exists [SenderMove qi n; SenderMove qi n], pc, h.
      split; [|rewrite Hl; exact Hpc].
      unfold send_thread_turn in H1.
      apply bind_Some in H1 as ([popped w0] & Hpop & H1).
      cbn [moves move_step]. rewrite sender_move_pop by apply lookup_empty.
      rewrite Hpop. cbn [mbind option_bind]. destruct popped as [i|].
      + rewrite (sender_move_work _ _ _ _ _ _ i) by apply lookup_insert_eq.
        rewrite H1. cbn [mbind option_bind].
        rewrite delete_insert_id by apply lookup_empty. reflexivity.
      + injection H1 as <-.
        rewrite sender_move_pop by apply lookup_empty.
        pose proof Hpop as Hpop'. unfold worker_pop in Hpop'.
        apply bind_Some in Hpop' as (q & Hq & Hpop').
        destruct (negb _) eqn:Hn.
        * apply bind_Some in Hpop' as (qs & _ & [=]).
        * injection Hpop' as <-. rewrite Hpop. reflexivity. }
  destruct Hstep as (ms1 & pc1 & h1 & Hms1 & Hpc1).
  destruct (IH w1 w' pc1 h1 Hpc1 H) as (ms & pc' & h' & Hms & Hpc').
  exists (ms1 ++ ms), pc', h'. split; [|exact Hpc'].
  rewrite moves_app, Hms1. exact Hms.
Qed.

End TurnsAreMoves.

Section MachineExtras.

Lemma owed_empty fd q : last q = front q → owed fd q = [].
Proof.
  intros E. unfold owed, pending, occupancy. rewrite E, Z.sub_diag.
  reflexivity.
Qed.

Lemma supplied_app ms1 ms2 :
  supplied (ms1 ++ ms2) = supplied ms1 ++ supplied ms2.
Proof.
  induction ms1 as [|m ms1 IH]; [reflexivity|].
  cbn [app]. rewrite (supplied_cons m (ms1 ++ ms2)), (supplied_cons m ms1), IH.
  apply app_assoc.
Qed.

Lemma Forall_supplied_repeat (P : epoll_event → Prop) ms n :
  Forall P (supplied ms) → Forall P (supplied (mjoin (replicate n ms))).
Proof.
  intros H. induction n as [|n IH]; [constructor|].
  cbn [replicate mjoin list_join]. rewrite supplied_app.
  apply Forall_app. auto.
Qed.

Lemma Forall_repeat {A} (P : A → Prop) (l : list A) n :
  Forall P l → Forall P (mjoin (replicate n l)).
Proof.
  intros H. induction n as [|n IH]; [constructor|].
  cbn [replicate mjoin list_join]. apply Forall_app. auto.
Qed.

Lemma loop_pass_in_range soc ev :
  data_fd ev = soc ∨ 0 <= data_fd ev →
  Forall (move_in_range soc) (loop_pass soc ev).
Proof.
  intros Hev. unfold loop_pass.
  constructor; [cbn; constructor; [exact Hev|constructor]|].
  destruct (_ =? _); repeat constructor.
Qed.

Lemma loop_pass_short soc ev :
  short_read soc ev → Forall (short_read soc) (supplied (loop_pass soc ev)).
Proof.
  intros Hev. unfold loop_pass. cbn [supplied].
  destruct (_ =? _); cbn [supplied app]; repeat constructor; exact Hev.
Qed.

(** X9 ([accept_loop] and [send_thread] together). Take a state reached
    from the start of [accept_loop] by moves of the two threads (a sender
    may be preempted between its pop and its work, and the loop between
    the [recv] and the [switch]) in which no element that carries the
    descriptor number [fd] waits or is held, for instance when a
    connection is accepted as [fd] and the earlier users of that number
    have been answered. From there on, as long as no access has gone out
    of bounds and fewer than [MAXQUEUESZ] events have been handled since
    the start, the responses sent on [fd] are the answers to the requests
    read on [fd] since that state, in the order they were read, each once
    and none other (a prefix of them), and all of them once nothing waits
    or is held for [fd]. *)
Theorem responses_in_request_order soc pre post s0 s fd :
  moves soc pre (init_machine soc) = Some s0 →
  moves soc post s0 = Some s →
  Z.of_nat (length (handled s)) < MAXQUEUESZ →
  0 <= fd → fd ≠ soc →
  nothing_owed fd s0 →
  ∃ sent reqs,
    sent_on fd (trace (shared s)) = sent_on fd (trace (shared s0)) ++ sent
    ∧ omap (request_of fd) (handled s)
      = omap (request_of fd) (handled s0) ++ reqs
    ∧ sent `prefix_of` (answer <$> reqs)
    ∧ (nothing_owed fd s → sent = answer <$> reqs).
Proof. apply order_segment. Qed.

Lemma responses_in_request_order_witness :
  moves 3 first_user (init_machine 3) = Some first_user_gone
  ∧ moves 3 second_user first_user_gone = Some second_user_served
  ∧ Z.of_nat (length (handled second_user_served)) < MAXQUEUESZ
  ∧ 0 <= 4 ∧ 4 ≠ 3
  ∧ nothing_owed 4 first_user_gone
  ∧ ∃ sent reqs,
      sent_on 4 (trace (shared second_user_served))
      = sent_on 4 (trace (shared first_user_gone)) ++ sent
      ∧ omap (request_of 4) (handled second_user_served)
        = omap (request_of 4) (handled first_user_gone) ++ reqs
      ∧ sent `prefix_of` (answer <$> reqs)
      ∧ (nothing_owed 4 second_user_served → sent = answer <$> reqs).
Proof.
  assert (H1 : moves 3 first_user (init_machine 3) = Some first_user_gone)
    by (apply default_defined; vm_compute; reflexivity).
  assert (H2 : moves 3 second_user first_user_gone = Some second_user_served)
    by (apply default_defined; vm_compute; reflexivity).
  assert (Hcap : Z.of_nat (length (handled second_user_served)) < MAXQUEUESZ)
    by (vm_compute; reflexivity).
  assert (Hp : pointers 0 (shared first_user_gone) = Some (1, 1))
    by (vm_compute; reflexivity).
  assert (Hfree : nothing_owed 4 first_user_gone).
  { split; [vm_compute; reflexivity|]. intros q Hq.
    unfold pointers in Hp. change (Z.rem 4 MAXSENDER) with 0 in Hq.
    rewrite Hq in Hp. injection Hp as Hf Hl.
    apply owed_empty. congruence. }
  split; [exact H1|]. split; [exact H2|]. split; [exact Hcap|].
  split; [lia|]. split; [lia|]. split; [exact Hfree|].
  apply (responses_in_request_order 3 first_user second_user first_user_gone
           second_user_served 4 H1 H2 Hcap); [lia | lia | exact Hfree].
Defined.

(** X20 ([accept_loop] and [send_thread] together). Every schedule of
    moves of the two threads, from the start of [accept_loop], in which
    [epoll_wait] brings fewer than [MAXQUEUESZ] events in all, every ready
    descriptor is the listening socket or non-negative, the senders are
    those of the [MAXSENDER] queues and every read returns fewer than
    [BUFSZ] bytes, runs without an access out of bounds, wherever the
    threads are preempted between their critical sections. *)
Theorem moves_in_bounds soc ms :
  Forall (move_in_range soc) ms →
  Forall (short_read soc) (supplied ms) →
  Z.of_nat (length (supplied ms)) < MAXQUEUESZ →
  is_Some (moves soc ms (init_machine soc)).
Proof.
  intros Hr Hs Hcap. apply moves_defined; try assumption.
  - apply machine_inv_init.
  - constructor.
Qed.

Lemma moves_in_bounds_witness :
  Forall (move_in_range 3) (first_user ++ second_user)
  ∧ Forall (short_read 3) (supplied (first_user ++ second_user))
  ∧ Z.of_nat (length (supplied (first_user ++ second_user))) < MAXQUEUESZ
  ∧ is_Some (moves 3 (first_user ++ second_user) (init_machine 3)).
Proof.
  assert (Hr : Forall (move_in_range 3) (first_user ++ second_user)).
  { unfold first_user, second_user. rewrite <- !app_assoc.
    repeat (apply Forall_app; split);
      try (apply loop_pass_in_range; first [left; reflexivity | right; cbn; lia]);
      repeat constructor; cbn; unfold MAXSENDER; lia. }
  assert (Hs : Forall (short_read 3) (supplied (first_user ++ second_user))).
  { unfold first_user, second_user. rewrite !supplied_app.
    repeat (apply Forall_app; split);
      try (apply loop_pass_short; intros _; vm_compute; discriminate);
      constructor. }
  assert (Hcap : Z.of_nat (length (supplied (first_user ++ second_user)))
                 < MAXQUEUESZ) by (vm_compute; reflexivity).
  split; [exact Hr|]. split; [exact Hs|]. split; [exact Hcap|].
  apply (moves_in_bounds 3 (first_user ++ second_user) Hr Hs Hcap).
Defined.

(** X19 ([send_thread], lines 387-405, with [accept_loop], lines
    272-278). The sender releases the mutex after the pop. In the schedule
    [preempted_sender] every read returns fewer than [BUFSZ] bytes, every
    descriptor and queue number is in range, and 4099 events are handled:
    the sender of shard 0 holds index 0 while [last] comes round to 0, a
    failing [recv] stores [len = -1] in that slot, and the sender's next
    move stores the terminator at [buf[-1]], outside the buffer. *)
Theorem preempted_sender_leaves_buffer :
  Forall (move_in_range 3) (preempted_sender ++ [SenderMove 0 10])
  ∧ Forall (short_read 3) (supplied (preempted_sender ++ [SenderMove 0 10]))
  ∧ (s ← moves 3 preempted_sender (init_machine 3);
     Some (held s !! 0, pointers 0 (shared s),
           len <$> slot_at 0 0 (shared s), length (handled s),
           defined (sender_move 0 10 s)))
    = Some (Some 0, Some (1, 0), Some (-1), 4099%nat, false).
Proof.
  split; [|split].
  - unfold preempted_sender. rewrite <- !app_assoc.
    apply Forall_app; split;
      [apply loop_pass_in_range; left; reflexivity|].
    apply Forall_app; split;
      [apply loop_pass_in_range; left; reflexivity|].
    apply Forall_app; split;
      [apply loop_pass_in_range; right; cbn; lia|].
    apply Forall_app; split;
      [repeat constructor; cbn; unfold MAXSENDER; lia|].
    apply Forall_app; split;
      [apply Forall_repeat, loop_pass_in_range; right; cbn; lia|].
    apply Forall_app; split;
      [apply loop_pass_in_range; right; cbn; lia|].
    repeat constructor; cbn; unfold MAXSENDER; lia.
  - rewrite supplied_app. apply Forall_app; split; [|constructor].
    unfold preempted_sender. rewrite !supplied_app.
    apply Forall_app; split;
      [apply loop_pass_short; intros _; vm_compute; discriminate|].
    apply Forall_app; split;
      [apply loop_pass_short; intros _; vm_compute; discriminate|].
    apply Forall_app; split;
      [apply loop_pass_short; intros _; vm_compute; discriminate|].
    apply Forall_app; split; [constructor|].
    apply Forall_app; split;
      [apply Forall_supplied_repeat, loop_pass_short; intros _; vm_compute;
       discriminate|].
    apply loop_pass_short. intros _. vm_compute. discriminate.
  - vm_compute. reflexivity.
Qed.

End MachineExtras.

(** ** server_socket, client_socket and recv_data *)

Section Setup.

Local Ltac paths := repeat split; intros; try tauto; try lia.

(** X14 ([server_socket]). Whatever the calls return: a descriptor other
    than -1 is returned exactly when all six calls succeed, it is the one
    [socket] gave and it is not closed; on failure the descriptor is closed
    exactly when [socket] had been reached and had given one; and
    [freeaddrinfo] is called once when [getaddrinfo] succeeded and not at
    all otherwise. *)
Theorem server_socket_releases o :
  ((server_socket o).1 ≠ -1 ↔ setup_ok o)
  ∧ ((server_socket o).1 ≠ -1 →
     (server_socket o).1 = socket_ret o
     ∧ setup_closed (server_socket o).2 = [])
  ∧ ((server_socket o).1 = -1 →
     setup_closed (server_socket o).2
     = if decide (socket_made o) then [socket_ret o] else [])
  ∧ setup_freed (server_socket o).2
    = if getaddrinfo_ret o =? 0 then 1%nat else 0%nat.
Proof.
  unfold server_socket, setup_ok, socket_made.
  destruct (Z.eqb_spec (getaddrinfo_ret o) 0); cbn [negb];
    [|case_decide; paths].
  destruct (Z.eqb_spec (getnameinfo_ret o) 0); cbn [negb];
    [|case_decide; paths].
  destruct (Z.eqb_spec (socket_ret o) (-1)); [case_decide; paths|].
  destruct (Z.eqb_spec (setsockopt_ret o) (-1)); [case_decide; paths|].
  destruct (Z.eqb_spec (bind_ret o) (-1)); [case_decide; paths|].
  destruct (Z.eqb_spec (listen_ret o) (-1)); case_decide; paths.
Qed.

(** X15 ([client_socket]). Whatever the calls return: a descriptor other
    than -1 is returned exactly when the four calls succeed, it is the one
    [socket] gave and it is not closed; on failure the descriptor is closed
    exactly when [socket] had been reached and had given one; and
    [freeaddrinfo] is called once when [getaddrinfo] succeeded and not at
    all otherwise. *)
Theorem client_socket_releases o :
  ((client_socket o).1 ≠ -1 ↔
   c_getaddrinfo_ret o = 0 ∧ c_getnameinfo_ret o = 0
   ∧ c_socket_ret o ≠ -1 ∧ connect_ret o ≠ -1)
  ∧ ((client_socket o).1 ≠ -1 →
     (client_socket o).1 = c_socket_ret o
     ∧ setup_closed (client_socket o).2 = [])
  ∧ ((client_socket o).1 = -1 →
     setup_closed (client_socket o).2
     = if decide (c_getaddrinfo_ret o = 0 ∧ c_getnameinfo_ret o = 0
                  ∧ c_socket_ret o ≠ -1)
       then [c_socket_ret o] else [])
  ∧ setup_freed (client_socket o).2
    = if c_getaddrinfo_ret o =? 0 then 1%nat else 0%nat.
Proof.
  unfold client_socket.
  destruct (Z.eqb_spec (c_getaddrinfo_ret o) 0); cbn [negb];
    [|case_decide; paths].
  destruct (Z.eqb_spec (c_getnameinfo_ret o) 0); cbn [negb];
    [|case_decide; paths].
  destruct (Z.eqb_spec (c_socket_ret o) (-1)); [case_decide; paths|].
  destruct (Z.eqb_spec (connect_ret o) (-1)); case_decide; paths.
Qed.

Lemma land_char_of_byte b : is_byte b → Z.land (char_of_byte b) 255 = b.
Proof.
  intros Hb. change 255 with (Z.ones 8). rewrite Z.land_ones by lia.
  unfold char_of_byte, is_byte in *.
  destruct (Z.ltb_spec b 128); Z.to_euclidean_division_equations; lia.
Qed.

Lemma byte_of_char_of_byte b : is_byte b → byte_of_int (char_of_byte b) = b.
Proof.
  intros Hb. unfold byte_of_int, char_of_byte, is_byte in *.
  destruct (Z.ltb_spec b 128); Z.to_euclidean_division_equations; lia.
Qed.

Lemma recv_data_command c0 r2 r3 send_ret :
  recv1_ok r2 → recv1_ok r3 → r2 ≠ Err → r3 ≠ Err →
  recv_data c0 (Got IAC) r2 r3 send_ret
  = (if send_ret =? -1 then -1 else 0,
     TelSend [IAC; WONT; option_byte r2 r3]
     :: if send_ret =? -1 then [TelPerror "send"] else []).
Proof.
  intros H2 H3 N2 N3. unfold recv_data, recv_char at 1.
  change (1 <=? 0) with false. cbn match.
  change (Z.land (char_of_byte IAC) 255 =? IAC) with true. cbn match.
  assert (Hb : byte_of_int (match r3 with
                            | Got b => char_of_byte b
                            | _ => match r2 with
                                   | Got b => char_of_byte b
                                   | _ => char_of_byte IAC
                                   end
                            end) = option_byte r2 r3).
  { unfold option_byte. destruct r3 as [b3| |]; [now apply byte_of_char_of_byte| |done].
    destruct r2 as [b2| |]; [now apply byte_of_char_of_byte|reflexivity|done]. }
  destruct r2 as [b2| |], r3 as [b3| |]; try done;
    cbn [recv_char]; cbn match in *;
    change (1 =? -1) with false; change (0 =? -1) with false; cbn match;
    rewrite Hb; change (byte_of_int IAC) with IAC;
    change (byte_of_int WONT) with WONT;
    destruct (send_ret =? -1); reflexivity.
Qed.

Lemma recv_data_plain c0 b r2 r3 send_ret :
  is_byte b → b ≠ IAC →
  recv_data c0 (Got b) r2 r3 send_ret = (0, [TelPutc b]).
Proof.
  intros Hb Hne. unfold recv_data, recv_char at 1.
  change (1 <=? 0) with false. cbn match.
  rewrite land_char_of_byte by done.
  destruct (Z.eqb_spec b IAC); [done|].
  unfold byte_of_int. f_equal. f_equal. f_equal.
  unfold is_byte in Hb. Z.to_euclidean_division_equations; lia.
Qed.

(** X16 (telnet [recv_data], lines 746-771). After an IAC byte, whatever
    the command byte is, the reply sent is IAC WONT followed by the last
    byte read, nothing is shown, and the result is 0 unless [send] fails.
    A read that returns 0 in the middle of the command leaves the previous
    byte in [c]: the connection's end is not seen there. *)
Theorem telnet_refuses_every_option c0 r2 r3 send_ret :
  recv1_ok r2 → recv1_ok r3 → r2 ≠ Err → r3 ≠ Err →
  recv_data c0 (Got IAC) r2 r3 send_ret
  = (if send_ret =? -1 then -1 else 0,
     TelSend [IAC; WONT; option_byte r2 r3]
     :: if send_ret =? -1 then [TelPerror "send"] else []).
Proof. apply recv_data_command. Qed.

Lemma telnet_refuses_every_option_witness :
  recv_data 0 (Got IAC) (Got 253) (Got 1) 3
  = (0, [TelSend [IAC; WONT; 1]]).
Proof.
  apply (telnet_refuses_every_option 0 (Got 253) (Got 1) 3);
    unfold recv1_ok, is_byte; (lia || discriminate).
Defined.

(** X17 (telnet [recv_data], lines 746 and 772-775). Every byte other
    than IAC, also one above 127 stored in a signed [char], is shown as
    itself; nothing is sent, no further byte is read and the result is
    0. *)
Theorem telnet_data_byte_shown c0 b r2 r3 send_ret :
  is_byte b → b ≠ IAC →
  recv_data c0 (Got b) r2 r3 send_ret = (0, [TelPutc b]).
Proof. apply recv_data_plain. Qed.

Lemma telnet_data_byte_shown_witness :
  recv_data 0 (Got 200) Err Err (-1) = (0, [TelPutc 200]).
Proof.
  apply (telnet_data_byte_shown 0 200 Err Err (-1)); unfold is_byte, IAC; lia.
Defined.

(** X18 (telnet [recv_data]). The result is -1 exactly when the first
    read returns 0 or -1, or, after an IAC byte, when one of the two
    further reads returns -1 or [send] fails. *)
Theorem recv_data_fails_iff c0 r1 r2 r3 send_ret :
  recv1_ok r1 → recv1_ok r2 → recv1_ok r3 →
  (recv_data c0 r1 r2 r3 send_ret).1 = -1
  ↔ r1 = Eof ∨ r1 = Err
    ∨ (r1 = Got IAC ∧ (r2 = Err ∨ r3 = Err ∨ send_ret = -1)).
Proof.
  intros H1 H2 H3. destruct r1 as [b| |].
  - destruct (decide (b = IAC)) as [->|Hne].
    + assert (Hcase : r2 = Err ∨ r3 = Err ∨ (r2 ≠ Err ∧ r3 ≠ Err)).
      { destruct r2, r3; auto. }
      destruct Hcase as [->|[->|[N2 N3]]].
      { split; [intros _; right; right; split; [reflexivity|auto]|reflexivity]. }
      { split; [intros _; right; right; split; [reflexivity|auto]|].
        intros _. destruct r2; reflexivity. }
      rewrite recv_data_command by done. cbn [fst].
      destruct (Z.eqb_spec send_ret (-1)).
      * split; [intros _; right; right; split; [reflexivity|auto]|reflexivity].
      * split; [done|]. intros [?|[?|[_ [?|[?|?]]]]]; done.
    + rewrite recv_data_plain by done. cbn [fst]. split; [done|].
      intros [?|[?|[? _]]]; [done..|]. congruence.
  - split; [auto|reflexivity].
  - split; [auto|reflexivity].
Qed.

Lemma recv_data_fails_iff_witness :
  (recv_data 0 (Got IAC) Eof Eof 3).1 = -1
  ↔ Got IAC = Eof ∨ Got IAC = Err
    ∨ (Got IAC = Got IAC ∧ (Eof = Err ∨ Eof = Err ∨ 3 = -1)).
Proof.
  apply (recv_data_fails_iff 0 (Got IAC) Eof Eof 3);
    unfold recv1_ok, is_byte, IAC; (lia || exact I).
Defined.

End Setup.
